(** * plauncher: a shallow embedding of the launcher and its file utilities

    The Go sources embedded here are [plauncher.go] (configuration, flag
    parsing, override merge, command assembly, the folders made at start,
    the overrides saved on request), [file-utils.go] (CopyFile, CopyDir,
    ReadLastLine) and [steam.go] (the Steam application id, the game name,
    the compatibility-data migration).

    Go strings are byte sequences: they are modelled by [string], whose
    characters are the 256 [ascii] values.  Go maps are [gmap]s, slices are
    lists, [int] is [Z].  Log output is left out, except for the message of a
    fatal exit. *)

From Stdlib Require Import ZArith NArith Ascii String.
From stdpp Require Import gmap strings list fin_maps sorting.

Local Open Scope Z_scope.
Set Warnings "-clear-no-such-hyp".

(** ** The parts of Go's [strings] package the program uses *)

Module strings.

(** [strings.HasPrefix(s, prefix)]. *)
Fixpoint HasPrefix (s pre : string) {struct pre} : bool :=
  match pre with
  | EmptyString => true
  | String a pre' =>
      match s with
      | EmptyString => false
      | String b s' => if decide (a = b) then HasPrefix s' pre' else false
      end
  end.

(** [strings.Contains(s, sep)] for a one-byte [sep]. *)
Fixpoint Contains (s : string) (sep : ascii) : bool :=
  match s with
  | EmptyString => false
  | String c r => if decide (c = sep) then true else Contains r sep
  end.

(** [strings.Split(s, sep)] for a one-byte [sep]: the pieces of [s] between
    the occurrences of [sep]; a string without [sep] is its only piece, so
    the result is never empty. *)
Fixpoint Split (s : string) (sep : ascii) : list string :=
  match s with
  | EmptyString => [EmptyString]
  | String c r =>
      if decide (c = sep) then EmptyString :: Split r sep
      else match Split r sep with
           | w :: ws => String c w :: ws
           | [] => [String c EmptyString]
           end
  end.

(** [strings.Join(elems, sep)]. *)
Fixpoint Join (elems : list string) (sep : string) : string :=
  match elems with
  | [] => EmptyString
  | [e] => e
  | e :: rest => e +:+ sep +:+ Join rest sep
  end.

End strings.

(** [s[n:]] on a string that has at least [n] bytes. *)
Fixpoint string_drop (n : nat) (s : string) : string :=
  match n, s with
  | O, _ => s
  | S n', String _ r => string_drop n' r
  | S _, EmptyString => EmptyString
  end.

(** [slices.Contains(l, x)]. *)
Definition slices_Contains (l : list string) (x : string) : bool :=
  bool_decide (x ∈ l).

(** ** The configuration record ([plauncher.go], lines 41-83) *)

Record WineConfiguration := mkWine { Wine_Alsa : bool }.
Record MangohudConfiguration := mkMangohud { Mangohud_Enabled : bool }.
Record GamemodeConfiguration := mkGamemode { Gamemode_Enabled : bool }.
Record GamescopeConfiguration := mkGamescope {
  Gamescope_Enabled : bool;
  Gamescope_Hdr : bool;
  Gamescope_Args : list string
}.
Record EosConfiguration := mkEos { Eos_Enabled : bool }.
Record UmuConfiguration := mkUmu {
  Umu_Enabled : bool;
  Umu_Proton : string;
  Umu_GameId : string;
  Umu_Store : string;
  Umu_Args : list string
}.

(** [Environment], [specialFlags] and [props] are Go maps.  They are never nil
    here: [main] builds the default configuration with [make], and
    [readOrCreateUserConfiguration] replaces a nil [Environment] by an empty
    map and always makes the two runtime maps. *)
Record Configuration := mkConfiguration {
  Environment : gmap string string;
  Wine : WineConfiguration;
  Mangohud : MangohudConfiguration;
  Gamemode : GamemodeConfiguration;
  Gamescope : GamescopeConfiguration;
  EosOverlay : EosConfiguration;
  Umu : UmuConfiguration;
  PreScripts : list string;
  PostScripts : list string;
  specialFlags : gmap string bool;
  props : gmap string string
}.

(** [defaultConfiguration] of [main]. *)
Definition defaultConfiguration : Configuration :=
  mkConfiguration ∅ (mkWine true) (mkMangohud false) (mkGamemode true)
    (mkGamescope false false []) (mkEos false)
    (mkUmu false EmptyString EmptyString EmptyString []) [] [] ∅ ∅.

(** Field assignments through the [*Configuration] pointer. *)
Definition set_Environment (f : gmap string string → gmap string string)
    (c : Configuration) : Configuration :=
  mkConfiguration (f (Environment c)) (Wine c) (Mangohud c) (Gamemode c)
    (Gamescope c) (EosOverlay c) (Umu c) (PreScripts c) (PostScripts c)
    (specialFlags c) (props c).
Definition set_Wine (w : WineConfiguration) (c : Configuration) :=
  mkConfiguration (Environment c) w (Mangohud c) (Gamemode c)
    (Gamescope c) (EosOverlay c) (Umu c) (PreScripts c) (PostScripts c)
    (specialFlags c) (props c).
Definition set_Mangohud (m : MangohudConfiguration) (c : Configuration) :=
  mkConfiguration (Environment c) (Wine c) m (Gamemode c)
    (Gamescope c) (EosOverlay c) (Umu c) (PreScripts c) (PostScripts c)
    (specialFlags c) (props c).
Definition set_Gamemode (g : GamemodeConfiguration) (c : Configuration) :=
  mkConfiguration (Environment c) (Wine c) (Mangohud c) g
    (Gamescope c) (EosOverlay c) (Umu c) (PreScripts c) (PostScripts c)
    (specialFlags c) (props c).
Definition set_Gamescope (g : GamescopeConfiguration) (c : Configuration) :=
  mkConfiguration (Environment c) (Wine c) (Mangohud c) (Gamemode c)
    g (EosOverlay c) (Umu c) (PreScripts c) (PostScripts c)
    (specialFlags c) (props c).
Definition set_EosOverlay (e : EosConfiguration) (c : Configuration) :=
  mkConfiguration (Environment c) (Wine c) (Mangohud c) (Gamemode c)
    (Gamescope c) e (Umu c) (PreScripts c) (PostScripts c)
    (specialFlags c) (props c).
Definition set_Umu (u : UmuConfiguration) (c : Configuration) :=
  mkConfiguration (Environment c) (Wine c) (Mangohud c) (Gamemode c)
    (Gamescope c) (EosOverlay c) u (PreScripts c) (PostScripts c)
    (specialFlags c) (props c).
Definition set_PreScripts (l : list string) (c : Configuration) :=
  mkConfiguration (Environment c) (Wine c) (Mangohud c) (Gamemode c)
    (Gamescope c) (EosOverlay c) (Umu c) l (PostScripts c)
    (specialFlags c) (props c).
Definition set_PostScripts (l : list string) (c : Configuration) :=
  mkConfiguration (Environment c) (Wine c) (Mangohud c) (Gamemode c)
    (Gamescope c) (EosOverlay c) (Umu c) (PreScripts c) l
    (specialFlags c) (props c).
Definition set_specialFlags (f : gmap string bool → gmap string bool)
    (c : Configuration) : Configuration :=
  mkConfiguration (Environment c) (Wine c) (Mangohud c) (Gamemode c)
    (Gamescope c) (EosOverlay c) (Umu c) (PreScripts c) (PostScripts c)
    (f (specialFlags c)) (props c).
Definition set_props (f : gmap string string → gmap string string)
    (c : Configuration) : Configuration :=
  mkConfiguration (Environment c) (Wine c) (Mangohud c) (Gamemode c)
    (Gamescope c) (EosOverlay c) (Umu c) (PreScripts c) (PostScripts c)
    (specialFlags c) (f (props c)).

Definition set_Gamescope_Enabled (v : bool) (c : Configuration) :=
  set_Gamescope (mkGamescope v (Gamescope_Hdr (Gamescope c))
                   (Gamescope_Args (Gamescope c))) c.
Definition set_Gamescope_Hdr (v : bool) (c : Configuration) :=
  set_Gamescope (mkGamescope (Gamescope_Enabled (Gamescope c)) v
                   (Gamescope_Args (Gamescope c))) c.
Definition set_Gamescope_Args (l : list string) (c : Configuration) :=
  set_Gamescope (mkGamescope (Gamescope_Enabled (Gamescope c))
                   (Gamescope_Hdr (Gamescope c)) l) c.
Definition set_Umu_Enabled (v : bool) (c : Configuration) :=
  set_Umu (mkUmu v (Umu_Proton (Umu c)) (Umu_GameId (Umu c))
             (Umu_Store (Umu c)) (Umu_Args (Umu c))) c.
Definition set_Umu_Proton (s : string) (c : Configuration) :=
  set_Umu (mkUmu (Umu_Enabled (Umu c)) s (Umu_GameId (Umu c))
             (Umu_Store (Umu c)) (Umu_Args (Umu c))) c.
Definition set_Umu_GameId (s : string) (c : Configuration) :=
  set_Umu (mkUmu (Umu_Enabled (Umu c)) (Umu_Proton (Umu c)) s
             (Umu_Store (Umu c)) (Umu_Args (Umu c))) c.
Definition set_Umu_Store (s : string) (c : Configuration) :=
  set_Umu (mkUmu (Umu_Enabled (Umu c)) (Umu_Proton (Umu c))
             (Umu_GameId (Umu c)) s (Umu_Args (Umu c))) c.
Definition set_Umu_Args (l : list string) (c : Configuration) :=
  set_Umu (mkUmu (Umu_Enabled (Umu c)) (Umu_Proton (Umu c))
             (Umu_GameId (Umu c)) (Umu_Store (Umu c)) l) c.

(** Reading a Go map at a key that may be missing gives the zero value. *)
Definition map_get (m : gmap string string) (k : string) : string :=
  default EmptyString (m !! k).

(** ** Flag parsing ([plauncher.go], lines 293-346) *)

(** [parseDoubleDashParam]: [split_arg[1]] exists whenever [arg] contains
    ["="], the default below is never reached. *)
Definition parseDoubleDashParam (configuration : Configuration) (arg : string)
    : Configuration :=
  if strings.Contains arg "="%char then
    let split_arg := strings.Split arg "="%char in
    set_props <[ default EmptyString (split_arg !! 0%nat) :=
                 default EmptyString (split_arg !! 1%nat) ]> configuration
  else
    set_specialFlags <[ arg := true ]> configuration.

(** One step of the [switch] inside [parseBooleanDashParam]. *)
Definition toggle (value : bool) (configuration : Configuration) (char : ascii)
    : Configuration :=
  if decide (char = "G"%char) then set_Gamescope_Enabled value configuration
  else if decide (char = "g"%char) then
    set_Gamemode (mkGamemode value) configuration
  else if decide (char = "h"%char) then set_Gamescope_Hdr value configuration
  else if decide (char = "m"%char) then
    set_Mangohud (mkMangohud value) configuration
  else if decide (char = "e"%char) then
    set_EosOverlay (mkEos value) configuration
  else configuration.

(** [parseBooleanDashParam] ranges over the runes of [arg].  The five
    recognised runes are one-byte characters, and no byte of a longer or of a
    malformed UTF-8 sequence equals one of them, so ranging over the bytes
    assigns the same fields in the same order. *)
Fixpoint parseBooleanDashParam (configuration : Configuration) (arg : string)
    (value : bool) : Configuration :=
  match arg with
  | EmptyString => configuration
  | String char rest =>
      parseBooleanDashParam (toggle value configuration char) rest value
  end.

(** Whether [arg] is consumed as a flag by the loop of
    [enrichConfigurationWithArgvFlags], and the configuration after it. *)
Definition parseFlag (configuration : Configuration) (arg : string)
    : option Configuration :=
  if strings.HasPrefix arg "--" then
    Some (parseDoubleDashParam configuration (string_drop 2 arg))
  else if strings.HasPrefix arg "-!" then
    Some (parseBooleanDashParam configuration (string_drop 2 arg) false)
  else if strings.HasPrefix arg "-" then
    Some (parseBooleanDashParam configuration (string_drop 1 arg) true)
  else None.

(** The [for i, arg := range os.Args] loop, from index [i] on: the index it
    returns at, if any, and the configuration it leaves. *)
Fixpoint argvLoop (i : nat) (args : list string) (configuration : Configuration)
    : Configuration * option nat :=
  match args with
  | [] => (configuration, None)
  | arg :: rest =>
      if decide (i = 0%nat) then argvLoop (S i) rest configuration
      else match parseFlag configuration arg with
           | Some configuration' => argvLoop (S i) rest configuration'
           | None => (configuration, Some i)
           end
  end.

(** [fmt.Sprintf("%s", args)] of a slice of strings. *)
Definition sprint_slice (args : list string) : string :=
  "[" +:+ strings.Join args " " +:+ "]".

(** [enrichConfigurationWithArgvFlags], with [os.Args] as [args]; the result
    is the mutated configuration and the Go pair [(int, error)], the error
    being [None] for nil. *)
Definition enrichConfigurationWithArgvFlags (configuration : Configuration)
    (args : list string) : Configuration * (Z * option string) :=
  match argvLoop 0 args configuration with
  | (configuration', Some i) => (configuration', (Z.of_nat i, None))
  | (configuration', None) =>
      (configuration',
       (-1, Some ("Could not find command in: " +:+ sprint_slice args)))
  end.

(** ** Override merge ([plauncher.go], lines 348-400) *)

(** [for _, x := range override { if !slices.Contains(current, x) { current =
    append(current, x) } }]. *)
Definition appendMissing (current override : list string) : list string :=
  foldl (λ cur x, if slices_Contains cur x then cur else cur ++ [x])
    current override.

(** [for key, value := range override { current[key] = value }]: Go visits the
    entries in an unspecified order; [map_fold] fixes one. *)
Definition assignAll (current override : gmap string string)
    : gmap string string :=
  map_fold (λ key value cur, <[ key := value ]> cur) current override.

Definition applyConfigOverrides
    (currentConfiguration overrideConfiguration : Configuration)
    : Configuration :=
  let c := currentConfiguration in
  let o := overrideConfiguration in
  let c := set_Environment (λ env, assignAll env (Environment o)) c in
  let c := set_Gamemode (mkGamemode (Gamemode_Enabled (Gamemode o))) c in
  let c := set_Mangohud (mkMangohud (Mangohud_Enabled (Mangohud o))) c in
  let c := set_Gamescope_Enabled (Gamescope_Enabled (Gamescope o)) c in
  let c := set_Gamescope_Hdr (Gamescope_Hdr (Gamescope o)) c in
  let c := set_EosOverlay (mkEos (Eos_Enabled (EosOverlay o))) c in
  let c := set_Umu_Enabled (Umu_Enabled (Umu o)) c in
  let c := set_Wine (mkWine (Wine_Alsa (Wine o))) c in
  let c := if decide (Umu_Proton (Umu o) ≠ EmptyString)
           then set_Umu_Proton (Umu_Proton (Umu o)) c else c in
  let c := if decide (Umu_Store (Umu o) ≠ EmptyString)
           then set_Umu_Store (Umu_Store (Umu o)) c else c in
  let c := if decide (Umu_GameId (Umu o) ≠ EmptyString)
           then set_Umu_GameId (Umu_GameId (Umu o)) c else c in
  let c := set_Umu_Args
             (appendMissing (Umu_Args (Umu c)) (Umu_Args (Umu o))) c in
  let c := set_Gamescope_Args
             (appendMissing (Gamescope_Args (Gamescope c))
                (Gamescope_Args (Gamescope o))) c in
  let c := set_PreScripts (appendMissing (PreScripts c) (PreScripts o)) c in
  let c := set_PostScripts (appendMissing (PostScripts c) (PostScripts o)) c in
  c.

(** ** Command assembly ([plauncher.go], lines 402-496 and 569-579) *)

(** [0755] in octal. *)
Definition DEFAULT_PERMISSION : N := 493%N.
Definition GAMEMODE_BIN_NAME : string := "gamemoderun".
Definition MANGOHUD_BIN_NAME : string := "mangohud".
Definition GAMESCOPE_BIN_NAME : string := "gamescope".
Definition UMU_RUN_BIN_NAME : string := "umu-run".
Definition GAMESCOPE_HDR_ARGV : string := "--hdr-enabled".

(** How a call that may end the process ends: [log.Fatalln] exits with the
    message logged, a nil dereference panics. *)
Inductive outcome (A : Type) : Type :=
  | Done (a : A)
  | Fatal (msg : string)
  | Panic.
Arguments Done {A} a.
Arguments Fatal {A} msg.
Arguments Panic {A}.

(** What [os.Stat] tells the caller: an error that [os.IsNotExist] accepts,
    another error, or a [FileInfo] with its [IsDir]. *)
Inductive stat_result :=
  | StatInfo (isDir : bool)
  | StatNotExist
  | StatOtherError.

Section Host.
(** The host the launcher runs on.  The launcher only asks it questions and
    creates one directory, so the host is kept abstract: [W] is the state of
    its file system. *)
Context {W : Type}.
(** Standard output of [which binName], [None] when it exits with an error. *)
Variable which_output : string → option string.
(** [strings.TrimSpace]. *)
Variable TrimSpace : string → string.
(** [filepath.Join]. *)
Variable filepath_Join : list string → string.
(** [os.LookupEnv] on the launcher's own environment. *)
Variable LookupEnv : string → option string.
(** [os.Stat] and [os.MkdirAll]. *)
Variable os_Stat : W → string → stat_result.
Variable os_MkdirAll : string → N → W → W.

Definition checkIfBinExists (binName : string) : string * bool :=
  match which_output binName with
  | None => (EmptyString, false)
  | Some stdout =>
      (TrimSpace (default EmptyString (strings.Split stdout "010"%char !! 0%nat)),
       true)
  end.

Definition enrichCommandWithMangohud (currentCommand : list string)
    (configuration : Configuration) (userConfigDir : string)
    : list string * Configuration :=
  let '(_, exists_) := checkIfBinExists MANGOHUD_BIN_NAME in
  if Mangohud_Enabled (Mangohud configuration) && exists_ then
    let configuration :=
      set_Environment
        <[ "MANGOHUD_CONFIGFILE" :=
           filepath_Join [userConfigDir; "MangoHud"; "MangoHud.conf"] ]>
        configuration in
    let configuration := set_Environment <[ "MANGOHUD" := "1" ]> configuration in
    let configuration :=
      set_Environment <[ "DISABLE_MANGOAPP" := "1" ]> configuration in
    (currentCommand, configuration)
  else (currentCommand, configuration).

Definition enrichCommandWithGamemode (currentCommand : list string)
    (configuration : Configuration) : list string :=
  let '(cmd, exists_) := checkIfBinExists GAMEMODE_BIN_NAME in
  if Gamemode_Enabled (Gamemode configuration) && exists_ then
    currentCommand ++ [cmd]
  else currentCommand.

(** The two nested [range] loops that append the compositor's arguments. *)
Definition appendSplitArgs (newCmd : list string) (args : list string)
    : list string :=
  foldl (λ newCmd arg,
           foldl (λ newCmd splitArg, newCmd ++ [splitArg]) newCmd
             (strings.Split arg " "%char))
    newCmd args.

Definition enrichCommandWithGamescope (currentCommand : list string)
    (configuration : Configuration) (userConfigDir : string)
    : list string * Configuration :=
  let '(cmd, exists_) := checkIfBinExists GAMESCOPE_BIN_NAME in
  if Gamescope_Enabled (Gamescope configuration) && exists_ then
    let newCmd := currentCommand ++ [cmd] in
    let configuration :=
      if Gamescope_Hdr (Gamescope configuration) then
        if negb (slices_Contains (Gamescope_Args (Gamescope configuration))
                   GAMESCOPE_HDR_ARGV) then
          let configuration :=
            set_Gamescope_Args
              (Gamescope_Args (Gamescope configuration) ++ [GAMESCOPE_HDR_ARGV])
              configuration in
          let configuration :=
            set_Environment <[ "DXVK_HDR" := "1" ]> configuration in
          set_Environment <[ "ENABLE_HDR_WSI" := "1" ]> configuration
        else configuration
      else configuration in
    let newCmd :=
      appendSplitArgs newCmd (Gamescope_Args (Gamescope configuration)) in
    (newCmd ++ ["--"], configuration)
  else (currentCommand, configuration).

(** The three assignments to [Environment["GAMEID"]], in source order. *)
Definition setGameId (configuration : Configuration) : Configuration :=
  let configuration :=
    match props configuration !! "id" with
    | Some id =>
        if decide (id ≠ EmptyString) then
          set_Environment <[ "GAMEID" := map_get (props configuration) "id" ]>
            configuration
        else configuration
    | None => configuration
    end in
  let configuration :=
    match Environment configuration !! "GAMEID" with
    | Some id =>
        if decide (id = EmptyString) then
          set_Environment <[ "GAMEID" := map_get (props configuration) "name" ]>
            configuration
        else configuration
    | None =>
        set_Environment <[ "GAMEID" := map_get (props configuration) "name" ]>
          configuration
    end in
  configuration.

Definition enrichCommandWithUmu (currentCommand : list string)
    (configuration : Configuration) (compatDataBase : string) (w : W)
    : outcome (list string * Configuration * W) :=
  let '(umuBin, exists_) := checkIfBinExists UMU_RUN_BIN_NAME in
  if exists_ then
    if negb (bool_decide (is_Some (LookupEnv "STEAM_COMPAT_DATA_PATH")))
       && Umu_Enabled (Umu configuration) then
      match props configuration !! "name" with
      | None => Fatal "Games outside steam need a name. Set with --name=$val"
      | Some _ =>
          match os_Stat w (Umu_Proton (Umu configuration)) with
          | StatNotExist | StatInfo false =>
              Fatal "Specified proton path is does not exist or is not a directory"
          | StatOtherError => Panic
          | StatInfo true =>
              let prefixBaseFolder :=
                filepath_Join
                  [compatDataBase; map_get (props configuration) "name"] in
              let w :=
                os_MkdirAll (filepath_Join [prefixBaseFolder])
                  DEFAULT_PERMISSION w in
              let configuration := setGameId configuration in
              let configuration :=
                set_Environment <[ "WINEPREFIX" := prefixBaseFolder ]>
                  configuration in
              let configuration :=
                if decide (Umu_GameId (Umu configuration) ≠ EmptyString) then
                  set_Environment
                    <[ "GAMEID" := Umu_GameId (Umu configuration) ]>
                    configuration
                else configuration in
              let configuration :=
                set_Environment
                  <[ "PROTONPATH" := Umu_Proton (Umu configuration) ]>
                  configuration in
              let configuration :=
                set_Environment <[ "STORE" := Umu_Store (Umu configuration) ]>
                  configuration in
              let currentCommand := currentCommand ++ [umuBin] in
              let currentCommand :=
                foldl (λ cmd arg, cmd ++ [arg]) currentCommand
                  (Umu_Args (Umu configuration)) in
              Done (currentCommand, configuration, w)
          end
      end
    else Done (currentCommand, configuration, w)
  else Done (currentCommand, configuration, w).

(** The assembly in [main]: the four stages in their fixed order, then the
    game-launch tokens. *)
Definition assembleCommand (configuration : Configuration)
    (userConfigDir compatDataBase : string) (nonFlagArgs : list string)
    (w : W) : outcome (list string * Configuration * W) :=
  let command := [] in
  let '(command, configuration) :=
    enrichCommandWithMangohud command configuration userConfigDir in
  let command := enrichCommandWithGamemode command configuration in
  let '(command, configuration) :=
    enrichCommandWithGamescope command configuration userConfigDir in
  match enrichCommandWithUmu command configuration compatDataBase w with
  | Done (command, configuration, w) =>
      Done (command ++ nonFlagArgs, configuration, w)
  | Fatal msg => Fatal msg
  | Panic => Panic
  end.

End Host.

(** ** A file system for the file utilities and the migration

    The functions of [file-utils.go] and [steam.go] act on the host's file
    system through Go's [os] package.  The file system is a finite map from
    absolute, cleaned paths, given by their components ([[]] is the root), to
    nodes.  Paths are physical: a symbolic link is followed only when it is
    the last component of a path, and a path that runs through a link or a
    regular file fails with [ENOTDIR].  Access rights are not enforced. *)

Inductive node :=
  | Dir (mode : N)
  | File (mode : N) (data : string)
  | Link (target : list string).

Inductive errno :=
  | ENOENT | ENOTDIR | EEXIST | ENOTEMPTY | EISDIR | ELOOP | EBUSY
  | ErrorString (msg : string).

(** How a call can fail to return a value: with a Go [error], with a nil
    dereference, with [log.Fatalf], or because the recursion bound of the
    embedding was reached. *)
Inductive failure :=
  | Error (e : errno)
  | NilDeref
  | LogFatal (msg : string)
  | OutOfFuel.

Definition io (A : Type) : Type :=
  gmap (list string) node → gmap (list string) node * (failure + A).

Definition throw {A} (f : failure) : io A := λ fs, (fs, inl f).
Global Instance io_ret : MRet io := λ A a fs, (fs, inr a).
Global Instance io_bind : MBind io := λ A B k m fs,
  match m fs with
  | (fs', inr a) => k a fs'
  | (fs', inl f) => (fs', inl f)
  end.
(** [x, err := call()]: the Go error becomes a value the caller inspects. *)
Definition try {A} (m : io A) : io (errno + A) :=
  λ fs, match m fs with
        | (fs', inr a) => (fs', inr (inr a))
        | (fs', inl (Error e)) => (fs', inr (inl e))
        | (fs', inl f) => (fs', inl f)
        end.
(** A question asked of the file system, which it leaves as it is. *)
Definition ask {A} (q : gmap (list string) node → errno + A) : io A :=
  λ fs, match q fs with
        | inr a => (fs, inr a)
        | inl e => (fs, inl (Error e))
        end.

(** [for _, x := range l { body }], stopping at the first failure. *)
Fixpoint forEach {A} (l : list A) (body : A → io unit) : io unit :=
  match l with
  | [] => mret tt
  | x :: rest => body x;; forEach rest body
  end.

Definition IsDir (nd : node) : bool :=
  match nd with Dir _ => true | _ => false end.
Definition IsSymlink (nd : node) : bool :=
  match nd with Link _ => true | _ => false end.
(** The permission bits of [FileInfo.Mode()]. *)
Definition Mode (nd : node) : N :=
  match nd with Dir m => m | File m _ => m | Link _ => 511%N end.

(** A file name: not empty, not [.] or [..], and without a slash. *)
Definition valid_name (n : string) : bool :=
  negb (bool_decide (n = EmptyString)) && negb (bool_decide (n = "."))
  && negb (bool_decide (n = "..")) && negb (strings.Contains n "/"%char).

(** The directory a path lies in; the root lies in itself. *)
Definition parent (p : list string) : list string :=
  take (pred (length p)) p.

(** The name under which [k] is an entry of the directory [p], if it is one. *)
Definition child_of (p k : list string) : option string :=
  match last k with
  | Some n => if decide (k = p ++ [n]) then Some n else None
  | None => None
  end.

(** [filepath.Join(dir, elem)] for a cleaned absolute [dir]: the cleaned
    components of [elem] are applied to [dir] one by one. *)
Module filepath.

Definition step (stack : list string) (c : string) : list string :=
  if decide (c = EmptyString ∨ c = ".") then stack
  else if decide (c = "..") then parent stack
  else stack ++ [c].

Definition Join (dir : list string) (elem : string) : list string :=
  foldl step dir (strings.Split elem "/"%char).

End filepath.

(** The path as the string Go holds. *)
Definition path_string (p : list string) : string :=
  match p with
  | [] => "/"
  | _ => foldr (λ c acc, "/" +:+ c +:+ acc) EmptyString p
  end.

Definition entry_le (a b : string * node) : Prop := String.le a.1 b.1.
Global Instance entry_le_dec : RelDecision entry_le :=
  λ a b, String.le_dec a.1 b.1.

Module os.
Section os.
(** The file mode creation mask of the process. *)
Variable umask : N.

(** Entries of a directory listing: the name and the node found. *)
Definition Name (entry : string * node) : string := entry.1.

(** Walk from the directory [cur] along the components [rest]. *)
Fixpoint walk (fs : gmap (list string) node) (cur rest : list string)
    : errno + node :=
  match fs !! cur with
  | None => inl ENOENT
  | Some nd =>
      match rest with
      | [] => inr nd
      | n :: rest' =>
          match nd with
          | Dir _ => walk fs (cur ++ [n]) rest'
          | _ => inl ENOTDIR
          end
      end
  end.

Definition lstat (fs : gmap (list string) node) (p : list string)
    : errno + node := walk fs [] p.

(** Follow the links at the end of [p]: the path reached and its node. *)
Fixpoint follow (fuel : nat) (fs : gmap (list string) node)
    (p : list string) : errno + (list string * node) :=
  match lstat fs p with
  | inr (Link target) =>
      match fuel with
      | O => inl ELOOP
      | S fuel' => follow fuel' fs target
      end
  | inr nd => inr (p, nd)
  | inl e => inl e
  end.

Definition MAXSYMLINKS : nat := 40.

Definition stat (fs : gmap (list string) node) (p : list string)
    : errno + node :=
  match follow MAXSYMLINKS fs p with
  | inr (_, nd) => inr nd
  | inl e => inl e
  end.

Definition Lstat (name : list string) : io node :=
  ask (λ fs, lstat fs name).
Definition Stat (name : list string) : io node :=
  ask (λ fs, stat fs name).

Definition IsNotExist (e : errno) : bool :=
  match e with ENOENT => true | _ => false end.

(** The entries of the directory at the physical path [p]. *)
Definition children (fs : gmap (list string) node) (p : list string)
    : list (string * node) :=
  omap (λ kv, n ← child_of p kv.1; Some (n, kv.2)) (map_to_list fs).

(** [os.ReadDir]: the entries sorted by file name. *)
Definition ReadDir (name : list string) : io (list (string * node)) :=
  ask (λ fs, match follow MAXSYMLINKS fs name with
             | inr (q, Dir _) => inr (merge_sort entry_le (children fs q))
             | inr _ => inl ENOTDIR
             | inl e => inl e
             end).

(** Create [nd] at [p], where nothing may be and whose directory must be. *)
Definition create_at (p : list string) (nd : node) : io unit :=
  λ fs, match lstat fs p with
        | inr _ => (fs, inl (Error EEXIST))
        | inl e =>
            match p with
            | [] => (fs, inl (Error e))
            | _ =>
                match lstat fs (parent p) with
                | inr (Dir _) => (<[ p := nd ]> fs, inr tt)
                | inr _ => (fs, inl (Error ENOTDIR))
                | inl e' => (fs, inl (Error e'))
                end
            end
        end.

Definition Mkdir (name : list string) (perm : N) : io unit :=
  create_at name (Dir (N.ldiff perm umask)).

Definition Symlink (oldname newname : list string) : io unit :=
  create_at newname (Link oldname).

(** [os.MkdirAll] on the first [n] components of [name]: nothing to do for
    a directory, an error for another node, and otherwise the parent is
    made first (the root has none, and is not made for its entries). *)
Fixpoint MkdirAll_upto (n : nat) (name : list string) (perm : N) : io unit :=
  let path := take n name in
  r ← try (Stat path);
  match r with
  | inr nd => if IsDir nd then mret tt else throw (Error ENOTDIR)
  | inl _ =>
      match n with
      | O => mret tt
      | S O => mret tt
      | S n' => MkdirAll_upto n' name perm
      end;;
      r ← try (Mkdir path perm);
      match r with
      | inr _ => mret tt
      | inl err =>
          r1 ← try (Lstat path);
          match r1 with
          | inr nd => if IsDir nd then mret tt else throw (Error err)
          | inl _ => throw (Error err)
          end
      end
  end.

Definition MkdirAll (name : list string) (perm : N) : io unit :=
  MkdirAll_upto (length name) name perm.

(** [os.Remove]: a file, a link or an empty directory. *)
Definition Remove (name : list string) : io unit :=
  λ fs, match lstat fs name with
        | inl e => (fs, inl (Error e))
        | inr (Dir _) =>
            match name with
            | [] => (fs, inl (Error EBUSY))
            | _ =>
                match children fs name with
                | [] => (delete name fs, inr tt)
                | _ => (fs, inl (Error ENOTEMPTY))
                end
            end
        | inr _ => (delete name fs, inr tt)
        end.

(** [os.RemoveAll]: the node and everything below it; no error when there
    is nothing at [name].  The root itself cannot go. *)
Definition RemoveAll (name : list string) : io unit :=
  λ fs, match lstat fs name with
        | inl ENOENT => (fs, inr tt)
        | inl e => (fs, inl (Error e))
        | inr _ =>
            match name with
            | [] => (filter (λ kv, kv.1 = []) fs, inl (Error EBUSY))
            | _ => (filter (λ kv, ¬ name `prefix_of` kv.1) fs, inr tt)
            end
        end.

(** An open file is held by the physical path of its node. *)
Definition Open (name : list string) : io (list string) :=
  ask (λ fs, match follow MAXSYMLINKS fs name with
             | inr (q, _) => inr q
             | inl e => inl e
             end).

(** [os.Create]: truncate the file, or make it with mode [0666] (438) less
    the mask; a dangling link is followed to the file it names. *)
Fixpoint Create_follow (fuel : nat) (name : list string)
    : io (list string) :=
  λ fs, match lstat fs name with
        | inr (File m _) => (<[ name := File m EmptyString ]> fs, inr name)
        | inr (Dir _) => (fs, inl (Error EISDIR))
        | inr (Link target) =>
            match fuel with
            | O => (fs, inl (Error ELOOP))
            | S fuel' => Create_follow fuel' target fs
            end
        | inl ENOENT =>
            match create_at name (File (N.ldiff 438 umask) EmptyString) fs with
            | (fs', inr _) => (fs', inr name)
            | (fs', inl f) => (fs', inl f)
            end
        | inl e => (fs, inl (Error e))
        end.

Definition Create (name : list string) : io (list string) :=
  Create_follow MAXSYMLINKS name.

(** [io.Copy(out, in)] into a file just truncated. *)
Definition Copy (out in_ : list string) : io unit :=
  λ fs, match fs !! in_, fs !! out with
        | Some (File _ data), Some (File m _) =>
            (<[ out := File m data ]> fs, inr tt)
        | Some (Dir _), _ => (fs, inl (Error EISDIR))
        | _, _ => (fs, inl (Error ENOENT))
        end.

Definition Chmod (name : list string) (mode : N) : io unit :=
  λ fs, match follow MAXSYMLINKS fs name with
        | inr (q, File _ data) => (<[ q := File mode data ]> fs, inr tt)
        | inr (q, Dir _) => (<[ q := Dir mode ]> fs, inr tt)
        | inr (_, Link _) => (fs, inl (Error ELOOP))
        | inl e => (fs, inl (Error e))
        end.

End os.
End os.

(** ** [file-utils.go] *)

Section FileUtils.
Variable umask : N.

(** [CopyFile]: the deferred [Close] calls and [out.Sync] do not fail on
    this file system; every other step is a statement of the source. *)
Definition CopyFile (src dst : list string) : io unit :=
  in_ ← os.Open src;
  out ← os.Create umask dst;
  os.Copy out in_;;
  si ← os.Stat src;
  os.Chmod dst (Mode si).

(** [CopyDir].  [filepath.Clean] leaves a cleaned path as it is.  The
    recursion follows the directory tree found on the file system, so the
    embedding bounds its depth by [fuel].  [entry.Info()] asks the file
    system again; its error is dropped by the source, whose next line then
    dereferences nil. *)
Fixpoint CopyDir (fuel : nat) (src dst : list string) : io unit :=
  match fuel with
  | O => throw OutOfFuel
  | S fuel' =>
      si ← os.Stat src;
      if negb (IsDir si) then
        throw (Error (ErrorString "source is not a directory"))
      else
        r ← try (os.Stat dst);
        match r with
        | inl err =>
            if negb (os.IsNotExist err) then throw (Error err)
            else
              os.MkdirAll umask dst (Mode si);;
              entries ← os.ReadDir src;
              forEach entries (λ entry,
                let srcPath := filepath.Join src (os.Name entry) in
                let dstPath := filepath.Join dst (os.Name entry) in
                if IsDir entry.2 then CopyDir fuel' srcPath dstPath
                else
                  r ← try (os.Lstat srcPath);
                  match r with
                  | inl _ => throw NilDeref
                  | inr info =>
                      if IsSymlink info then mret tt
                      else CopyFile srcPath dstPath
                  end)
        | inr _ => throw (Error (ErrorString "destination already exists"))
        end
  end.

(** The loop of [ReadLastLine] with [pos = n - 1]: [ReadAt] fails at a
    negative offset and at or after the end of the file, and the function
    then returns the empty string and no error. *)
Fixpoint lastLineLoop (content : string) (n : nat) (firstByte : bool)
    (lastLine : string) : string :=
  match n with
  | O => EmptyString
  | S pos =>
      match String.get pos content with
      | None => EmptyString
      | Some byte =>
          let char := String byte EmptyString in
          if bool_decide (char = String "010" EmptyString) && firstByte then
            lastLineLoop content pos false lastLine
          else if bool_decide (char = String "010" EmptyString) then lastLine
          else lastLineLoop content pos firstByte (char +:+ lastLine)
      end
  end.

(** The bytes [ReadAt] finds behind an open file; none for a directory,
    from which every [ReadAt] fails. *)
Definition contents (fileHandle : list string) : io (option string) :=
  λ fs, match fs !! fileHandle with
        | Some (File _ content) => (fs, inr (Some content))
        | _ => (fs, inr None)
        end.

(** [ReadLastLine]: [pos] starts at [fileStat.Size() - 1]. *)
Definition ReadLastLine (filename : list string) : io string :=
  fileStat ← os.Stat filename;
  fileHandle ← os.Open filename;
  bytes ← contents fileHandle;
  match bytes with
  | Some content =>
      mret (lastLineLoop content (String.length content) true EmptyString)
  | None => mret EmptyString
  end.

End FileUtils.

(** ** The compatibility-data migration ([steam.go], lines 62-113)

    The three directories are absolute paths, given by their components.
    A fatal exit of [copyOldCompatDataToNew] carries the format string of
    its message. *)

Section Steam.
Variable umask : N.

Definition copyOldCompatDataToNew (fuel : nat) (configuration : Configuration)
    (oldCompatData newCompatData : list string) : io Configuration :=
  r ← try (CopyDir umask fuel oldCompatData newCompatData);
  match r with
  | inl _ => throw (LogFatal "Failed to copy compat data: %s")
  | inr _ =>
      r ← try (os.RemoveAll oldCompatData);
      match r with
      | inl _ => throw (LogFatal "Failed to delete old compat data: %s")
      | inr _ =>
          try (os.Symlink newCompatData oldCompatData);;
          mret (set_Environment
                  <[ "STEAM_COMPAT_DATA_PATH" := path_string newCompatData ]>
                  configuration)
      end
  end.

(** [os.IsNotExist(err)] on the error of a call, nil included. *)
Definition notExist {A} (r : errno + A) : bool :=
  match r with inl e => os.IsNotExist e | inr _ => false end.

(** [stats.IsDir()]: [stats] is nil when the call failed. *)
Definition statsIsDir (r : errno + node) : io bool :=
  match r with inr nd => mret (IsDir nd) | inl _ => throw NilDeref end.

Definition configureNewSteamCompatData (fuel : nat)
    (configuration : Configuration)
    (oldCompatData homeDir newCompatDataBase : list string)
    : io Configuration :=
  let newCompatData :=
    filepath.Join newCompatDataBase (map_get (props configuration) "name") in
  let compatDataBaseShortcut := filepath.Join homeDir ".compatdata" in
  r ← try (os.Lstat compatDataBaseShortcut);
  (if negb (notExist r) then try (os.Remove compatDataBaseShortcut);; mret tt
   else mret tt);;
  try (os.Symlink newCompatDataBase compatDataBaseShortcut);;
  oldStats ← try (os.Lstat oldCompatData);
  newStats ← try (os.Stat newCompatData);
  let withLink :=
    try (os.Symlink newCompatData oldCompatData);;
    mret (set_Environment
            <[ "STEAM_COMPAT_DATA_PATH" := path_string newCompatData ]>
            configuration) in
  c1 ← (if notExist newStats && negb (notExist oldStats)
        then statsIsDir oldStats else mret false);
  if (c1 : bool) then
    copyOldCompatDataToNew fuel configuration oldCompatData newCompatData
  else
    c2 ← (if negb (notExist newStats) && negb (notExist oldStats)
          then statsIsDir oldStats else mret false);
    if (c2 : bool) then try (os.RemoveAll oldCompatData);; withLink
    else try (os.Remove oldCompatData);; withLink.

End Steam.

(** ** More of [plauncher.go], [file-utils.go] and [steam.go]

    The functions below are the ones the launcher runs around flag parsing,
    merge, assembly and migration: the folders made at start
    ([makeSureFoldersExist]), the Steam application id read from the game's
    folder or from the launch arguments, the cached game name, and the
    override files saved on request. *)

(** [os.ReadFile] and [os.WriteFile] on the file system above. *)
Definition os_ReadFile (name : list string) : io string :=
  ask (λ fs, match os.follow os.MAXSYMLINKS fs name with
             | inr (_, File _ data) => inr data
             | inr (_, Dir _) => inl EISDIR
             | inr (_, Link _) => inl ELOOP
             | inl e => inl e
             end).

(** [os.WriteFile(name, data, perm)]: [OpenFile] with
    [O_WRONLY|O_CREATE|O_TRUNC], then the write: a file that exists keeps its
    mode, a missing one is made with [perm] less the mask, a link is
    followed. *)
Fixpoint WriteFile_follow (umask : N) (fuel : nat) (name : list string)
    (data : string) (perm : N) : io unit :=
  λ fs, match os.lstat fs name with
        | inr (File m _) => (<[ name := File m data ]> fs, inr tt)
        | inr (Dir _) => (fs, inl (Error EISDIR))
        | inr (Link target) =>
            match fuel with
            | O => (fs, inl (Error ELOOP))
            | S fuel' => WriteFile_follow umask fuel' target data perm fs
            end
        | inl ENOENT =>
            os.create_at name (File (N.ldiff perm umask) data) fs
        | inl e => (fs, inl (Error e))
        end.

Definition os_WriteFile (umask : N) (name : list string) (data : string)
    (perm : N) : io unit :=
  WriteFile_follow umask os.MAXSYMLINKS name data perm.

(** [makeSureFoldersExist] ([plauncher.go], lines 252-258); the error of
    [os.MkdirAll] is dropped by the source. *)
Definition makeSureFoldersExist (umask : N) (folders : list (list string))
    : io unit :=
  forEach folders (λ folder,
    r ← try (os.Stat folder);
    if notExist r
    then try (os.MkdirAll umask folder DEFAULT_PERMISSION);; mret tt
    else mret tt).

(** [stripUnecessaryData] ([plauncher.go], lines 640-645). *)
Definition stripUnecessaryData (configuration : Configuration)
    : Configuration :=
  let configuration :=
    set_Environment (delete "STEAM_COMPAT_DATA_PATH") configuration in
  let configuration := set_Environment (delete "MANGOHUD") configuration in
  let configuration :=
    set_Environment (delete "DISABLE_MANGOAPP") configuration in
  set_Environment (delete "MANGOHUD_CONFIGFILE") configuration.

Section Overrides.
Variable umask : N.
(** [yaml.Marshal] of a configuration. *)
Variable yaml_Marshal : Configuration → errno + string.

(** The body shared by [createNameOverrideFile] and [createIdOverrideFile]
    ([plauncher.go], lines 600-638), which differ in the property they read.
    The configuration is passed by value, but its [Environment] is a Go map
    shared with the caller: the result is the configuration as the caller
    sees it afterwards. *)
Definition createOverrideFile (key : string) (configuration : Configuration)
    (gameOverridesFolder : list string) : io Configuration :=
  match props configuration !! key with
  | Some name =>
      let overrideFile :=
        filepath.Join gameOverridesFolder (name +:+ ".yaml") in
      r ← try (os.Stat overrideFile);
      if notExist r then
        let configuration := stripUnecessaryData configuration in
        match yaml_Marshal configuration with
        | inl _ => throw (LogFatal "Failed to create configuration yaml: %s")
        | inr yamlData =>
            try (os_WriteFile umask overrideFile yamlData DEFAULT_PERMISSION);;
            mret configuration
        end
      else mret configuration
  | None => mret configuration
  end.

Definition createNameOverrideFile := createOverrideFile "name".
Definition createIdOverrideFile := createOverrideFile "id".

(** [processSpecialFlags] ([plauncher.go], lines 590-598). *)
Definition processSpecialFlags (specialFlags : gmap string bool)
    (configuration : Configuration) (gameOverridesFolder : list string)
    : io Configuration :=
  configuration ←
    (if bool_decide (is_Some (specialFlags !! "save-name"))
     then createNameOverrideFile configuration gameOverridesFolder
     else mret configuration);
  if bool_decide (is_Some (specialFlags !! "save-id"))
  then createIdOverrideFile configuration gameOverridesFolder
  else mret configuration.

End Overrides.

(** ** The regular expressions of [plauncher.go], lines 38-39

    Go's [regexp] returns the leftmost match, and among the matches that
    start there the one a backtracking search finds first.  The two
    expressions are made of literal text, a greedy repetition of a
    one-character class, alternation and capturing groups, and are matched
    on bytes: the classes are [.] and [[0-9]], and what follows [.+] starts
    with an ASCII byte, which never lies inside a longer character. *)
Module regexp.

Inductive Regexp :=
  | Lit (text : string)
  | Plus (class : ascii → bool)
  | Cat (r1 r2 : Regexp)
  | Alt (r1 r2 : Regexp)
  | Group (i : nat) (r : Regexp).

(** [.]: any character but a newline. *)
Definition anyChar (c : ascii) : bool := negb (bool_decide (c = "010"%char)).
(** [[0-9]]. *)
Definition digit (c : ascii) : bool :=
  ((48 <=? N_of_ascii c) && (N_of_ascii c <=? 57))%N.

(** The text of [s] up to where [rest], a suffix of [s], starts. *)
Definition consumed (s rest : string) : string :=
  String.substring 0 (String.length s - String.length rest) s.

(** The greedy repetition: as many characters as the class allows, then
    fewer, until the continuation [k] accepts. *)
Fixpoint star {R} (class : ascii → bool) (s : string)
    (k : string → option R) : option R :=
  match s with
  | String c rest =>
      if class c then
        match star class rest k with
        | Some x => Some x
        | None => k s
        end
      else k s
  | EmptyString => k s
  end.

(** A backtracking match of [r] at the start of [s]; [k] is given what is
    left of [s] and the groups matched so far. *)
Fixpoint matchHere {R} (r : Regexp) (s : string) (groups : gmap nat string)
    (k : string → gmap nat string → option R) : option R :=
  match r with
  | Lit text =>
      if strings.HasPrefix s text
      then k (string_drop (String.length text) s) groups else None
  | Plus class =>
      match s with
      | String c rest =>
          if class c then star class rest (λ s', k s' groups) else None
      | EmptyString => None
      end
  | Cat r1 r2 =>
      matchHere r1 s groups (λ s' groups', matchHere r2 s' groups' k)
  | Alt r1 r2 =>
      match matchHere r1 s groups k with
      | Some x => Some x
      | None => matchHere r2 s groups k
      end
  | Group i r' =>
      matchHere r' s groups
        (λ s' groups', k s' (<[ i := consumed s s' ]> groups'))
  end.

(** [FindStringSubmatch] for an expression with [n] groups: the whole match
    and the groups, or nil ([None]). *)
Fixpoint FindStringSubmatch (r : Regexp) (n : nat) (s : string)
    : option (list string) :=
  match matchHere r s ∅
          (λ s' groups,
             Some (consumed s s'
                   :: ((λ i, default EmptyString (groups !! i)) <$> seq 1 n)))
  with
  | Some m => Some m
  | None =>
      match s with
      | String _ rest => FindStringSubmatch r n rest
      | EmptyString => None
      end
  end.

End regexp.

(** [waitforexitandrun\ (\/.+(\.exe|\.bat))]. *)
Definition gameExeRegex : regexp.Regexp :=
  regexp.Cat (regexp.Lit "waitforexitandrun ")
    (regexp.Group 1
       (regexp.Cat (regexp.Lit "/")
          (regexp.Cat (regexp.Plus regexp.anyChar)
             (regexp.Group 2
                (regexp.Alt (regexp.Lit ".exe") (regexp.Lit ".bat")))))).

(** [AppId=([0-9]+)]. *)
Definition steamAppidRegex : regexp.Regexp :=
  regexp.Cat (regexp.Lit "AppId=") (regexp.Group 1 (regexp.Plus regexp.digit)).

(** ** The Steam application id and the game name ([steam.go], lines 14-60
    and 115-152)

    A fatal exit carries the format string of its message, without the
    newline that ends it. *)

Definition STEAMAPPID_FILENAME : string := "steam_appid.txt".

(** [filepath.Dir] of an absolute path: the text after the last slash is
    dropped and the rest is cleaned. *)
Definition filepath_Dir (path : string) : list string :=
  foldl filepath.step [] (removelast (strings.Split path "/"%char)).

(** What the program uses of Go's [bufio]. *)
Module bufio.

(** [bufio.MaxScanTokenSize]. *)
Definition MaxScanTokenSize : N := 65536%N.

(** [dropCR] of [bufio]. *)
Fixpoint dropCR (data : string) : string :=
  match data with
  | EmptyString => EmptyString
  | String c EmptyString =>
      if decide (c = "013"%char) then EmptyString else data
  | String c rest => String c (dropCR rest)
  end.

(** The tokens of a [bufio.Scanner] with [bufio.ScanLines], from the pieces
    of the input between its newlines: every piece but the last is a line,
    the last one is when it is not empty, and a line that does not fit the
    buffer ends the scan. *)
Fixpoint scanLines (pieces : list string) : list string :=
  match pieces with
  | [] => []
  | [piece] =>
      if decide (piece = EmptyString) then []
      else if (N.of_nat (String.length piece) <? MaxScanTokenSize)%N
           then [dropCR piece]
           else []
  | piece :: rest =>
      if (N.of_nat (String.length piece) <? MaxScanTokenSize)%N
      then dropCR piece :: scanLines rest
      else []
  end.

End bufio.

(** The two assignments in the loop over the lines of [steam_appid.txt]. *)
Definition setSteamAppId (configuration : Configuration) (text : string)
    : Configuration :=
  set_props <[ "id" := text ]>
    (set_props <[ "steam-appid" := text ]> configuration).

Definition enrichSteamAppIdByExe (configuration : Configuration)
    (nonFlagsArgsString : string) : io Configuration :=
  match props configuration !! "steam-appid" with
  | Some _ => mret configuration
  | None =>
      match regexp.FindStringSubmatch gameExeRegex 2 nonFlagsArgsString with
      | Some gameExeMatchResult =>
          let gameExec := default EmptyString (gameExeMatchResult !! 1%nat) in
          let gameFolder := filepath_Dir gameExec in
          let appIdFile := filepath.Join gameFolder STEAMAPPID_FILENAME in
          r ← try (os.Stat appIdFile);
          if negb (notExist r) then
            r ← try (os.Open appIdFile);
            match r with
            | inl _ => throw (LogFatal "Failed to open file: %s")
            | inr file =>
                bytes ← contents file;
                mret (foldl setSteamAppId configuration
                        (match bytes with
                         | Some content =>
                             bufio.scanLines (strings.Split content "010"%char)
                         | None => []
                         end))
            end
          else mret configuration
      | None => mret configuration
      end
  end.

Definition enrichSteamAppIdByArgs (configuration : Configuration)
    (nonFlagsArgsString : string) : Configuration :=
  match props configuration !! "steam-appid" with
  | Some _ => configuration
  | None =>
      match regexp.FindStringSubmatch steamAppidRegex 1 nonFlagsArgsString with
      | Some steamAppidRegexResult =>
          setSteamAppId configuration
            (default EmptyString (steamAppidRegexResult !! 1%nat))
      | None => configuration
      end
  end.

Section GameName.
Variable umask : N.
(** [http.Get(url)] and [io.ReadAll] of the body: the error of the request,
    or the error of the read, or the body. *)
Variable http_Get : string → errno + (errno + string).
(** [json.Unmarshal] of the body into a [BasicSteamSpyResponse]: its [Name],
    or the error. *)
Variable json_Name : string → errno + string.

Definition findSteamGameName (appid : string) (cacheFolder : list string)
    : io string :=
  let cacheFile := filepath.Join cacheFolder appid in
  r ← try (os_ReadFile cacheFile);
  if negb (notExist r) then
    mret (match r with inr appName => appName | inl _ => EmptyString end)
  else
    match http_Get ("https://steamspy.com/api.php?request=appdetails&appid="
                    +:+ appid) with
    | inl _ => throw (LogFatal "Could not fetch steam game name: %s")
    | inr (inl _) => throw (LogFatal "Could not read steamspy response: %s")
    | inr (inr body) =>
        match json_Name body with
        | inl _ =>
            throw (LogFatal "Steamspy response is not valid JSON: %s")
        | inr name =>
            r ← try (os_WriteFile umask cacheFile name DEFAULT_PERMISSION);
            match r with
            | inl _ => throw (LogFatal "Could not write cache file: %s")
            | inr _ => mret name
            end
        end
    end.

Definition enrichGameName (configuration : Configuration)
    (cacheFolder : list string) : io Configuration :=
  match props configuration !! "steam-appid" with
  | Some _ =>
      name ← findSteamGameName
               (map_get (props configuration) "steam-appid") cacheFolder;
      mret (set_props <[ "name" := name ]> configuration)
  | None => mret configuration
  end.

End GameName.

(** ** Statements of the specification

    The definitions below word properties the way the specification does;
    they are compared with the functions embedded above. *)

(** "Matching [--*], [-!*] or [-*]". *)
Definition flagPrefixed (arg : string) : bool :=
  strings.HasPrefix arg "--" || strings.HasPrefix arg "-!"
  || strings.HasPrefix arg "-".

(** "The first argument after the program name that does not start with a flag
    prefix" stands at index [i]. *)
Definition commandStart (args : list string) (i : nat) : Prop :=
  (1 ≤ i)%nat ∧
  (∃ arg, args !! i = Some arg ∧ flagPrefixed arg = false) ∧
  ∀ j arg, (1 ≤ j < i)%nat → args !! j = Some arg → flagPrefixed arg = true.

(** "[pat] is contained, in order, in [l]". *)
Fixpoint inOrder (pat l : list string) : bool :=
  match pat, l with
  | [], _ => true
  | _ :: _, [] => false
  | p :: pat', x :: l' =>
      if decide (p = x) then inOrder pat' l' else inOrder pat l'
  end.

(** "[merged] keeps the elements of [base] in their order and appends, after
    them, only the elements of [override] that [base] lacks": the appended
    elements come in the order of [override], each once. *)
Definition listUnion (base override merged : list string) : Prop :=
  ∃ extras : list string,
    merged = base ++ extras
    ∧ extras `sublist_of` override
    ∧ NoDup extras
    ∧ ∀ x, x ∈ extras ↔ x ∈ override ∧ x ∉ base.

(** "A scalar string of the override wins only when it is not empty". *)
Definition scalarWins (base override : string) : string :=
  if decide (override ≠ EmptyString) then override else base.

(** The precedence the specification gives for [GAMEID]: the [id] property if
    present and not empty, else the configured game id, else the name. *)
Definition claimedGameId (configuration : Configuration) : string :=
  match props configuration !! "id" with
  | Some id =>
      if decide (id ≠ EmptyString) then id
      else if decide (Umu_GameId (Umu configuration) ≠ EmptyString)
           then Umu_GameId (Umu configuration)
           else map_get (props configuration) "name"
  | None =>
      if decide (Umu_GameId (Umu configuration) ≠ EmptyString)
      then Umu_GameId (Umu configuration)
      else map_get (props configuration) "name"
  end.

(** The precedence the source has: the configured game id if not empty, else
    the [id] property if not empty, else a [GAMEID] entry the configuration
    already has if not empty, else the name. *)
Definition gameIdOf (configuration : Configuration) : string :=
  if decide (Umu_GameId (Umu configuration) ≠ EmptyString) then
    Umu_GameId (Umu configuration)
  else
    match props configuration !! "id" with
    | Some (String a id) => String a id
    | _ =>
        match Environment configuration !! "GAMEID" with
        | Some (String a id) => String a id
        | _ => map_get (props configuration) "name"
        end
    end.

(** A [strings.TrimSpace] for outputs made of one-byte characters. *)
Fixpoint trimLeft (s : string) : string :=
  match s with
  | String c r => if Ascii.is_space c then trimLeft r else s
  | EmptyString => EmptyString
  end.
Definition trimSpace (s : string) : string :=
  String.rev (trimLeft (String.rev (trimLeft s))).

(** [filepath.Join] of relative or absolute elements without [.], [..] or
    doubled slashes. *)
Definition joinPlain (elems : list string) : string :=
  strings.Join (filter (λ e, e ≠ EmptyString) elems) "/".

(** ** Vocabulary for the facts about the file system *)

Definition is_dir (fs : gmap (list string) node) (p : list string) : bool :=
  match fs !! p with Some (Dir _) => true | _ => false end.

(** A node other than the root has a file name and lies in a directory. *)
Definition wf_key (fs : gmap (list string) node) (k : list string) : bool :=
  match last k with
  | None => true
  | Some n => valid_name n && is_dir fs (parent k)
  end.

(** A well-formed file system: the root is a directory and every node is
    well placed. *)
Definition wf (fs : gmap (list string) node) : bool :=
  is_dir fs [] && forallb (λ kv, wf_key fs kv.1) (map_to_list fs).

(** The depth of the tree below [p]. *)
Definition height (fs : gmap (list string) node) (p : list string) : nat :=
  max_list ((λ kv, length kv.1 - length p)%nat
            <$> filter (λ kv, p `prefix_of` kv.1) (map_to_list fs)).

(** What [CopyDir] makes of a node: a directory with its mode less the mask
    ([MkdirAll]), a file with its mode and bytes ([CopyFile]), nothing of a
    link. *)
Definition copied (umask : N) (o : option node) : option node :=
  match o with
  | Some (Dir m) => Some (Dir (N.ldiff m umask))
  | Some (File m data) => Some (File m data)
  | _ => None
  end.

(** [fs'] is [fs] with the missing prefixes of [p] made [nd]. *)
Definition dirs_made (fs fs' : gmap (list string) node) (p : list string)
    (nd : node) : Prop :=
  ∀ k, fs' !! k
       = match fs !! k with
         | Some nd' => Some nd'
         | None => if bool_decide (k `prefix_of` p) then Some nd else None
         end.

(** When [CopyDir] can copy the directory [src], of mode [m], to [dst]:
    nothing is at [dst], the prefixes of [dst] that exist are directories,
    [dst] does not lie in [src], and the tree below [src] is less than [fuel]
    deep. *)
Definition copy_pre (fs : gmap (list string) node) (src dst : list string)
    (m : N) (fuel : nat) : Prop :=
  wf fs = true
  ∧ fs !! src = Some (Dir m)
  ∧ fs !! dst = None
  ∧ (∀ q, q `prefix_of` dst → fs !! q = None ∨ is_dir fs q = true)
  ∧ Forall (λ n, valid_name n = true) dst
  ∧ ¬ src `prefix_of` dst
  ∧ ∀ k, is_Some (fs !! k) → src `prefix_of` k →
         (length k < length src + fuel)%nat.

(** What [CopyDir] leaves: outside [dst] the nodes of [fs] and the missing
    prefixes of [dst] made directories; at [dst] and below, the copy of what
    is at [src] and below. *)
Definition copy_post (umask : N) (fs fs' : gmap (list string) node)
    (src dst : list string) (m : N) : Prop :=
  wf fs' = true
  ∧ (∀ k, ¬ dst `prefix_of` k →
          fs' !! k
          = match fs !! k with
            | Some nd => Some nd
            | None =>
                if bool_decide (k `prefix_of` dst)
                then Some (Dir (N.ldiff m umask)) else None
            end)
  ∧ ∀ r, fs' !! (dst ++ r) = copied umask (fs !! (src ++ r)).

(** The invariant of the loop of [CopyDir] over the entries of [src]: [fs] is
    the file system at the call, [fs1] the one [MkdirAll] left, and [done]
    holds the names of the entries already copied. *)
Definition copy_inv (umask : N) (fs fs1 : gmap (list string) node)
    (src dst : list string) (m : N) (done : list string)
    (fsc : gmap (list string) node) : Prop :=
  wf fsc = true
  ∧ (∀ k, ¬ dst `prefix_of` k → fsc !! k = fs1 !! k)
  ∧ fsc !! dst = Some (Dir (N.ldiff m umask))
  ∧ ∀ n r, fsc !! (dst ++ n :: r)
           = if bool_decide (n ∈ done)
             then copied umask (fs !! (src ++ n :: r)) else None.

(** [fs'] is [fs] with some directories added: every node of [fs] is in
    [fs'] as it was, and what [fs'] has more are directories. *)
Definition dirs_added (fs fs' : gmap (list string) node) : Prop :=
  ∀ k, fs' !! k = fs !! k ∨ (fs !! k = None ∧ is_dir fs' k = true).

(** Nothing but directories stands, or is missing, on the way to [p] and at
    [p] itself. *)
Definition way_clear (fs : gmap (list string) node) (p : list string) : Prop :=
  ∀ q, q `prefix_of` p → fs !! q = None ∨ is_dir fs q = true.

(** ** Vocabulary for the facts about the two regular expressions *)

(** Every character of [s] is of the class. *)
Fixpoint all_class (class : ascii → bool) (s : string) : bool :=
  match s with
  | EmptyString => true
  | String c rest => class c && all_class class rest
  end.

(** [s] starts with a character of the class. *)
Definition starts_with (class : ascii → bool) (s : string) : bool :=
  match s with
  | EmptyString => false
  | String c _ => class c
  end.

(** The text [AppId=] followed by a digit stands at the start of [s]. *)
Definition appIdAt (s : string) : bool :=
  strings.HasPrefix s "AppId="
  && starts_with regexp.digit (string_drop 6 s).

(** One of the two extensions stands at the start of [s]. *)
Definition extAt (s : string) : bool :=
  strings.HasPrefix s ".exe" || strings.HasPrefix s ".bat".

(** ** Hosts and configurations for the examples *)

Definition newline : string := String "010" EmptyString.

(** A host on which [which] finds the compositor and the runner only. *)
Definition exampleWhich (binName : string) : option string :=
  if decide (binName = "gamescope") then Some ("/usr/bin/gamescope" +:+ newline)
  else if decide (binName = "umu-run") then Some ("/usr/bin/umu-run" +:+ newline)
  else None.

(** Its file system, as far as the launcher asks: one directory. *)
Definition exampleStat (w : unit) (name : string) : stat_result :=
  if decide (name = "/opt/proton") then StatInfo true else StatNotExist.

(** The environment of a launch outside a compatibility session. *)
Definition exampleLookupEnv (key : string) : option string :=
  if decide (key = "HOME") then Some "/home/u" else None.

(** Compositor and HDR enabled, one extra argument. *)
Definition gamescopeExample : Configuration :=
  set_Gamescope (mkGamescope true true ["--foo"]) defaultConfiguration.

(** The runner enabled, with a configured game id, launched with
    [--name=Game --id=42]. *)
Definition umuExample : Configuration :=
  set_props (λ _, {[ "name" := "Game"; "id" := "42" ]})
    (set_Umu (mkUmu true "/opt/proton" "umu-123" "egs" []) defaultConfiguration).

(** The runner enabled, launched with [--name=]. *)
Definition emptyNameExample : Configuration :=
  set_props (λ _, {[ "name" := EmptyString ]})
    (set_Umu (mkUmu true "/opt/proton" EmptyString "egs" []) defaultConfiguration).

(** A prefix with a one-line [winetricks.log], as [winetricks] leaves it
    after one setting. *)
Definition logExample : gmap (list string) node :=
  list_to_map
    [ ([], Dir 493%N); (["pfx"], Dir 493%N);
      (["pfx"; "winetricks.log"], File 420%N ("sound=alsa" +:+ newline)) ].

(** A legacy compatibility-data directory [/steam/1] with a file, a link and
    a subdirectory, and no new directory yet. *)
Definition migrationExample : gmap (list string) node :=
  list_to_map
    [ ([], Dir 493%N); (["steam"], Dir 493%N); (["steam"; "1"], Dir 448%N);
      (["steam"; "1"; "version"], File 420%N "9.0");
      (["steam"; "1"; "lnk"], Link ["steam"]);
      (["steam"; "1"; "pfx"], Dir 488%N);
      (["steam"; "1"; "pfx"; "user.reg"], File 384%N "x=1");
      (["home"], Dir 493%N); (["data"], Dir 493%N) ].

(** Launched under a session, the name resolved to [Game]. *)
Definition sessionExample : Configuration :=
  set_props (λ _, {[ "name" := "Game"; "steam-appid" := "1"; "id" := "1" ]})
    defaultConfiguration.

(** Flags before the command, and a flag of the game's own after it. *)
Definition flagsExample : list string :=
  ["plauncher"; "-Gh"; "--name=Game"; "game.exe"; "-fullscreen"].

(** A host on which [which] finds every wrapper. *)
Definition wrappersWhich (binName : string) : option string :=
  Some ("/usr/bin/" +:+ binName +:+ newline).

(** Every wrapper enabled, launched with [--name=Game]. *)
Definition wrappersExample : Configuration :=
  mkConfiguration ∅ (mkWine true) (mkMangohud true) (mkGamemode true)
    (mkGamescope true true ["-W 1920"; "-f"]) (mkEos false)
    (mkUmu true "/opt/proton" EmptyString "egs" ["--verb"]) [] [] ∅
    {[ "name" := "Game" ]}.

(** The file system of [migrationExample] after the migration: the legacy
    path and the shortcut are links, the data is under the new directory. *)
Definition migratedExample : gmap (list string) node :=
  list_to_map
    [ ([], Dir 493%N); (["steam"], Dir 493%N);
      (["steam"; "1"], Link ["data"; "plauncher"; "compatdata"; "Game"]);
      (["home"], Dir 493%N);
      (["home"; ".compatdata"], Link ["data"; "plauncher"; "compatdata"]);
      (["data"], Dir 493%N); (["data"; "plauncher"], Dir 493%N);
      (["data"; "plauncher"; "compatdata"], Dir 493%N);
      (["data"; "plauncher"; "compatdata"; "Game"], Dir 448%N);
      (["data"; "plauncher"; "compatdata"; "Game"; "version"],
       File 420%N "9.0") ].

(** A legacy directory made anew by the store beside a new directory that
    is already there. *)
Definition bothExample : gmap (list string) node :=
  list_to_map
    [ ([], Dir 493%N); (["steam"], Dir 493%N); (["steam"; "1"], Dir 448%N);
      (["steam"; "1"; "version"], File 420%N "9.1");
      (["home"], Dir 493%N);
      (["data"], Dir 493%N); (["data"; "plauncher"], Dir 493%N);
      (["data"; "plauncher"; "compatdata"], Dir 493%N);
      (["data"; "plauncher"; "compatdata"; "Game"], Dir 448%N);
      (["data"; "plauncher"; "compatdata"; "Game"; "version"],
       File 420%N "9.0") ].

(** A game in its folder, with the application id beside it (the line ends
    with a carriage return and a newline), and the launcher's empty cache
    and overrides folders. *)
Definition gameExample : gmap (list string) node :=
  list_to_map
    [ ([], Dir 493%N); (["games"], Dir 493%N); (["games"; "G"], Dir 493%N);
      (["games"; "G"; "Game.exe"], File 493%N "MZ");
      (["games"; "G"; "steam_appid.txt"],
       File 420%N ("480" +:+ String "013" newline));
      (["cache"], Dir 493%N); (["overrides"], Dir 493%N) ].

(** The arguments of a launch from the store. *)
Definition launchExample : string :=
  "proton waitforexitandrun /games/G/Game.exe -windowed".


(** * Facts about the embedded functions *)

(** ** Strings *)

Lemma Split_no_sep (s : string) (sep : ascii) :
  strings.Contains s sep = false → strings.Split s sep = [s].
Proof.
  induction s as [|c r IH]; simpl; [done|].
  destruct (decide (c = sep)); [done|].
  intros H. by rewrite (IH H).
Qed.

Lemma Split_at_sep (s rest : string) (sep : ascii) :
  strings.Contains s sep = false →
  strings.Split (s +:+ String sep rest) sep = s :: strings.Split rest sep.
Proof.
  induction s as [|c r IH]; simpl.
  - intros _. by rewrite decide_True.
  - destruct (decide (c = sep)); [done|].
    intros H. by rewrite (IH H).
Qed.

Lemma Contains_at_sep (s rest : string) (sep : ascii) :
  strings.Contains (s +:+ String sep rest) sep = true.
Proof.
  induction s as [|c r IH]; simpl.
  - by rewrite decide_True.
  - by destruct (decide (c = sep)).
Qed.

Lemma Split_not_nil (s : string) (sep : ascii) : strings.Split s sep ≠ [].
Proof.
  destruct s as [|c r]; simpl; [done|].
  destruct (decide (c = sep)); [done|]. by destruct (strings.Split r sep).
Qed.

(** ** Flag parsing *)

Lemma parseDoubleDashParam_two_equals (c : Configuration)
    (key value rest : string) :
  strings.Contains key "=" = false →
  strings.Contains value "=" = false →
  parseDoubleDashParam c (key +:+ "=" +:+ value +:+ "=" +:+ rest)
  = set_props <[ key := value ]> c.
Proof.
  intros Hk Hv. unfold parseDoubleDashParam.
  change ("=" +:+ value +:+ "=" +:+ rest)
    with (String "=" (value +:+ String "=" rest)).
  rewrite Contains_at_sep, (Split_at_sep _ _ _ Hk), (Split_at_sep _ _ _ Hv).
  done.
Qed.

Lemma parseFlag_long (c : Configuration) (arg : string) :
  parseFlag c ("--" +:+ arg) = Some (parseDoubleDashParam c arg).
Proof. reflexivity. Qed.

(** C10: a long flag [--key=value=rest] stores only [value], the text between
    the first and the second [=], under [key]; the second [=] and what follows
    it are dropped, and nothing else of the configuration changes. *)
Theorem long_flag_value_ends_at_second_equals (c : Configuration)
    (key value rest : string) :
  strings.Contains key "=" = false →
  strings.Contains value "=" = false →
  parseFlag c ("--" +:+ key +:+ "=" +:+ value +:+ "=" +:+ rest)
  = Some (set_props <[ key := value ]> c)
  ∧ props (set_props <[ key := value ]> c) !! key = Some value.
Proof.
  intros Hk Hv. split.
  - rewrite <- (parseDoubleDashParam_two_equals c key value rest Hk Hv).
    apply parseFlag_long.
  - simpl. apply lookup_insert_eq.
Qed.

Lemma long_flag_value_ends_at_second_equals_witness :
  parseFlag defaultConfiguration "--a=b=c"
  = Some (set_props <[ "a" := "b" ]> defaultConfiguration)
  ∧ props (set_props <[ "a" := "b" ]> defaultConfiguration) !! "a" = Some "b".
Proof.
  exact (long_flag_value_ends_at_second_equals defaultConfiguration
           "a" "b" "c" eq_refl eq_refl).
Defined.

Lemma parseFlag_None (c : Configuration) (arg : string) :
  parseFlag c arg = None ↔ flagPrefixed arg = false.
Proof.
  unfold parseFlag, flagPrefixed.
  destruct (strings.HasPrefix arg "--"), (strings.HasPrefix arg "-!"),
    (strings.HasPrefix arg "-"); simpl; split; congruence.
Qed.

(** The loop started at an index other than 0 returns at the first argument
    that is no flag, and runs to the end when there is none. *)
Lemma argvLoop_spec (args : list string) :
  ∀ (i : nat) (c : Configuration), i ≠ 0%nat →
  match (argvLoop i args c).2 with
  | Some j =>
      (i ≤ j)%nat ∧
      (∃ arg, args !! (j - i)%nat = Some arg ∧ flagPrefixed arg = false) ∧
      ∀ k arg, (k < j - i)%nat → args !! k = Some arg → flagPrefixed arg = true
  | None => ∀ k arg, args !! k = Some arg → flagPrefixed arg = true
  end.
Proof.
  induction args as [|a args IH]; intros i c Hi; simpl.
  - intros k arg H. by rewrite lookup_nil in H.
  - rewrite decide_False by done.
    destruct (parseFlag c a) as [c'|] eqn:Hp.
    + assert (flagPrefixed a = true) as Ha.
      { destruct (flagPrefixed a) eqn:E; [done|].
        apply (parseFlag_None c) in E. congruence. }
      specialize (IH (S i) c' ltac:(lia)).
      destruct (argvLoop (S i) args c').2 as [j|].
      * destruct IH as (Hle & (arg & Harg & Hnf) & Hbefore).
        split; [lia|]. split.
        -- exists arg. split; [|done].
           replace (j - i)%nat with (S (j - S i)) by lia. done.
        -- intros k arg' Hk Hl. destruct k as [|k]; simpl in Hl.
           ++ congruence.
           ++ apply (Hbefore k); [lia|done].
      * intros k arg Hl. destruct k as [|k]; simpl in Hl; [congruence|eauto].
    + simpl. apply parseFlag_None in Hp.
      split; [lia|]. split.
      * exists a. by rewrite Nat.sub_diag.
      * intros k arg Hk. lia.
Qed.

Lemma argvLoop_from_zero (args : list string) (c : Configuration) :
  match (argvLoop 0 args c).2 with
  | Some j => commandStart args j
  | None => ∀ j, ¬ commandStart args j
  end.
Proof.
  destruct args as [|a0 args]; simpl.
  - intros j (_ & (arg & H & _) & _). by rewrite lookup_nil in H.
  - pose proof (argvLoop_spec args 1 c ltac:(done)) as H.
    destruct (argvLoop 1 args c).2 as [j|].
    + destruct H as (Hle & (arg & Harg & Hnf) & Hbefore).
      split; [done|]. split.
      * exists arg. split; [|done].
        replace j with (S (j - 1)) by lia. done.
      * intros k arg' [Hk1 Hk2] Hl. destruct k as [|k]; [lia|].
        simpl in Hl. apply (Hbefore k); [lia|done].
    + intros j (Hj & (arg & Harg & Hnf) & _).
      destruct j as [|j]; [lia|]. simpl in Harg.
      rewrite (H j arg Harg) in Hnf. done.
Qed.

Lemma commandStart_unique (args : list string) (i j : nat) :
  commandStart args i → commandStart args j → i = j.
Proof.
  intros (Hi & (a & Ha & Hna) & Hbi) (Hj & (b & Hb & Hnb) & Hbj).
  destruct (Nat.lt_trichotomy i j) as [Hlt|[->|Hlt]]; [|done|].
  - rewrite (Hbj i a) in Hna by (done || lia). done.
  - rewrite (Hbi j b) in Hnb by (done || lia). done.
Qed.

(** C4: for every argument vector, flag parsing returns index [i] and no error
    exactly when [i] is the index of the first argument after the program name
    that starts with none of [--], [-!] and [-]; it returns an error (with
    index -1) exactly when there is no such argument. *)
Theorem flag_parsing_command_start (c : Configuration) (args : list string) :
  let r := (enrichConfigurationWithArgvFlags c args).2 in
  (∀ i : nat, r = (Z.of_nat i, None) ↔ commandStart args i)
  ∧ (r.2 ≠ None ↔ ¬ ∃ i, commandStart args i)
  ∧ (r.2 ≠ None → r.1 = -1).
Proof.
  unfold enrichConfigurationWithArgvFlags.
  pose proof (argvLoop_from_zero args c) as H.
  destruct (argvLoop 0 args c) as [c' [j|]]; simpl in *.
  - split; [|split].
    + intros i. split.
      * intros [= Hij]. apply Nat2Z.inj in Hij. by subst.
      * intros Hi. by rewrite (commandStart_unique _ _ _ Hi H).
    + split; [done|]. intros Hno. destruct Hno. eauto.
    + done.
  - split; [|split].
    + intros i. split; [intros [= ?]; lia|]. intros Hi. by destruct (H i).
    + split; [|done]. intros _ [i Hi]. by destruct (H i).
    + done.
Qed.

(** ** Override merge *)

Lemma assignAll_union (current override : gmap string string) :
  assignAll current override = override ∪ current.
Proof.
  unfold assignAll.
  induction override as [|k v o Hk Hfold IH] using map_first_key_ind.
  - by rewrite map_fold_empty, (left_id_L ∅ (∪)).
  - rewrite map_fold_insert_first_key by done.
    by rewrite IH, insert_union_l.
Qed.

Lemma assignAll_lookup (current override : gmap string string) (k : string) :
  assignAll current override !! k
  = match override !! k with Some v => Some v | None => current !! k end.
Proof.
  rewrite assignAll_union, lookup_union.
  destruct (override !! k), (current !! k); done.
Qed.

Lemma assignAll_twice (current override : gmap string string) :
  assignAll (assignAll current override) override = assignAll current override.
Proof.
  apply map_eq. intros k. rewrite !assignAll_lookup.
  by destruct (override !! k).
Qed.

(** The merged list is the current list followed by the override elements it
    lacks, each once, in the order of the override list. *)
Lemma appendMissing_spec (override : list string) :
  ∀ current : list string,
  ∃ extras : list string,
    appendMissing current override = current ++ extras
    ∧ extras `sublist_of` override
    ∧ NoDup extras
    ∧ ∀ x, x ∈ extras ↔ x ∈ override ∧ x ∉ current.
Proof.
  unfold appendMissing, slices_Contains.
  induction override as [|x o IH]; intros current; simpl.
  - exists []. rewrite app_nil_r. split; [done|]. split; [done|].
    split; [constructor|]. intros y. set_solver.
  - case_bool_decide as Hx.
    + destruct (IH current) as (ex & -> & Hsub & Hnd & Hin).
      exists ex. split; [done|]. split; [by apply sublist_cons|].
      split; [done|]. intros y. rewrite Hin. set_solver.
    + destruct (IH (current ++ [x])) as (ex & -> & Hsub & Hnd & Hin).
      exists (x :: ex). split; [by rewrite <- app_assoc|].
      split; [by apply sublist_skip|]. split.
      * constructor; [|done]. rewrite Hin. set_solver.
      * intros y. rewrite elem_of_cons, Hin. split.
        -- intros [->|[Hy Hn]]; [set_solver|]. set_solver.
        -- intros [Hy Hn]. destruct (decide (y = x)) as [->|Hne]; [by left|].
           right. set_solver.
Qed.

Lemma appendMissing_absorbed (override current : list string) :
  (∀ x, x ∈ override → x ∈ current) →
  appendMissing current override = current.
Proof.
  intros Hall. destruct (appendMissing_spec override current)
    as (ex & -> & _ & _ & Hin).
  destruct ex as [|y ex]; [by rewrite app_nil_r|].
  destruct (Hin y) as [[Hy Hn] _]; [set_solver|]. destruct Hn. auto.
Qed.

Lemma appendMissing_covers (override current : list string) (x : string) :
  x ∈ override → x ∈ appendMissing current override.
Proof.
  intros Hx. destruct (appendMissing_spec override current)
    as (ex & -> & _ & _ & Hin).
  destruct (decide (x ∈ current)); [set_solver|].
  apply elem_of_app. right. apply Hin. done.
Qed.

Lemma appendMissing_twice (override current : list string) :
  appendMissing (appendMissing current override) override
  = appendMissing current override.
Proof. apply appendMissing_absorbed. intros x. apply appendMissing_covers. Qed.

Arguments assignAll : simpl never.
Arguments appendMissing : simpl never.

(** The merge, field by field. *)
Lemma applyConfigOverrides_fields (base override : Configuration) :
  applyConfigOverrides base override
  = mkConfiguration
      (assignAll (Environment base) (Environment override))
      (mkWine (Wine_Alsa (Wine override)))
      (mkMangohud (Mangohud_Enabled (Mangohud override)))
      (mkGamemode (Gamemode_Enabled (Gamemode override)))
      (mkGamescope (Gamescope_Enabled (Gamescope override))
         (Gamescope_Hdr (Gamescope override))
         (appendMissing (Gamescope_Args (Gamescope base))
            (Gamescope_Args (Gamescope override))))
      (mkEos (Eos_Enabled (EosOverlay override)))
      (mkUmu (Umu_Enabled (Umu override))
         (scalarWins (Umu_Proton (Umu base)) (Umu_Proton (Umu override)))
         (scalarWins (Umu_GameId (Umu base)) (Umu_GameId (Umu override)))
         (scalarWins (Umu_Store (Umu base)) (Umu_Store (Umu override)))
         (appendMissing (Umu_Args (Umu base)) (Umu_Args (Umu override))))
      (appendMissing (PreScripts base) (PreScripts override))
      (appendMissing (PostScripts base) (PostScripts override))
      (specialFlags base) (props base).
Proof.
  destruct base as [env w m g [gse gsh gsa] e [ue up ug us ua] pre post sf pr].
  destruct override
    as [env' w' m' g' [gse' gsh' gsa'] e' [ue' up' ug' us' ua'] pre' post' sf' pr'].
  unfold applyConfigOverrides, scalarWins. simpl.
  destruct (decide (up' ≠ EmptyString)), (decide (us' ≠ EmptyString)),
    (decide (ug' ≠ EmptyString)); reflexivity.
Qed.

Lemma scalarWins_twice (base override : string) :
  scalarWins (scalarWins base override) override = scalarWins base override.
Proof. unfold scalarWins. by case_decide. Qed.

(** C5: merging the same override a second time changes nothing: every list
    field, every scalar and boolean field and the environment are those of
    the first merge, so the second merge adds no duplicate entry. *)
Theorem applyConfigOverrides_idempotent (base override : Configuration) :
  applyConfigOverrides (applyConfigOverrides base override) override
  = applyConfigOverrides base override.
Proof.
  rewrite (applyConfigOverrides_fields (applyConfigOverrides base override)).
  rewrite (applyConfigOverrides_fields base override). simpl.
  by rewrite assignAll_twice, !appendMissing_twice, !scalarWins_twice.
Qed.

(** C6: each merged list field (gamescope arguments, umu arguments,
    pre-scripts, post-scripts) is the base list, its elements in their
    original order, followed only by override elements the base list lacks. *)
Theorem applyConfigOverrides_list_union (base override : Configuration) :
  let merged := applyConfigOverrides base override in
  listUnion (Gamescope_Args (Gamescope base)) (Gamescope_Args (Gamescope override))
    (Gamescope_Args (Gamescope merged))
  ∧ listUnion (Umu_Args (Umu base)) (Umu_Args (Umu override))
      (Umu_Args (Umu merged))
  ∧ listUnion (PreScripts base) (PreScripts override) (PreScripts merged)
  ∧ listUnion (PostScripts base) (PostScripts override) (PostScripts merged).
Proof.
  intros merged. subst merged. rewrite applyConfigOverrides_fields. simpl.
  repeat split; apply appendMissing_spec.
Qed.

(** C7: after a merge the seven boolean toggles are the override's; each of
    the three scalar strings is the override's when that is not empty and the
    base's otherwise; and an environment key has the override's value when
    the override has the key, the base's value otherwise. *)
Theorem applyConfigOverrides_scalars (base override : Configuration) :
  let merged := applyConfigOverrides base override in
  (Gamemode_Enabled (Gamemode merged) = Gamemode_Enabled (Gamemode override)
   ∧ Mangohud_Enabled (Mangohud merged) = Mangohud_Enabled (Mangohud override)
   ∧ Gamescope_Enabled (Gamescope merged) = Gamescope_Enabled (Gamescope override)
   ∧ Gamescope_Hdr (Gamescope merged) = Gamescope_Hdr (Gamescope override)
   ∧ Eos_Enabled (EosOverlay merged) = Eos_Enabled (EosOverlay override)
   ∧ Umu_Enabled (Umu merged) = Umu_Enabled (Umu override)
   ∧ Wine_Alsa (Wine merged) = Wine_Alsa (Wine override))
  ∧ (Umu_Proton (Umu merged)
       = scalarWins (Umu_Proton (Umu base)) (Umu_Proton (Umu override))
     ∧ Umu_Store (Umu merged)
       = scalarWins (Umu_Store (Umu base)) (Umu_Store (Umu override))
     ∧ Umu_GameId (Umu merged)
       = scalarWins (Umu_GameId (Umu base)) (Umu_GameId (Umu override)))
  ∧ ∀ key : string,
      Environment merged !! key
      = match Environment override !! key with
        | Some value => Some value
        | None => Environment base !! key
        end.
Proof.
  intros merged. subst merged. rewrite applyConfigOverrides_fields. simpl.
  repeat split. apply assignAll_lookup.
Qed.

(** ** Command assembly *)

Lemma Environment_set_Environment f c :
  Environment (set_Environment f c) = f (Environment c).
Proof. reflexivity. Qed.
Lemma props_set_Environment f c : props (set_Environment f c) = props c.
Proof. reflexivity. Qed.
Lemma Umu_set_Environment f c : Umu (set_Environment f c) = Umu c.
Proof. reflexivity. Qed.
Lemma Gamescope_set_Environment f c :
  Gamescope (set_Environment f c) = Gamescope c.
Proof. reflexivity. Qed.
Lemma Gamemode_set_Environment f c :
  Gamemode (set_Environment f c) = Gamemode c.
Proof. reflexivity. Qed.

Create Rewrite HintDb conf.
Hint Rewrite Environment_set_Environment props_set_Environment
  Umu_set_Environment Gamescope_set_Environment Gamemode_set_Environment
  : conf.

Lemma foldl_snoc_all (cur args : list string) :
  foldl (λ cmd arg, cmd ++ [arg]) cur args = cur ++ args.
Proof.
  revert cur. induction args as [|a args IH]; intros cur; simpl.
  - by rewrite app_nil_r.
  - by rewrite IH, <- app_assoc.
Qed.

Section HostFacts.
Context {W : Type}.
Variable which_output : string → option string.
Variable TrimSpace : string → string.
Variable filepath_Join : list string → string.
Variable LookupEnv : string → option string.
Variable os_Stat : W → string → stat_result.
Variable os_MkdirAll : string → N → W → W.

Local Abbreviation checkBin := (checkIfBinExists which_output TrimSpace).
Local Abbreviation gamescopeStage :=
  (enrichCommandWithGamescope which_output TrimSpace).
Local Abbreviation umuStage :=
  (enrichCommandWithUmu which_output TrimSpace filepath_Join LookupEnv
     os_Stat os_MkdirAll).
Local Abbreviation assemble :=
  (assembleCommand which_output TrimSpace filepath_Join LookupEnv
     os_Stat os_MkdirAll).

Lemma checkIfBinExists_found (binName stdout : string) :
  which_output binName = Some stdout → (checkBin binName).2 = true.
Proof. unfold checkIfBinExists. by intros ->. Qed.

Lemma checkIfBinExists_missing (binName : string) :
  which_output binName = None → checkBin binName = (EmptyString, false).
Proof. unfold checkIfBinExists. by intros ->. Qed.

(** The runner stage only appends to the command. *)
Lemma enrichCommandWithUmu_appends cur c base w command c' w' :
  umuStage cur c base w = Done (command, c', w') →
  ∃ mid, command = cur ++ mid.
Proof.
  unfold enrichCommandWithUmu.
  destruct (checkBin UMU_RUN_BIN_NAME) as [umuBin [|]].
  - destruct (_ && _).
    + destruct (props c !! "name"); [|done].
      destruct (os_Stat w _) as [[|]| |]; try done.
      intros [= <- _ _]. rewrite foldl_snoc_all, <- app_assoc. eauto.
    + intros [= <- _ _]. exists []. by rewrite app_nil_r.
  - intros [= <- _ _]. exists []. by rewrite app_nil_r.
Qed.

Lemma enrichCommandWithUmu_disabled cur c base w :
  Umu_Enabled (Umu c) = false → umuStage cur c base w = Done (cur, c, w).
Proof.
  intros Hd. unfold enrichCommandWithUmu. rewrite Hd, andb_false_r.
  by destruct (checkBin UMU_RUN_BIN_NAME) as [umuBin [|]].
Qed.

Lemma enrichCommandWithMangohud_keeps cur c dir :
  let r := enrichCommandWithMangohud which_output TrimSpace filepath_Join
             cur c dir in
  r.1 = cur ∧ Gamescope r.2 = Gamescope c ∧ Gamemode r.2 = Gamemode c
  ∧ Umu r.2 = Umu c.
Proof.
  unfold enrichCommandWithMangohud.
  destruct (checkBin MANGOHUD_BIN_NAME) as [? ?].
  by destruct (_ && _).
Qed.

(** What the compositor stage appends in the scenario of C1. *)
Lemma enrichCommandWithGamescope_hdr_foo cur c dir stdout :
  Gamescope_Enabled (Gamescope c) = true →
  Gamescope_Hdr (Gamescope c) = true →
  Gamescope_Args (Gamescope c) = ["--foo"] →
  which_output GAMESCOPE_BIN_NAME = Some stdout →
  (gamescopeStage cur c dir).1
  = cur ++ [(checkBin GAMESCOPE_BIN_NAME).1; "--foo"; "--hdr-enabled"; "--"]
  ∧ Umu (gamescopeStage cur c dir).2 = Umu c.
Proof.
  intros He Hh Ha Hw. unfold enrichCommandWithGamescope.
  pose proof (checkIfBinExists_found _ _ Hw) as Hex.
  destruct (checkBin GAMESCOPE_BIN_NAME) as [cmd ex]. simpl in Hex. subst ex.
  rewrite He, Hh, Ha. simpl. split; [|done].
  by rewrite <- !app_assoc.
Qed.

(** C1, as the source has it: with the compositor enabled, HDR enabled, the
    single extra argument [--foo] and the compositor binary found, the
    compositor stage appends the binary path, [--foo], [--hdr-enabled] and
    [--], in this order (the HDR token after the configured argument);
    every assembled command contains this block, followed by what the
    runner stage adds and then the game-launch tokens; and with the runner
    disabled the command is assembled and ends with the block and the
    game-launch tokens. *)
Theorem gamescope_stage_foo_then_hdr (c : Configuration)
    (userConfigDir compatDataBase stdout : string)
    (nonFlagArgs : list string) (w : W) :
  Gamescope_Enabled (Gamescope c) = true →
  Gamescope_Hdr (Gamescope c) = true →
  Gamescope_Args (Gamescope c) = ["--foo"] →
  which_output GAMESCOPE_BIN_NAME = Some stdout →
  let block :=
    [(checkBin GAMESCOPE_BIN_NAME).1; "--foo"; "--hdr-enabled"; "--"] in
  (∀ cur, (gamescopeStage cur c userConfigDir).1 = cur ++ block)
  ∧ (∀ command c' w',
       assemble c userConfigDir compatDataBase nonFlagArgs w
       = Done (command, c', w') →
       ∃ pre mid, command = pre ++ block ++ mid ++ nonFlagArgs)
  ∧ (Umu_Enabled (Umu c) = false →
     ∃ c',
       assemble c userConfigDir compatDataBase nonFlagArgs w
       = Done (enrichCommandWithGamemode which_output TrimSpace [] c
               ++ block ++ nonFlagArgs, c', w)).
Proof.
  intros He Hh Ha Hw block.
  assert (∀ cur c0 dir, Gamescope c0 = Gamescope c →
            (gamescopeStage cur c0 dir).1 = cur ++ block
            ∧ Umu (gamescopeStage cur c0 dir).2 = Umu c0) as Hstage.
  { intros cur c0 dir Hc0.
    apply (enrichCommandWithGamescope_hdr_foo cur c0 dir stdout);
      by rewrite ?Hc0. }
  split; [|split].
  - intros cur. by apply Hstage.
  - intros command c' w'. unfold assembleCommand.
    pose proof (enrichCommandWithMangohud_keeps [] c userConfigDir) as Hm.
    destruct (enrichCommandWithMangohud _ _ _ [] c userConfigDir)
      as [cmd0 c0]. simpl in Hm. destruct Hm as (-> & Hgs & Hgm & Hu).
    pose proof (Hstage (enrichCommandWithGamemode which_output TrimSpace [] c0)
                  c0 userConfigDir Hgs) as [Hcmd _].
    destruct (gamescopeStage _ c0 userConfigDir) as [cmd1 c1].
    simpl in Hcmd. subst cmd1.
    destruct (umuStage _ c1 compatDataBase w) as [[[cmd2 c2] w2]| |] eqn:Hu2;
      [|done..].
    intros [= <- _ _].
    destruct (enrichCommandWithUmu_appends _ _ _ _ _ _ _ Hu2) as [mid ->].
    exists (enrichCommandWithGamemode which_output TrimSpace [] c0), mid.
    by rewrite <- !app_assoc.
  - intros Hd. unfold assembleCommand.
    pose proof (enrichCommandWithMangohud_keeps [] c userConfigDir) as Hm.
    destruct (enrichCommandWithMangohud _ _ _ [] c userConfigDir)
      as [cmd0 c0]. simpl in Hm. destruct Hm as (-> & Hgs & Hgm & Hu).
    pose proof (Hstage (enrichCommandWithGamemode which_output TrimSpace [] c0)
                  c0 userConfigDir Hgs) as [Hcmd Hu1].
    destruct (gamescopeStage _ c0 userConfigDir) as [cmd1 c1].
    simpl in Hcmd, Hu1. subst cmd1.
    rewrite enrichCommandWithUmu_disabled by (by rewrite Hu1, Hu).
    exists c1. unfold enrichCommandWithGamemode. rewrite Hgm.
    by rewrite <- !app_assoc.
Qed.

Lemma setGameId_lookup (c : Configuration) :
  Environment (setGameId c) !! "GAMEID"
  = Some match props c !! "id" with
         | Some (String a id) => String a id
         | _ =>
             match Environment c !! "GAMEID" with
             | Some (String a id) => String a id
             | _ => map_get (props c) "name"
             end
         end
  ∧ Umu (setGameId c) = Umu c ∧ props (setGameId c) = props c.
Proof.
  unfold setGameId, map_get. cbv zeta.
  destruct (props c !! "id") as [[|a id]|] eqn:Hid.
  - rewrite decide_False by (by intros []).
    destruct (Environment c !! "GAMEID") as [[|b g]|] eqn:Hg.
    + rewrite decide_True by done. autorewrite with conf.
      by rewrite lookup_insert_eq.
    + rewrite decide_False by done. by rewrite Hg.
    + autorewrite with conf. by rewrite lookup_insert_eq.
  - rewrite decide_True by done. autorewrite with conf.
    rewrite lookup_insert_eq. rewrite decide_False by done.
    autorewrite with conf. by rewrite lookup_insert_eq.
  - destruct (Environment c !! "GAMEID") as [[|b g]|] eqn:Hg.
    + rewrite decide_True by done. autorewrite with conf.
      by rewrite lookup_insert_eq.
    + rewrite decide_False by done. by rewrite Hg.
    + autorewrite with conf. by rewrite lookup_insert_eq.
Qed.

(** What the runner stage does when it applies and nothing is fatal. *)
Lemma enrichCommandWithUmu_applies cur c base w stdout name :
  which_output UMU_RUN_BIN_NAME = Some stdout →
  LookupEnv "STEAM_COMPAT_DATA_PATH" = None →
  Umu_Enabled (Umu c) = true →
  props c !! "name" = Some name →
  os_Stat w (Umu_Proton (Umu c)) = StatInfo true →
  ∃ c',
    umuStage cur c base w
    = Done (cur ++ (checkBin UMU_RUN_BIN_NAME).1 :: Umu_Args (Umu c), c',
            os_MkdirAll (filepath_Join [filepath_Join [base; name]])
              DEFAULT_PERMISSION w)
    ∧ Environment c' !! "GAMEID" = Some (gameIdOf c).
Proof.
  intros Hw Henv Hen Hname Hstat. unfold enrichCommandWithUmu.
  pose proof (checkIfBinExists_found _ _ Hw) as Hex.
  destruct (checkBin UMU_RUN_BIN_NAME) as [umuBin ex]. simpl in Hex. subst ex.
  rewrite Henv, Hen, Hname, Hstat.
  change (negb (bool_decide (is_Some (@None string))) && true) with true.
  cbv iota zeta.
  destruct (setGameId_lookup c) as (Hid & Hu & Hp).
  unfold map_get, gameIdOf. rewrite Hname. autorewrite with conf.
  rewrite Hu. rewrite foldl_snoc_all, <- app_assoc.
  destruct (decide (Umu_GameId (Umu c) ≠ EmptyString));
    autorewrite with conf; rewrite ?Hu; eexists; (split; [reflexivity|]);
    autorewrite with conf.
  - rewrite lookup_insert_ne by done. rewrite lookup_insert_ne by done.
    by rewrite lookup_insert_eq.
  - rewrite lookup_insert_ne by done. rewrite lookup_insert_ne by done.
    rewrite lookup_insert_ne by done. exact Hid.
Qed.

(** C2, as the source has it: when the runner stage applies and goes
    through, the [GAMEID] it puts into the environment is the configured
    game id if that is not empty, otherwise the [id] property if present
    and not empty, otherwise a non-empty [GAMEID] entry the configuration
    already has, otherwise the name. *)
Theorem umu_stage_game_id_precedence (cur : list string) (c : Configuration)
    (base stdout name : string) (w : W) :
  which_output UMU_RUN_BIN_NAME = Some stdout →
  LookupEnv "STEAM_COMPAT_DATA_PATH" = None →
  Umu_Enabled (Umu c) = true →
  props c !! "name" = Some name →
  os_Stat w (Umu_Proton (Umu c)) = StatInfo true →
  ∃ command c' w',
    umuStage cur c base w = Done (command, c', w')
    ∧ Environment c' !! "GAMEID" = Some (gameIdOf c).
Proof.
  intros Hw Henv Hen Hname Hstat.
  destruct (enrichCommandWithUmu_applies cur c base w stdout name)
    as (c' & Hrun & Hid); try done.
  eauto.
Qed.

(** C9, as the source has it: when the runner stage applies, it ends the
    process with the message about the name exactly when the properties
    have no [name] entry; an entry with any value, the empty one included,
    lets a launch with a valid runner directory go through. *)
Theorem umu_stage_needs_name_entry (cur : list string) (c : Configuration)
    (base stdout : string) (w : W) :
  which_output UMU_RUN_BIN_NAME = Some stdout →
  LookupEnv "STEAM_COMPAT_DATA_PATH" = None →
  Umu_Enabled (Umu c) = true →
  (umuStage cur c base w
   = Fatal "Games outside steam need a name. Set with --name=$val"
   ↔ props c !! "name" = None)
  ∧ (∀ name, props c !! "name" = Some name →
       os_Stat w (Umu_Proton (Umu c)) = StatInfo true →
       ∃ command c' w', umuStage cur c base w = Done (command, c', w')).
Proof.
  intros Hw Henv Hen. split.
  - unfold enrichCommandWithUmu.
    pose proof (checkIfBinExists_found _ _ Hw) as Hex.
    destruct (checkBin UMU_RUN_BIN_NAME) as [umuBin ex]. simpl in Hex.
    subst ex. rewrite Henv, Hen.
    change (negb (bool_decide (is_Some (@None string))) && true) with true.
    cbv iota.
    destruct (props c !! "name") as [name|]; [|done].
    split; [|done].
    by destruct (os_Stat w _) as [[|]| |].
  - intros name Hname Hstat.
    destruct (enrichCommandWithUmu_applies cur c base w stdout name)
      as (c' & Hrun & Hid); try done.
    eauto.
Qed.

End HostFacts.

Lemma gamescope_stage_foo_then_hdr_witness :
  let block := ["/usr/bin/gamescope"; "--foo"; "--hdr-enabled"; "--"] in
  (∀ cur,
     (enrichCommandWithGamescope exampleWhich trimSpace cur gamescopeExample
        "/home/u/.config").1 = cur ++ block)
  ∧ (∀ command c' w',
       assembleCommand exampleWhich trimSpace joinPlain exampleLookupEnv
         exampleStat (λ _ _ w, w) gamescopeExample "/home/u/.config"
         "/home/u/.local/share/plauncher/compatdata" ["game.exe"] tt
       = Done (command, c', w') →
       ∃ pre mid, command = pre ++ block ++ mid ++ ["game.exe"])
  ∧ (Umu_Enabled (Umu gamescopeExample) = false →
     ∃ c',
       assembleCommand exampleWhich trimSpace joinPlain exampleLookupEnv
         exampleStat (λ _ _ w, w) gamescopeExample "/home/u/.config"
         "/home/u/.local/share/plauncher/compatdata" ["game.exe"] tt
       = Done (enrichCommandWithGamemode exampleWhich trimSpace [] gamescopeExample
               ++ block ++ ["game.exe"], c', tt)).
Proof.
  exact (gamescope_stage_foo_then_hdr exampleWhich trimSpace joinPlain
           exampleLookupEnv exampleStat (λ _ _ w, w) gamescopeExample
           "/home/u/.config" "/home/u/.local/share/plauncher/compatdata"
           ("/usr/bin/gamescope" +:+ newline) ["game.exe"] tt
           eq_refl eq_refl eq_refl eq_refl).
Defined.

(** C1 as the specification words it fails: the command assembled for the
    example holds [--foo] before [--hdr-enabled], so the claimed order is not
    contained in it. *)
Lemma gamescope_hdr_first_counterexample :
  ∃ c',
    assembleCommand exampleWhich trimSpace joinPlain exampleLookupEnv
      exampleStat (λ _ _ w, w) gamescopeExample "/home/u/.config"
      "/home/u/.local/share/plauncher/compatdata" ["game.exe"] tt
    = Done (["/usr/bin/gamescope"; "--foo"; "--hdr-enabled"; "--"; "game.exe"],
            c', tt)
    ∧ inOrder ["/usr/bin/gamescope"; "--hdr-enabled"; "--foo"; "--"; "game.exe"]
        ["/usr/bin/gamescope"; "--foo"; "--hdr-enabled"; "--"; "game.exe"]
      = false.
Proof. eexists. split; reflexivity. Qed.

Lemma umu_stage_game_id_precedence_witness :
  ∃ command c' w',
    enrichCommandWithUmu exampleWhich trimSpace joinPlain exampleLookupEnv
      exampleStat (λ _ _ w, w) [] umuExample
      "/home/u/.local/share/plauncher/compatdata" tt
    = Done (command, c', w')
    ∧ Environment c' !! "GAMEID" = Some (gameIdOf umuExample).
Proof.
  exact (umu_stage_game_id_precedence exampleWhich trimSpace joinPlain
           exampleLookupEnv exampleStat (λ _ _ w, w) [] umuExample
           "/home/u/.local/share/plauncher/compatdata"
           ("/usr/bin/umu-run" +:+ newline) "Game" tt
           eq_refl eq_refl eq_refl eq_refl eq_refl).
Defined.

(** C2 as the specification words it fails: launched with [--id=42] and a
    configured game id [umu-123], the stage sets [GAMEID] to [umu-123], while
    the claimed precedence gives [42]. *)
Lemma umu_game_id_counterexample :
  ∃ command c',
    enrichCommandWithUmu exampleWhich trimSpace joinPlain exampleLookupEnv
      exampleStat (λ _ _ w, w) [] umuExample
      "/home/u/.local/share/plauncher/compatdata" tt
    = Done (command, c', tt)
    ∧ Environment c' !! "GAMEID" = Some "umu-123"
    ∧ claimedGameId umuExample = "42"
    ∧ Environment c' !! "GAMEID" ≠ Some (claimedGameId umuExample).
Proof. do 2 eexists. split; [reflexivity|]. by vm_compute. Qed.

Lemma umu_stage_needs_name_entry_witness :
  (enrichCommandWithUmu exampleWhich trimSpace joinPlain exampleLookupEnv
     exampleStat (λ _ _ w, w) [] emptyNameExample
     "/home/u/.local/share/plauncher/compatdata" tt
   = Fatal "Games outside steam need a name. Set with --name=$val"
   ↔ props emptyNameExample !! "name" = None)
  ∧ (∀ name, props emptyNameExample !! "name" = Some name →
       exampleStat tt (Umu_Proton (Umu emptyNameExample)) = StatInfo true →
       ∃ command c' w',
         enrichCommandWithUmu exampleWhich trimSpace joinPlain exampleLookupEnv
           exampleStat (λ _ _ w, w) [] emptyNameExample
           "/home/u/.local/share/plauncher/compatdata" tt
         = Done (command, c', w')).
Proof.
  exact (umu_stage_needs_name_entry exampleWhich trimSpace joinPlain
           exampleLookupEnv exampleStat (λ _ _ w, w) [] emptyNameExample
           "/home/u/.local/share/plauncher/compatdata"
           ("/usr/bin/umu-run" +:+ newline) tt eq_refl eq_refl eq_refl).
Defined.

(** C9 as the specification words it fails: launched with [--name=], the
    properties hold no non-empty name, and the runner stage, which applies,
    does not end the process: it returns the command. *)
Lemma umu_empty_name_counterexample :
  props emptyNameExample !! "name" = Some EmptyString
  ∧ exampleWhich UMU_RUN_BIN_NAME = Some ("/usr/bin/umu-run" +:+ newline)
  ∧ exampleLookupEnv "STEAM_COMPAT_DATA_PATH" = None
  ∧ Umu_Enabled (Umu emptyNameExample) = true
  ∧ ∃ c',
      enrichCommandWithUmu exampleWhich trimSpace joinPlain exampleLookupEnv
        exampleStat (λ _ _ w, w) [] emptyNameExample
        "/home/u/.local/share/plauncher/compatdata" tt
      = Done (["/usr/bin/umu-run"], c', tt).
Proof. repeat split. eexists. reflexivity. Qed.

(** ** The tail-line reader *)

(** As long as the bytes before position [n] hold no newline, the loop runs
    down to the start of the file, where [ReadAt] fails and the function
    returns the empty string: the bytes collected so far are dropped. *)
Lemma lastLineLoop_no_newline (content : string) (n : nat) :
  ∀ (firstByte : bool) (lastLine : string),
  (∀ i b, (i < n)%nat → String.get i content = Some b → b ≠ "010"%char) →
  lastLineLoop content n firstByte lastLine = EmptyString.
Proof.
  induction n as [|pos IH]; intros firstByte lastLine Hno; simpl; [done|].
  destruct (String.get pos content) as [b|] eqn:Hb; [|done].
  assert (b ≠ "010"%char) as Hne by (apply (Hno pos); [lia|done]).
  rewrite bool_decide_eq_false_2 by congruence. simpl.
  apply IH. intros i b' Hi. apply Hno. lia.
Qed.

Lemma string_app_cons (c : ascii) (r s : string) :
  String c r +:+ s = String c (r +:+ s).
Proof. reflexivity. Qed.

Lemma get_app_r (s1 s2 : string) (n : nat) :
  String.get (String.length s1 + n) (s1 +:+ s2) = String.get n s2.
Proof. by rewrite Nat.add_comm, <- String.append_correct2. Qed.

Lemma get_at_length (s r : string) (c : ascii) :
  String.get (String.length s) (s +:+ String c r) = Some c.
Proof.
  rewrite <- (Nat.add_0_r (String.length s)) at 1. by rewrite get_app_r.
Qed.

Lemma get_app_l (s1 s2 : string) (n : nat) :
  (n < String.length s1)%nat → String.get n (s1 +:+ s2) = String.get n s1.
Proof. intros H. by rewrite <- String.append_correct1. Qed.

Lemma get_no_newline (s : string) (i : nat) (b : ascii) :
  strings.Contains s "010" = false → String.get i s = Some b → b ≠ "010"%char.
Proof.
  revert i. induction s as [|c r IH]; intros i; simpl; [done|].
  destruct (decide (c = "010"%char)); [done|].
  intros Hr. destruct i as [|i]; [congruence|]. by apply IH.
Qed.

Lemma string_length_app (s1 s2 : string) :
  String.length (s1 +:+ s2) = (String.length s1 + String.length s2)%nat.
Proof.
  induction s1 as [|c r IH]; [done|].
  rewrite string_app_cons. simpl. by rewrite IH.
Qed.

(** A file of one line ended by a newline: the result is the empty string,
    whatever the line. *)
Lemma lastLineLoop_single_line (line : string) :
  strings.Contains line "010" = false →
  lastLineLoop (line +:+ newline) (String.length (line +:+ newline)) true
    EmptyString
  = EmptyString.
Proof.
  intros Hline. rewrite string_length_app. simpl String.length.
  rewrite Nat.add_1_r. simpl.
  unfold newline at 1. rewrite get_at_length. simpl.
  apply lastLineLoop_no_newline.
  intros i b Hi. rewrite get_app_l by done. by apply get_no_newline.
Qed.

(** The bytes of [s] before position [n]. *)
Lemma substring_snoc (s : string) (n : nat) (b : ascii) :
  String.get n s = Some b →
  String.substring 0 (S n) s
  = String.substring 0 n s +:+ String b EmptyString.
Proof.
  revert n. induction s as [|c r IH]; intros n; simpl; [done|].
  destruct n as [|n]; simpl.
  - intros [= ->]. by destruct r.
  - intros H. by rewrite (IH n H).
Qed.

Lemma substring_all (s : string) :
  String.substring 0 (String.length s) s = s.
Proof. induction s as [|c r IH]; simpl; [done|]. by rewrite IH. Qed.

Lemma get_Some_lt (s : string) (n : nat) :
  (n < String.length s)%nat → ∃ b, String.get n s = Some b.
Proof.
  revert n. induction s as [|c r IH]; intros n; simpl; [lia|].
  destruct n as [|n]; [eauto|]. intros H. apply IH. lia.
Qed.

Lemma app_assoc_string (s1 s2 s3 : string) :
  (s1 +:+ s2) +:+ s3 = s1 +:+ s2 +:+ s3.
Proof.
  induction s1 as [|c r IH]; [done|]. by rewrite !string_app_cons, IH.
Qed.

(** When a newline stands before the last line, the loop collects the line
    and stops at that newline. *)
Lemma lastLineLoop_collects (pre line rest : string) :
  strings.Contains line "010" = false →
  ∀ (j : nat) (lastLine : string), (j ≤ String.length line)%nat →
  lastLineLoop (pre +:+ newline +:+ line +:+ rest)
    (String.length pre + 1 + j) false lastLine
  = String.substring 0 j line +:+ lastLine.
Proof.
  intros Hline. induction j as [|j IH]; intros lastLine Hj.
  - rewrite Nat.add_0_r, Nat.add_1_r. simpl.
    rewrite <- (Nat.add_0_r (String.length pre)), get_app_r. simpl.
    by destruct line.
  - rewrite Nat.add_succ_r. simpl.
    replace (String.length pre + 1 + j)%nat
      with (String.length (pre +:+ newline) + j)%nat
      by (rewrite string_length_app; simpl; lia).
    rewrite <- (app_assoc_string pre newline), get_app_r.
    destruct (get_Some_lt line j ltac:(lia)) as [b Hb].
    rewrite get_app_l, Hb by lia.
    rewrite bool_decide_eq_false_2
      by (pose proof (get_no_newline _ _ _ Hline Hb); congruence).
    simpl. rewrite app_assoc_string.
    replace (String.length (pre +:+ newline) + j)%nat
      with (String.length pre + 1 + j)%nat
      by (rewrite string_length_app; simpl; lia).
    rewrite IH by lia. rewrite (substring_snoc _ _ _ Hb).
    by rewrite app_assoc_string.
Qed.

(** A file of at least two lines that ends with a newline: the result is the
    line before that newline. *)
Lemma lastLineLoop_after_newline (pre line : string) :
  strings.Contains line "010" = false →
  let content := pre +:+ newline +:+ line +:+ newline in
  lastLineLoop content (String.length content) true EmptyString = line.
Proof.
  intros Hline content.
  assert (String.length content
          = S (String.length pre + 1 + String.length line)) as ->.
  { unfold content. rewrite !string_length_app. simpl. lia. }
  assert (String.get (String.length pre + 1 + String.length line) content
          = Some "010"%char) as Hget.
  { unfold content.
    replace (String.length pre + 1 + String.length line)%nat
      with (String.length (pre +:+ newline +:+ line))
      by (rewrite !string_length_app; simpl; lia).
    rewrite <- (app_assoc_string newline line newline).
    rewrite <- (app_assoc_string pre (newline +:+ line) newline).
    apply get_at_length. }
  simpl. rewrite Hget. simpl.
  unfold content. rewrite lastLineLoop_collects by done.
  rewrite substring_all. clear. induction line as [|c r IH]; [done|].
  by rewrite string_app_cons, IH.
Qed.

(** C3 fails on the source: the log of the example ends with a newline and
    its only line is [sound=alsa], yet [ReadLastLine] returns the empty
    string and no error. *)
Theorem ReadLastLine_single_line_file :
  ReadLastLine ["pfx"; "winetricks.log"] logExample
  = (logExample, inr EmptyString)
  ∧ logExample !! ["pfx"; "winetricks.log"]
    = Some (File 420%N ("sound=alsa" +:+ newline)).
Proof. split; reflexivity. Qed.

(** ** The file system *)

Local Open Scope nat_scope.

(** *** Paths *)

Lemma parent_snoc (p : list string) (n : string) : parent (p ++ [n]) = p.
Proof.
  unfold parent. rewrite length_app. simpl.
  rewrite Nat.add_1_r. simpl. apply take_app_length.
Qed.

Lemma snoc_parent (k : list string) (n : string) :
  last k = Some n → k = parent k ++ [n].
Proof. intros [k' ->]%last_Some. by rewrite parent_snoc. Qed.

Lemma child_of_Some (p k : list string) (n : string) :
  child_of p k = Some n ↔ k = p ++ [n].
Proof.
  unfold child_of. split.
  - destruct (last k) as [n'|]; [|done].
    case_decide; [|done]. by intros [= <-].
  - intros ->. rewrite last_snoc. by rewrite decide_True.
Qed.

Lemma prefix_snoc_inv (p q : list string) (n : string) :
  p `prefix_of` q ++ [n] → p `prefix_of` q ∨ p = q ++ [n].
Proof.
  intros [r Hr]. destruct r as [|x r _] using rev_ind.
  - right. by rewrite app_nil_r in Hr.
  - left. rewrite app_assoc in Hr. apply app_inj_tail in Hr as [-> _].
    by apply prefix_app_r.
Qed.

Lemma prefix_take_length (p q : list string) :
  p `prefix_of` q → p = take (length p) q.
Proof. intros [r ->]. by rewrite take_app_length. Qed.

Lemma prefix_strict_parent (q k : list string) :
  q `prefix_of` k → q ≠ k → q `prefix_of` parent k.
Proof.
  intros Hpre Hne. destruct k as [|x k _] using rev_ind.
  - apply prefix_nil_inv in Hpre. done.
  - rewrite parent_snoc. by destruct (prefix_snoc_inv _ _ _ Hpre).
Qed.

Lemma prefix_same_length (p q k : list string) :
  p `prefix_of` k → q `prefix_of` k → length p ≤ length q → p `prefix_of` q.
Proof.
  intros Hp Hq Hlen. destruct (prefix_weak_total _ _ _ Hp Hq) as [H|H]; [done|].
  pose proof (prefix_length _ _ H).
  assert (q = p) as -> by (apply prefix_length_eq; [done|lia]). done.
Qed.

(** *** Well-formed file systems *)

Lemma is_dir_Some (fs : gmap (list string) node) (p : list string) :
  is_dir fs p = true ↔ ∃ m, fs !! p = Some (Dir m).
Proof.
  unfold is_dir. destruct (fs !! p) as [[| |]|]; split; try done; eauto;
    by intros [? [=]].
Qed.

Lemma wf_root (fs : gmap (list string) node) : wf fs = true → is_dir fs [] = true.
Proof. unfold wf. by intros [? _]%andb_true_iff. Qed.

Lemma wf_lookup (fs : gmap (list string) node) (k : list string) (nd : node) :
  wf fs = true → fs !! k = Some nd → wf_key fs k = true.
Proof.
  unfold wf. intros [_ Hall]%andb_true_iff Hk.
  rewrite forallb_forall in Hall.
  apply (Hall (k, nd)). apply list_elem_of_In. by apply elem_of_map_to_list.
Qed.

Lemma wf_intro (fs : gmap (list string) node) :
  is_dir fs [] = true →
  (∀ k nd, fs !! k = Some nd → wf_key fs k = true) →
  wf fs = true.
Proof.
  intros Hroot Hall. unfold wf. rewrite Hroot. simpl.
  apply forallb_forall. intros [k nd] Hin.
  apply list_elem_of_In, elem_of_map_to_list in Hin. eauto.
Qed.

Lemma wf_parent (fs : gmap (list string) node) (p : list string) (n : string)
    (nd : node) :
  wf fs = true → fs !! (p ++ [n]) = Some nd →
  is_dir fs p = true ∧ valid_name n = true.
Proof.
  intros Hwf Hk. pose proof (wf_lookup _ _ _ Hwf Hk) as H.
  unfold wf_key in H. rewrite last_snoc, parent_snoc in H.
  by apply andb_true_iff in H as [? ?].
Qed.

(** Every proper prefix of a node is a directory. *)
Lemma wf_prefix (fs : gmap (list string) node) (k q : list string) (nd : node) :
  wf fs = true → fs !! k = Some nd → q `prefix_of` k → q ≠ k →
  is_dir fs q = true.
Proof.
  intros Hwf. revert nd. induction k as [|n k IH] using rev_ind;
    intros nd Hk Hpre Hne.
  - apply prefix_nil_inv in Hpre. done.
  - destruct (wf_parent _ _ _ _ Hwf Hk) as [Hdir _].
    destruct (prefix_snoc_inv _ _ _ Hpre) as [Hq|Hq]; [|done].
    destruct (decide (q = k)) as [->|Hqk]; [done|].
    apply is_dir_Some in Hdir as [m Hm]. by apply (IH (Dir m)).
Qed.

Lemma wf_names (fs : gmap (list string) node) (k : list string) (nd : node) :
  wf fs = true → fs !! k = Some nd → Forall (λ n, valid_name n = true) k.
Proof.
  intros Hwf. revert nd. induction k as [|n k IH] using rev_ind; intros nd Hk.
  - constructor.
  - destruct (wf_parent _ _ _ _ Hwf Hk) as [Hdir Hn].
    apply is_dir_Some in Hdir as [m Hm].
    apply Forall_app. split; [by apply (IH (Dir m))|]. by constructor.
Qed.

(** Below a node that is missing, or is no directory, there is nothing. *)
Lemma wf_below (fs : gmap (list string) node) (p k : list string) :
  wf fs = true → is_dir fs p = false → p `prefix_of` k → p ≠ k →
  fs !! k = None.
Proof.
  intros Hwf Hp Hpre Hne. destruct (fs !! k) as [nd|] eqn:Hk; [|done].
  rewrite (wf_prefix _ _ _ _ Hwf Hk Hpre Hne) in Hp. done.
Qed.

Lemma wf_insert (fs : gmap (list string) node) (p : list string) (n : string)
    (nd : node) :
  wf fs = true → is_dir fs p = true → valid_name n = true →
  (is_dir fs (p ++ [n]) = true → IsDir nd = true) →
  wf (<[ p ++ [n] := nd ]> fs) = true.
Proof.
  intros Hwf Hp Hn Hkind.
  assert (∀ q, is_dir fs q = true → is_dir (<[ p ++ [n] := nd ]> fs) q = true)
    as Hmono.
  { intros q Hq. unfold is_dir. destruct (decide (q = p ++ [n])) as [->|Hne].
    - rewrite lookup_insert_eq. specialize (Hkind Hq). by destruct nd.
    - by rewrite lookup_insert_ne. }
  apply wf_intro; [apply Hmono, (wf_root _ Hwf)|].
  intros k nd' Hk. unfold wf_key.
  destruct (decide (k = p ++ [n])) as [->|Hne].
  - rewrite last_snoc, parent_snoc, Hn. simpl. by apply Hmono.
  - rewrite lookup_insert_ne in Hk by done.
    pose proof (wf_lookup _ _ _ Hwf Hk) as H. unfold wf_key in H.
    destruct (last k); [|done].
    apply andb_true_iff in H as [-> H]. simpl. by apply Hmono.
Qed.

(** *** [lstat] *)

Lemma walk_chain (fs : gmap (list string) node) (rest : list string) :
  ∀ cur : list string,
  (∀ i, (i < length rest)%nat → is_dir fs (cur ++ take i rest) = true) →
  os.walk fs cur rest
  = match fs !! (cur ++ rest) with Some nd => inr nd | None => inl ENOENT end.
Proof.
  induction rest as [|n rest IH]; intros cur Hchain; simpl.
  - rewrite app_nil_r. by destruct (fs !! cur).
  - pose proof (Hchain 0%nat ltac:(simpl; lia)) as H0.
    simpl in H0. rewrite app_nil_r in H0.
    apply is_dir_Some in H0 as [m ->].
    rewrite IH.
    + by rewrite <- app_assoc.
    + intros i Hi. rewrite <- app_assoc. apply (Hchain (S i)). simpl. lia.
Qed.

Lemma walk_agree (fs fs' : gmap (list string) node) (rest : list string) :
  ∀ cur : list string,
  (∀ i, (i ≤ length rest)%nat →
        fs' !! (cur ++ take i rest) = fs !! (cur ++ take i rest)) →
  os.walk fs' cur rest = os.walk fs cur rest.
Proof.
  induction rest as [|n rest IH]; intros cur Hag; simpl.
  - pose proof (Hag 0%nat ltac:(done)) as H0. simpl in H0.
    rewrite app_nil_r in H0. by rewrite H0.
  - pose proof (Hag 0%nat ltac:(lia)) as H0. simpl in H0.
    rewrite app_nil_r in H0. rewrite H0.
    destruct (fs !! cur) as [[m| |]|]; try done.
    apply IH. intros i Hi. rewrite <- app_assoc. apply (Hag (S i)). simpl. lia.
Qed.

Lemma lstat_agree (fs fs' : gmap (list string) node) (p : list string) :
  (∀ q, q `prefix_of` p → fs' !! q = fs !! q) →
  os.lstat fs' p = os.lstat fs p.
Proof.
  intros Hag. apply walk_agree. intros i _. simpl. apply Hag, prefix_take.
Qed.

Lemma lstat_Some (fs : gmap (list string) node) (p : list string) (nd : node) :
  wf fs = true → fs !! p = Some nd → os.lstat fs p = inr nd.
Proof.
  intros Hwf Hp. unfold os.lstat. rewrite walk_chain; simpl; [by rewrite Hp|].
  intros i Hi. apply (wf_prefix _ _ _ _ Hwf Hp (prefix_take _ _)).
  intros Heq. apply (f_equal length) in Heq. rewrite length_take in Heq. lia.
Qed.

(** A missing node in a directory. *)
Lemma lstat_new (fs : gmap (list string) node) (p : list string) (n : string) :
  wf fs = true → is_dir fs p = true → fs !! (p ++ [n]) = None →
  os.lstat fs (p ++ [n]) = inl ENOENT.
Proof.
  intros Hwf Hdir Hp. unfold os.lstat. rewrite walk_chain; simpl; [by rewrite Hp|].
  intros i Hi. rewrite length_app in Hi. simpl in Hi.
  rewrite take_app_le by lia.
  destruct (decide (i = length p)) as [->|Hne].
  - by rewrite firstn_all.
  - apply is_dir_Some in Hdir as [m Hm].
    apply (wf_prefix _ _ _ _ Hwf Hm (prefix_take _ _)).
    intros Heq. apply (f_equal length) in Heq. rewrite length_take in Heq. lia.
Qed.

Lemma walk_inr (fs : gmap (list string) node) (rest : list string) :
  ∀ (cur : list string) (nd : node),
  os.walk fs cur rest = inr nd → fs !! (cur ++ rest) = Some nd.
Proof.
  induction rest as [|n rest IH]; intros cur nd; simpl.
  - rewrite app_nil_r. destruct (fs !! cur); [|done]. by intros [= ->].
  - destruct (fs !! cur) as [[m| |]|]; try done.
    intros H. apply IH in H. by rewrite <- app_assoc in H.
Qed.

Lemma lstat_inr (fs : gmap (list string) node) (p : list string) (nd : node) :
  os.lstat fs p = inr nd → fs !! p = Some nd.
Proof. apply walk_inr. Qed.

(** [ENOENT]: every prefix of the path is a directory or missing, and the
    path itself is missing. *)
Lemma walk_ENOENT (fs : gmap (list string) node) (rest : list string) :
  ∀ cur : list string,
  os.walk fs cur rest = inl ENOENT →
  ∃ i, (i ≤ length rest)%nat ∧ fs !! (cur ++ take i rest) = None
       ∧ ∀ j, (j < i)%nat → is_dir fs (cur ++ take j rest) = true.
Proof.
  induction rest as [|n rest IH]; intros cur; simpl.
  - destruct (fs !! cur) eqn:Hc; [done|]. intros _. exists 0%nat.
    rewrite app_nil_r. split; [done|]. split; [done|]. lia.
  - destruct (fs !! cur) as [[m| |]|] eqn:Hc; try done.
    + intros H. destruct (IH _ H) as (i & Hi & Hnone & Hdirs).
      exists (S i). split; [lia|]. simpl. split.
      * by rewrite <- app_assoc in Hnone.
      * intros j Hj. destruct j as [|j]; simpl.
        -- rewrite app_nil_r. unfold is_dir. by rewrite Hc.
        -- specialize (Hdirs j ltac:(lia)). by rewrite <- app_assoc in Hdirs.
    + intros _. exists 0%nat. simpl. rewrite app_nil_r.
      split; [lia|]. split; [done|]. lia.
Qed.

Lemma lstat_ENOENT (fs : gmap (list string) node) (p : list string) :
  wf fs = true → os.lstat fs p = inl ENOENT →
  fs !! p = None
  ∧ ∀ q, q `prefix_of` p → fs !! q = None ∨ is_dir fs q = true.
Proof.
  intros Hwf H. destruct (walk_ENOENT _ _ _ H) as (i & Hi & Hnone & Hdirs).
  simpl in *.
  assert (∀ q, q `prefix_of` p → fs !! q = None ∨ is_dir fs q = true) as Hall.
  { intros q Hq. destruct (decide (length q < i)%nat) as [Hlt|Hge].
    - right. rewrite (prefix_take_length _ _ Hq). by apply Hdirs.
    - left. destruct (decide (take i p = q)) as [<-|Hne]; [done|].
      apply (wf_below fs (take i p)); [done| |
        apply (prefix_same_length _ _ p);
          [apply prefix_take|done|rewrite length_take; lia] | done].
      unfold is_dir. by rewrite Hnone. }
  split; [|done].
  destruct (Hall p) as [?|Hd]; [done|done|].
  destruct (decide (take i p = p)) as [Heq|Hne]; [by rewrite <- Heq|].
  apply (wf_below fs (take i p)); [done| |apply prefix_take|done].
  unfold is_dir. by rewrite Hnone.
Qed.

(** *** Running [io] *)

Lemma run_bind {A B} (m : io A) (k : A → io B) fs fs' (a : A) :
  m fs = (fs', inr a) → (m ≫= k) fs = k a fs'.
Proof. unfold mbind, io_bind. by intros ->. Qed.

Lemma run_bind_fail {A B} (m : io A) (k : A → io B) fs fs' (f : failure) :
  m fs = (fs', inl f) → (m ≫= k) fs = (fs', inl f).
Proof. unfold mbind, io_bind. by intros ->. Qed.

Lemma run_try {A} (m : io A) fs fs' (a : A) :
  m fs = (fs', inr a) → try m fs = (fs', inr (inr a)).
Proof. unfold try. by intros ->. Qed.

Lemma run_try_error {A} (m : io A) fs fs' (e : errno) :
  m fs = (fs', inl (Error e)) → try m fs = (fs', inr (inl e)).
Proof. unfold try. by intros ->. Qed.

Lemma run_ask {A} (q : gmap (list string) node → errno + A) fs (a : A) :
  q fs = inr a → ask q fs = (fs, inr a).
Proof. unfold ask. by intros ->. Qed.

Lemma run_ask_error {A} (q : gmap (list string) node → errno + A) fs e :
  q fs = inl e → ask q fs = (fs, inl (Error e)).
Proof. unfold ask. by intros ->. Qed.

Lemma run_ret {A} (a : A) fs : (mret a : io A) fs = (fs, inr a).
Proof. reflexivity. Qed.

(** *** [Stat], [Lstat] *)

Lemma follow_node (fs : gmap (list string) node) (p : list string) (nd : node)
    (fuel : nat) :
  os.lstat fs p = inr nd → IsSymlink nd = false →
  os.follow fuel fs p = inr (p, nd).
Proof. intros H Hl. destruct fuel; simpl; rewrite H; by destruct nd. Qed.

Lemma follow_error (fs : gmap (list string) node) (p : list string) (e : errno)
    (fuel : nat) :
  os.lstat fs p = inl e → os.follow fuel fs p = inl e.
Proof. intros H. destruct fuel; simpl; by rewrite H. Qed.

Lemma Stat_node (fs : gmap (list string) node) (p : list string) (nd : node) :
  wf fs = true → fs !! p = Some nd → IsSymlink nd = false →
  os.Stat p fs = (fs, inr nd).
Proof.
  intros Hwf Hp Hl. apply run_ask. unfold os.stat.
  by rewrite (follow_node _ _ nd) by (by try apply lstat_Some).
Qed.

Lemma Stat_error (fs : gmap (list string) node) (p : list string) (e : errno) :
  os.lstat fs p = inl e → os.Stat p fs = (fs, inl (Error e)).
Proof.
  intros H. apply run_ask_error. unfold os.stat. by rewrite (follow_error _ _ e).
Qed.

Lemma Lstat_node (fs : gmap (list string) node) (p : list string) (nd : node) :
  wf fs = true → fs !! p = Some nd → os.Lstat p fs = (fs, inr nd).
Proof. intros Hwf Hp. apply run_ask. by apply lstat_Some. Qed.

(** *** Creating nodes *)

Lemma create_at_new (fs : gmap (list string) node) (p : list string)
    (n : string) (nd : node) :
  wf fs = true → is_dir fs p = true → fs !! (p ++ [n]) = None →
  os.create_at (p ++ [n]) nd fs = (<[ p ++ [n] := nd ]> fs, inr tt).
Proof.
  intros Hwf Hdir Hnone. unfold os.create_at.
  rewrite (lstat_new _ _ _ Hwf Hdir Hnone).
  destruct (p ++ [n]) as [|x l] eqn:Hpn.
  { by destruct p. }
  rewrite <- Hpn, parent_snoc.
  apply is_dir_Some in Hdir as [m Hm].
  by rewrite (lstat_Some _ _ _ Hwf Hm).
Qed.

Lemma create_at_exists (fs : gmap (list string) node) (p : list string)
    (nd nd' : node) :
  os.lstat fs p = inr nd' →
  os.create_at p nd fs = (fs, inl (Error EEXIST)).
Proof. intros H. unfold os.create_at. by rewrite H. Qed.

(** *** [MkdirAll] *)

Lemma walk_missing (fs : gmap (list string) node) (rest : list string) :
  ∀ cur : list string,
  (∀ i, i ≤ length rest →
        fs !! (cur ++ take i rest) = None
        ∨ is_dir fs (cur ++ take i rest) = true) →
  fs !! (cur ++ rest) = None →
  os.walk fs cur rest = inl ENOENT.
Proof.
  induction rest as [|n rest IH]; intros cur Hfree Hnone; simpl.
  - rewrite app_nil_r in Hnone. by rewrite Hnone.
  - destruct (Hfree 0 ltac:(lia)) as [H0|H0]; simpl in H0;
      rewrite app_nil_r in H0.
    + by rewrite H0.
    + apply is_dir_Some in H0 as [m ->]. apply IH.
      * intros i Hi. rewrite <- app_assoc. apply (Hfree (S i)). simpl. lia.
      * by rewrite <- app_assoc.
Qed.

Lemma lstat_missing (fs : gmap (list string) node) (p : list string) :
  (∀ q, q `prefix_of` p → fs !! q = None ∨ is_dir fs q = true) →
  fs !! p = None → os.lstat fs p = inl ENOENT.
Proof.
  intros Hfree Hnone. apply walk_missing; [|done].
  intros i _. simpl. apply Hfree, prefix_take.
Qed.

Lemma dirs_made_refl (fs : gmap (list string) node) (p : list string)
    (nd : node) :
  wf fs = true → is_Some (fs !! p) → dirs_made fs fs p nd.
Proof.
  intros Hwf [nd' Hp] k. destruct (fs !! k) eqn:Hk; [done|].
  case_bool_decide as Hpre; [|done].
  destruct (decide (k = p)) as [->|Hne]; [congruence|].
  pose proof (wf_prefix _ _ _ _ Hwf Hp Hpre Hne) as Hd.
  apply is_dir_Some in Hd as [m Hm]. congruence.
Qed.

Lemma MkdirAll_upto_spec (umask perm : N) (fs : gmap (list string) node)
    (p : list string) :
  wf fs = true →
  Forall (λ n, valid_name n = true) p →
  (∀ q, q `prefix_of` p → fs !! q = None ∨ is_dir fs q = true) →
  ∀ n, n ≤ length p →
  ∃ fs', os.MkdirAll_upto umask n p perm fs = (fs', inr tt)
         ∧ wf fs' = true
         ∧ dirs_made fs fs' (take n p) (Dir (N.ldiff perm umask)).
Proof.
  intros Hwf Hvalid Hfree.
  assert (∀ n, is_dir fs (take n p) = true →
            os.MkdirAll_upto umask n p perm fs = (fs, inr tt)
            ∧ dirs_made fs fs (take n p) (Dir (N.ldiff perm umask))) as Hthere.
  { intros n Hd. apply is_dir_Some in Hd as [m Hm]. split.
    - destruct n; simpl;
        rewrite (run_bind _ _ fs fs (inr (Dir m)))
          by (apply run_try, Stat_node; done); done.
    - apply dirs_made_refl; eauto. }
  induction n as [|n IH]; intros Hn.
  - exists fs. destruct (Hthere 0) as [? ?]; [apply (wf_root _ Hwf)|]. done.
  - destruct (Hfree (take (S n) p) (prefix_take _ _)) as [Hnone|Hd].
    2:{ exists fs. destruct (Hthere (S n) Hd) as [? ?]. done. }
    destruct (lookup_lt_is_Some_2 p n ltac:(lia)) as [x Hx].
    assert (take (S n) p = take n p ++ [x]) as Hq by by apply take_S_r.
    assert (∃ fs1, (match n with
                    | 0 => mret tt
                    | S _ => os.MkdirAll_upto umask n p perm
                    end) fs = (fs1, inr tt)
                   ∧ wf fs1 = true
                   ∧ dirs_made fs fs1 (take n p) (Dir (N.ldiff perm umask)))
      as (fs1 & Hrun1 & Hwf1 & Hmade1).
    { destruct n as [|n'].
      - exists fs. split; [done|]. split; [done|].
        apply dirs_made_refl; [done|]. rewrite take_0.
        pose proof (wf_root _ Hwf) as Hr. apply is_dir_Some in Hr as [m Hm].
        eauto.
      - apply IH. lia. }
    assert (is_dir fs1 (take n p) = true) as Hpar.
    { unfold is_dir. rewrite Hmade1.
      destruct (Hfree (take n p) (prefix_take _ _)) as [->|Hdir].
      - by rewrite bool_decide_eq_true_2.
      - apply is_dir_Some in Hdir as [m ->]. done. }
    assert (fs1 !! (take n p ++ [x]) = None) as Hnone1.
    { rewrite Hmade1, <- Hq, Hnone. rewrite bool_decide_eq_false_2; [done|].
      intros Hpre%prefix_length. rewrite !length_take in Hpre. lia. }
    exists (<[ take n p ++ [x] := Dir (N.ldiff perm umask) ]> fs1).
    split; [|split].
    + simpl os.MkdirAll_upto.
      rewrite (run_bind _ _ fs fs (inl ENOENT)).
      2:{ apply run_try_error, Stat_error, lstat_missing; [|done].
          intros q Hq'. apply Hfree. etrans; [done|apply prefix_take]. }
      rewrite (run_bind _ _ fs fs1 tt) by (by destruct n).
      rewrite Hq.
      rewrite (run_bind _ _ fs1
                 (<[ take n p ++ [x] := Dir (N.ldiff perm umask) ]> fs1)
                 (inr tt)); [done|].
      apply run_try. by apply create_at_new.
    + apply wf_insert; try done.
      rewrite Forall_forall in Hvalid. apply Hvalid.
      by apply list_elem_of_lookup_2 in Hx.
    + intros k. rewrite Hq. destruct (decide (k = take n p ++ [x])) as [->|Hne].
      * rewrite lookup_insert_eq, <- Hq, Hnone.
        by rewrite bool_decide_eq_true_2.
      * rewrite lookup_insert_ne by done. rewrite Hmade1.
        destruct (fs !! k); [done|].
        case_bool_decide as H1; case_bool_decide as H2; try done.
        -- destruct H2. by apply prefix_app_r.
        -- destruct (prefix_snoc_inv _ _ _ H2); done.
Qed.

Lemma MkdirAll_spec (umask perm : N) (fs : gmap (list string) node)
    (p : list string) :
  wf fs = true →
  Forall (λ n, valid_name n = true) p →
  (∀ q, q `prefix_of` p → fs !! q = None ∨ is_dir fs q = true) →
  ∃ fs', os.MkdirAll umask p perm fs = (fs', inr tt)
         ∧ wf fs' = true
         ∧ dirs_made fs fs' p (Dir (N.ldiff perm umask)).
Proof.
  intros Hwf Hvalid Hfree.
  destruct (MkdirAll_upto_spec umask perm fs p Hwf Hvalid Hfree (length p))
    as (fs' & Hrun & Hwf' & Hmade); [done|].
  rewrite firstn_all in Hmade. eauto.
Qed.

(** *** [ReadDir] *)

Lemma children_elem (fs : gmap (list string) node) (p : list string)
    (n : string) (nd : node) :
  (n, nd) ∈ os.children fs p ↔ fs !! (p ++ [n]) = Some nd.
Proof.
  unfold os.children. rewrite list_elem_of_omap. split.
  - intros ([k nd'] & Hin & Hf). simpl in Hf.
    destruct (child_of p k) as [n'|] eqn:Hc; simpl in Hf; [|done].
    injection Hf as -> ->. apply child_of_Some in Hc as ->.
    by apply elem_of_map_to_list in Hin.
  - intros Hk. exists (p ++ [n], nd). split.
    + by apply elem_of_map_to_list.
    + simpl. by rewrite (proj2 (child_of_Some p (p ++ [n]) n) eq_refl).
Qed.

Lemma omap_child_names_NoDup (p : list string)
    (l : list (list string * node)) :
  NoDup l.*1 →
  NoDup (omap (λ kv, n ← child_of p kv.1; Some (n, kv.2)) l).*1.
Proof.
  induction l as [|[k nd] l IH]; simpl; [constructor|].
  intros [Hk Hnd]%NoDup_cons.
  destruct (child_of p k) as [n|] eqn:Hc; simpl; [|by apply IH].
  constructor; [|by apply IH].
  intros Hin. apply list_elem_of_fmap in Hin as ([n' nd'] & Hn & Hin).
  simpl in Hn. subst n'.
  apply list_elem_of_omap in Hin as ([k' nd''] & Hin & Hf). simpl in Hf.
  destruct (child_of p k') as [n'|] eqn:Hc'; simpl in Hf; [|done].
  injection Hf as -> ->.
  apply child_of_Some in Hc as ->. apply child_of_Some in Hc' as ->.
  apply Hk. apply list_elem_of_fmap. by exists (p ++ [n], nd').
Qed.

Lemma ReadDir_spec (fs : gmap (list string) node) (p : list string) (m : N) :
  wf fs = true → fs !! p = Some (Dir m) →
  ∃ entries,
    os.ReadDir p fs = (fs, inr entries)
    ∧ (∀ n nd, (n, nd) ∈ entries ↔ fs !! (p ++ [n]) = Some nd)
    ∧ NoDup entries.*1.
Proof.
  intros Hwf Hp. exists (merge_sort entry_le (os.children fs p)).
  split; [|split].
  - apply run_ask.
    by rewrite (follow_node _ _ (Dir m)) by (by try apply lstat_Some).
  - intros n nd. rewrite merge_sort_Permutation. apply children_elem.
  - rewrite merge_sort_Permutation. apply omap_child_names_NoDup.
    apply NoDup_fst_map_to_list.
Qed.

(** *** [CopyFile] *)

Lemma Create_follow_new (umask : N) (fs : gmap (list string) node)
    (p : list string) (n : string) (fuel : nat) :
  wf fs = true → is_dir fs p = true → fs !! (p ++ [n]) = None →
  os.Create_follow umask fuel (p ++ [n]) fs
  = (<[ p ++ [n] := File (N.ldiff 438 umask) EmptyString ]> fs, inr (p ++ [n])).
Proof.
  intros Hwf Hdir Hnone.
  destruct fuel; simpl; rewrite (lstat_new _ _ _ Hwf Hdir Hnone);
    by rewrite create_at_new.
Qed.

(** A regular file copied to a free name in a directory: the copy has the
    bytes and the mode of the file, whatever the mask. *)
Lemma CopyFile_spec (umask : N) (fs : gmap (list string) node)
    (src p : list string) (n : string) (m : N) (data : string) :
  wf fs = true → fs !! src = Some (File m data) →
  is_dir fs p = true → fs !! (p ++ [n]) = None → valid_name n = true →
  CopyFile umask src (p ++ [n]) fs
  = (<[ p ++ [n] := File m data ]> fs, inr tt)
  ∧ wf (<[ p ++ [n] := File m data ]> fs) = true.
Proof.
  intros Hwf Hsrc Hdir Hnone Hn.
  assert (src ≠ p ++ [n]) as Hne by congruence.
  assert (∀ m' d', wf (<[ p ++ [n] := File m' d' ]> fs) = true) as Hwf'.
  { intros m' d'. apply wf_insert; try done.
    unfold is_dir. by rewrite Hnone. }
  split; [|done]. unfold CopyFile.
  rewrite (run_bind _ _ fs fs src).
  2:{ apply run_ask.
      by rewrite (follow_node _ _ (File m data)) by (by try apply lstat_Some). }
  rewrite (run_bind _ _ fs
             (<[ p ++ [n] := File (N.ldiff 438 umask) EmptyString ]> fs)
             (p ++ [n])) by (by apply Create_follow_new).
  rewrite (run_bind _ _ _ (<[ p ++ [n] := File (N.ldiff 438 umask) data ]> fs) tt).
  2:{ unfold os.Copy. rewrite lookup_insert_ne by done.
      rewrite Hsrc, lookup_insert_eq. by rewrite insert_insert_eq. }
  rewrite (run_bind _ _ _ (<[ p ++ [n] := File (N.ldiff 438 umask) data ]> fs)
             (File m data)).
  2:{ apply Stat_node; [done| |done]. by rewrite lookup_insert_ne. }
  unfold os.Chmod.
  rewrite (follow_node _ _ (File (N.ldiff 438 umask) data));
    [|apply lstat_Some; [done|apply lookup_insert_eq]|done].
  by rewrite insert_insert_eq.
Qed.

(** *** [CopyDir] *)

Lemma Join_name (p : list string) (n : string) :
  valid_name n = true → filepath.Join p n = p ++ [n].
Proof.
  unfold valid_name. rewrite !andb_true_iff, !negb_true_iff.
  rewrite !bool_decide_eq_false. intros [[[H1 H2] H3] H4].
  unfold filepath.Join. rewrite (Split_no_sep _ _ H4). simpl.
  unfold filepath.step. rewrite decide_False by (intros [?|?]; done).
  by rewrite decide_False.
Qed.

Lemma prefix_snoc_cons (p : list string) (n n' : string) (r : list string) :
  p ++ [n] `prefix_of` p ++ n' :: r → n = n'.
Proof. intros H%prefix_app_inv. by apply prefix_cons_inv_1 in H. Qed.

Lemma prefix_cons_snoc (p : list string) (n n' : string) (r : list string) :
  p ++ n' :: r `prefix_of` p ++ [n] → n' = n.
Proof. intros H%prefix_app_inv. by apply prefix_cons_inv_1 in H. Qed.

Lemma prefix_app_self (p r : list string) : p `prefix_of` p ++ r.
Proof. by exists r. Qed.

Section CopyDirStep.
Variable umask : N.
Variable fuel : nat.
(** The recursive calls do what [CopyDir] should. *)
Hypothesis IH : ∀ src dst fs m,
  copy_pre fs src dst m fuel →
  ∃ fs', CopyDir umask fuel src dst fs = (fs', inr tt)
         ∧ copy_post umask fs fs' src dst m.

Variables (fs fs1 : gmap (list string) node) (src dst : list string) (m : N).
Hypothesis Hpre : copy_pre fs src dst m (S fuel).
Hypothesis Hwf1 : wf fs1 = true.
Hypothesis Hmade : dirs_made fs fs1 dst (Dir (N.ldiff m umask)).

Local Abbreviation inv := (copy_inv umask fs fs1 src dst m).

Lemma src_not_in_dst (k : list string) :
  src `prefix_of` k → ¬ dst `prefix_of` k.
Proof.
  destruct Hpre as (Hwf & Hsrc & Hdst & Hfree & Hval & Hnot & Hbound).
  intros Hs Hd. destruct (prefix_weak_total _ _ _ Hs Hd) as [H|H]; [done|].
  destruct (decide (dst = src)) as [Heq|Hne]; [congruence|].
  pose proof (wf_prefix _ _ _ _ Hwf Hsrc H Hne) as Hdir.
  apply is_dir_Some in Hdir as [? ?]. congruence.
Qed.

Lemma below_src_kept (k : list string) :
  src `prefix_of` k → fs1 !! k = fs !! k.
Proof.
  destruct Hpre as (Hwf & Hsrc & Hdst & Hfree & Hval & Hnot & Hbound).
  intros Hs. rewrite Hmade. destruct (fs !! k); [done|].
  rewrite bool_decide_eq_false_2; [done|]. intros Hk. apply Hnot. by etrans.
Qed.

Lemma above_dst_dir (fsc : gmap (list string) node) (q : list string) :
  (∀ k, ¬ dst `prefix_of` k → fsc !! k = fs1 !! k) →
  q `prefix_of` dst → q ≠ dst → is_dir fsc q = true.
Proof.
  destruct Hpre as (Hwf & Hsrc & Hdst & Hfree & Hval & Hnot & Hbound).
  intros H1 Hq Hne. unfold is_dir. rewrite H1.
  2:{ intros Hd. apply Hne. by apply (anti_symm prefix). }
  rewrite Hmade. destruct (Hfree q Hq) as [->|Hdir].
  - by rewrite bool_decide_eq_true_2.
  - apply is_dir_Some in Hdir as [? ->]. done.
Qed.

(** One entry. *)
Lemma copy_entry (done : list string) (fsc : gmap (list string) node)
    (n : string) (nd : node) :
  inv done fsc → n ∉ done → fs !! (src ++ [n]) = Some nd →
  ∃ fsc',
    (let srcPath := filepath.Join src (os.Name (n, nd)) in
     let dstPath := filepath.Join dst (os.Name (n, nd)) in
     if IsDir nd then CopyDir umask fuel srcPath dstPath
     else
       r ← try (os.Lstat srcPath);
       match r with
       | inl _ => throw NilDeref
       | inr info =>
           if IsSymlink info then mret tt
           else CopyFile umask srcPath dstPath
       end) fsc = (fsc', inr tt)
    ∧ inv (done ++ [n]) fsc'.
Proof.
  pose proof Hpre as (Hwf & Hsrc & Hdst & Hfree & Hval & Hnot & Hbound).
  intros (Hwfc & I1 & I2 & I3) Hn Hnd.
  destruct (wf_parent _ _ _ _ Hwf Hnd) as [_ Hvn].
  assert (∀ k, src `prefix_of` k → fsc !! k = fs !! k) as Hkept.
  { intros k Hk. rewrite I1 by by apply src_not_in_dst.
    by apply below_src_kept. }
  assert (fsc !! (src ++ [n]) = Some nd) as Hndc.
  { rewrite Hkept; [done|apply prefix_app_self]. }
  assert (fsc !! (dst ++ [n]) = None) as Hfreec.
  { rewrite I3. by rewrite bool_decide_eq_false_2. }
  assert (is_dir fsc dst = true) as Hdstc.
  { unfold is_dir. by rewrite I2. }
  (* the invariant once the subtree at [n] is as copied *)
  assert (∀ fsc',
            wf fsc' = true →
            (∀ k, ¬ dst ++ [n] `prefix_of` k → fsc' !! k = fsc !! k) →
            (∀ r, fsc' !! (dst ++ n :: r)
                  = copied umask (fs !! (src ++ n :: r))) →
            inv (done ++ [n]) fsc') as Hnext.
  { intros fsc' Hwf' Hout Hin. split; [done|]. split; [|split].
    - intros k Hk. rewrite Hout; [by apply I1|].
      intros H. apply Hk. etrans; [|done]. apply prefix_app_self.
    - rewrite Hout; [done|]. apply prefix_snoc_not.
    - intros n' r. destruct (decide (n' = n)) as [->|Hne].
      + rewrite bool_decide_eq_true_2 by set_solver. apply Hin.
      + rewrite Hout by (intros H%prefix_snoc_cons; done).
        rewrite I3. destruct (decide (n' ∈ done)) as [Hd|Hd].
        * by rewrite !bool_decide_eq_true_2 by set_solver.
        * by rewrite !bool_decide_eq_false_2 by set_solver. }
  assert (∀ x r, is_dir fs (src ++ [n]) = false →
            fs !! (src ++ n :: x :: r) = None) as Hbelow.
  { intros x r Hd. apply (wf_below fs (src ++ [n]) _ Hwf Hd).
    - rewrite (cons_middle n src (x :: r)), app_assoc. apply prefix_app_self.
    - intros H. apply (f_equal length) in H.
      rewrite !length_app in H. simpl in H. lia. }
  cbv zeta. unfold os.Name. cbn [fst].
  rewrite !Join_name by done.
  destruct nd as [m2|m2 data|target]; cbn [IsDir].
  - (* a directory: the recursive call *)
    destruct (IH (src ++ [n]) (dst ++ [n]) fsc m2) as (fsc' & Hrun & Hpost).
    { split; [done|]. split; [done|]. split; [done|]. split; [|split; [|split]].
      - intros q Hq. destruct (prefix_snoc_inv _ _ _ Hq) as [Hq'| ->].
        + right. destruct (decide (q = dst)) as [->|Hne]; [done|].
          by apply above_dst_dir.
        + by left.
      - apply Forall_app. split; [done|]. by constructor.
      - intros H. destruct (prefix_snoc_inv _ _ _ H) as [H'|H'].
        + apply Hnot. etrans; [|done]. apply prefix_app_self.
        + apply app_inj_tail in H' as [-> _]. by apply Hnot.
      - intros k Hk Hsk.
        assert (src `prefix_of` k) as Hs
          by (etrans; [apply prefix_app_self|done]).
        rewrite Hkept in Hk by done.
        specialize (Hbound k Hk Hs). rewrite length_app. simpl. lia. }
    exists fsc'. split; [done|].
    destruct Hpost as (Hwf' & F1 & F2). apply Hnext; [done| |].
    + intros k Hk. rewrite (F1 k Hk). destruct (fsc !! k) eqn:Hck; [done|].
      rewrite bool_decide_eq_false_2; [done|].
      intros Hpk. destruct (prefix_snoc_inv _ _ _ Hpk) as [Hpk'| ->].
      * destruct (decide (k = dst)) as [->|Hne]; [congruence|].
        pose proof (above_dst_dir fsc k I1 Hpk' Hne) as Hd.
        apply is_dir_Some in Hd as [? ?]. congruence.
      * by apply Hk.
    + intros r. rewrite (cons_middle n dst r), (cons_middle n src r), !app_assoc.
      rewrite F2.
      f_equal. apply Hkept. rewrite <- app_assoc. apply prefix_app_self.
  - (* a regular file *)
    rewrite (run_bind _ _ fsc fsc (inr (File m2 data)))
      by (apply run_try, Lstat_node; done).
    cbn [IsSymlink].
    destruct (CopyFile_spec umask fsc (src ++ [n]) dst n m2 data)
      as [Hrun Hwf']; try done.
    eexists. split; [exact Hrun|]. apply Hnext; [done| |].
    + intros k Hk. apply lookup_insert_ne. intros <-. by apply Hk.
    + intros r. destruct r as [|x r].
      * by rewrite lookup_insert_eq, Hnd.
      * rewrite lookup_insert_ne.
        2:{ intros H. apply (f_equal length) in H.
            rewrite !length_app in H. simpl in H. lia. }
        rewrite I3, bool_decide_eq_false_2 by done.
        rewrite Hbelow; [done|]. unfold is_dir. by rewrite Hnd.
  - (* a link: skipped *)
    rewrite (run_bind _ _ fsc fsc (inr (Link target)))
      by (apply run_try, Lstat_node; done).
    cbn [IsSymlink].
    exists fsc. split; [done|]. apply Hnext; [done|done|].
    intros r. rewrite I3, bool_decide_eq_false_2 by done.
    destruct r as [|x r]; [by rewrite Hnd|].
    rewrite Hbelow; [done|]. unfold is_dir. by rewrite Hnd.
Qed.

(** The body of the loop in [CopyDir]. *)
Local Abbreviation loopBody :=
  (λ entry : string * node,
     let srcPath := filepath.Join src (os.Name entry) in
     let dstPath := filepath.Join dst (os.Name entry) in
     if IsDir entry.2 then CopyDir umask fuel srcPath dstPath
     else
       r ← try (os.Lstat srcPath);
       match r with
       | inl _ => throw NilDeref
       | inr info =>
           if IsSymlink info then mret tt
           else CopyFile umask srcPath dstPath
       end).

Lemma copy_loop (todo : list (string * node)) :
  ∀ (done : list string) (fsc : gmap (list string) node),
  inv done fsc →
  NoDup (done ++ todo.*1) →
  (∀ n nd, (n, nd) ∈ todo → fs !! (src ++ [n]) = Some nd) →
  ∃ fsc', forEach todo loopBody fsc = (fsc', inr tt)
          ∧ inv (done ++ todo.*1) fsc'.
Proof.
  induction todo as [|[n nd] todo IHtodo]; intros done fsc Hinv Hnd Hin.
  - exists fsc. simpl. by rewrite app_nil_r.
  - simpl in Hnd.
    assert (n ∉ done) as Hn.
    { apply NoDup_app in Hnd as (_ & Hdisj & _). intros H.
      apply (Hdisj n H). by left. }
    destruct (copy_entry done fsc n nd Hinv Hn) as (fsc1 & Hrun1 & Hinv1).
    { apply Hin. by left. }
    destruct (IHtodo (done ++ [n]) fsc1 Hinv1) as (fsc2 & Hrun2 & Hinv2).
    { by rewrite <- app_assoc. }
    { intros n' nd' H. apply Hin. by right. }
    exists fsc2. split.
    + cbn [forEach]. rewrite (run_bind _ _ fsc fsc1 tt) by exact Hrun1.
      exact Hrun2.
    + cbn [fmap list_fmap fst]. rewrite <- app_assoc in Hinv2. exact Hinv2.
Qed.

End CopyDirStep.

Lemma CopyDir_step (umask : N) (fuel : nat) :
  (∀ src dst fs m,
     copy_pre fs src dst m fuel →
     ∃ fs', CopyDir umask fuel src dst fs = (fs', inr tt)
            ∧ copy_post umask fs fs' src dst m) →
  ∀ src dst fs m,
    copy_pre fs src dst m (S fuel) →
    ∃ fs', CopyDir umask (S fuel) src dst fs = (fs', inr tt)
           ∧ copy_post umask fs fs' src dst m.
Proof.
  intros IH src dst fs m Hpre.
  pose proof Hpre as (Hwf & Hsrc & Hdst & Hfree & Hval & Hnot & Hbound).
  destruct (MkdirAll_spec umask m fs dst Hwf Hval Hfree)
    as (fs1 & Hmk & Hwf1 & Hmade).
  assert (fs1 !! src = Some (Dir m)) as Hsrc1.
  { rewrite (below_src_kept umask fuel fs fs1 src dst m Hpre Hmade); done. }
  destruct (ReadDir_spec fs1 src m Hwf1 Hsrc1) as (entries & Hrd & Hmem & Hnd).
  destruct (copy_loop umask fuel IH fs fs1 src dst m Hpre Hwf1 Hmade
              entries [] fs1) as (fs' & Hloop & Hinv).
  { split; [done|]. split; [done|]. split.
    - rewrite Hmade, Hdst. by rewrite bool_decide_eq_true_2.
    - intros n r. rewrite bool_decide_eq_false_2 by set_solver.
      rewrite Hmade.
      rewrite (wf_below fs dst); [|done| |apply prefix_app_self|].
      + rewrite bool_decide_eq_false_2; [done|].
        intros H%prefix_length. rewrite length_app in H. simpl in H. lia.
      + unfold is_dir. by rewrite Hdst.
      + intros H. apply (f_equal length) in H.
        rewrite length_app in H. simpl in H. lia. }
  { done. }
  { intros n nd H. apply Hmem in H.
    rewrite <- (below_src_kept umask fuel fs fs1 src dst m Hpre Hmade);
      [done|apply prefix_app_self]. }
  exists fs'. split.
  - cbn [CopyDir].
    rewrite (run_bind _ _ fs fs (Dir m)) by by apply Stat_node.
    cbn [IsDir negb].
    rewrite (run_bind _ _ fs fs (inl ENOENT))
      by by apply run_try_error, Stat_error, lstat_missing.
    cbn [os.IsNotExist negb Mode].
    rewrite (run_bind _ _ fs fs1 tt) by exact Hmk.
    rewrite (run_bind _ _ fs1 fs1 entries) by exact Hrd.
    exact Hloop.
  - destruct Hinv as (Hwf' & I1 & I2 & I3). split; [done|]. split.
    + intros k Hk. rewrite (I1 k Hk). apply Hmade.
    + intros r. destruct r as [|n r].
      * rewrite !app_nil_r, I2, Hsrc. done.
      * rewrite I3. simpl. case_bool_decide as Hn; [done|].
        assert (fs !! (src ++ [n]) = None) as Hnone.
        { destruct (fs !! (src ++ [n])) as [nd|] eqn:Hk; [|done].
          destruct Hn. apply list_elem_of_fmap. exists (n, nd).
          split; [done|]. apply Hmem.
          rewrite (below_src_kept umask fuel fs fs1 src dst m Hpre Hmade);
            [done|apply prefix_app_self]. }
        destruct r as [|x r]; [by rewrite Hnone|].
        rewrite (wf_below fs (src ++ [n]) _ Hwf); [done| | |].
        -- unfold is_dir. by rewrite Hnone.
        -- rewrite (cons_middle n src (x :: r)), app_assoc.
           apply prefix_app_self.
        -- intros H. apply (f_equal length) in H.
           rewrite !length_app in H. simpl in H. lia.
Qed.

(** [CopyDir] with enough fuel copies the tree: it returns without error,
    and leaves a well-formed file system with the copy at [dst]. *)
Lemma CopyDir_spec (umask : N) (fuel : nat) :
  ∀ src dst fs m,
    copy_pre fs src dst m fuel →
    ∃ fs', CopyDir umask fuel src dst fs = (fs', inr tt)
           ∧ copy_post umask fs fs' src dst m.
Proof.
  induction fuel as [|fuel IH]; [|by apply CopyDir_step].
  intros src dst fs m (Hwf & Hsrc & _ & _ & _ & _ & Hbound).
  specialize (Hbound src ltac:(eauto) ltac:(done)). lia.
Qed.

(** *** [Remove], [RemoveAll], [Symlink] *)

Lemma wf_delete (fs : gmap (list string) node) (p : list string) :
  wf fs = true → p ≠ [] → (∀ n, fs !! (p ++ [n]) = None) →
  wf (delete p fs) = true.
Proof.
  intros Hwf Hp Hleaf. apply wf_intro.
  - unfold is_dir. rewrite lookup_delete_ne by done. apply (wf_root _ Hwf).
  - intros k nd Hk.
    destruct (decide (p = k)) as [->|Hne]; [by rewrite lookup_delete_eq in Hk|].
    rewrite lookup_delete_ne in Hk by done.
    pose proof (wf_lookup _ _ _ Hwf Hk) as H. unfold wf_key in *.
    destruct (last k) as [n|] eqn:Hl; [|done].
    apply andb_true_iff in H as [-> H]. simpl.
    unfold is_dir. rewrite lookup_delete_ne; [done|].
    intros ->. rewrite (snoc_parent _ _ Hl), Hleaf in Hk. done.
Qed.

Lemma filter_below_keep (fs : gmap (list string) node) (p k : list string) :
  ¬ p `prefix_of` k →
  filter (λ kv : list string * node, ¬ p `prefix_of` kv.1) fs !! k = fs !! k.
Proof.
  intros Hk. apply option_eq. intros nd.
  rewrite map_lookup_filter_Some. simpl. naive_solver.
Qed.

Lemma filter_below_drop (fs : gmap (list string) node) (p k : list string) :
  p `prefix_of` k →
  filter (λ kv : list string * node, ¬ p `prefix_of` kv.1) fs !! k = None.
Proof.
  intros Hk. apply map_lookup_filter_None. right. intros nd _. simpl. tauto.
Qed.

Lemma parent_prefix (k : list string) : parent k `prefix_of` k.
Proof. apply prefix_take. Qed.

Lemma wf_filter_below (fs : gmap (list string) node) (p : list string) :
  wf fs = true → p ≠ [] →
  wf (filter (λ kv : list string * node, ¬ p `prefix_of` kv.1) fs) = true.
Proof.
  intros Hwf Hp. apply wf_intro.
  - unfold is_dir. rewrite filter_below_keep; [apply (wf_root _ Hwf)|].
    intros H%prefix_nil_inv. done.
  - intros k nd [Hk Hkeep]%map_lookup_filter_Some. simpl in Hkeep.
    pose proof (wf_lookup _ _ _ Hwf Hk) as H. unfold wf_key in *.
    destruct (last k) as [n|] eqn:Hl; [|done].
    apply andb_true_iff in H as [-> H]. simpl.
    unfold is_dir. rewrite filter_below_keep; [done|].
    intros Hpre. apply Hkeep. etrans; [done|apply parent_prefix].
Qed.

Lemma RemoveAll_node (fs : gmap (list string) node) (p : list string)
    (nd : node) :
  wf fs = true → fs !! p = Some nd → p ≠ [] →
  os.RemoveAll p fs
  = (filter (λ kv : list string * node, ¬ p `prefix_of` kv.1) fs, inr tt).
Proof.
  intros Hwf Hnd Hp. unfold os.RemoveAll.
  rewrite (lstat_Some _ _ _ Hwf Hnd). by destruct p.
Qed.

(** A node that [lstat] does not find is not there. *)
Lemma lstat_error_None (fs : gmap (list string) node) (p : list string)
    (e : errno) :
  wf fs = true → os.lstat fs p = inl e → fs !! p = None.
Proof.
  intros Hwf He. destruct (fs !! p) as [nd|] eqn:Hp; [|done].
  rewrite (lstat_Some _ _ _ Hwf Hp) in He. done.
Qed.

(** [os.Remove] and the creation of a node, with the error dropped as the
    source drops it: the file system stays well formed and changes at most
    at the path given. *)
Lemma try_Remove_frame (fs : gmap (list string) node) (p : list string) :
  wf fs = true → p ≠ [] →
  ∃ fs' r, try (os.Remove p) fs = (fs', inr r)
           ∧ wf fs' = true ∧ ∀ k, k ≠ p → fs' !! k = fs !! k.
Proof.
  intros Hwf Hp. unfold try, os.Remove.
  assert (∀ nd, fs !! p = Some nd → IsDir nd = false →
            ∀ n, fs !! (p ++ [n]) = None) as Hleaf.
  { intros nd Hnd Hd n. destruct (fs !! (p ++ [n])) as [nd'|] eqn:Hc; [|done].
    destruct (wf_parent _ _ _ _ Hwf Hc) as [Hdir _].
    apply is_dir_Some in Hdir as [m Hm]. rewrite Hm in Hnd.
    injection Hnd as <-. done. }
  destruct (os.lstat fs p) as [e|nd] eqn:Hl.
  { exists fs, (inl e). done. }
  apply lstat_inr in Hl.
  assert (wf (delete p fs) = true → ∃ fs' r,
            (delete p fs, @inr failure (errno + ()) (inr ())) = (fs', inr r)
            ∧ wf fs' = true ∧ ∀ k, k ≠ p → fs' !! k = fs !! k) as Hdel.
  { intros Hwf'. exists (delete p fs), (inr tt). split; [done|].
    split; [done|]. intros k Hk. by apply lookup_delete_ne. }
  destruct nd as [m|m data|target].
  - destruct p as [|x p]; [done|].
    destruct (os.children fs (x :: p)) as [|[n nd'] l] eqn:Hch.
    + apply Hdel, wf_delete; [done|done|].
      intros n. destruct (fs !! ((x :: p) ++ [n])) as [nd'|] eqn:Hc; [|done].
      apply children_elem in Hc. rewrite Hch in Hc. by apply elem_of_nil in Hc.
    + exists fs, (inl ENOTEMPTY). done.
  - apply Hdel, wf_delete; [done|done|]. by apply (Hleaf (File m data)).
  - apply Hdel, wf_delete; [done|done|]. by apply (Hleaf (Link target)).
Qed.

Lemma try_create_at_frame (fs : gmap (list string) node) (p : list string)
    (n : string) (nd : node) :
  wf fs = true → valid_name n = true →
  ∃ fs' r, try (os.create_at (p ++ [n]) nd) fs = (fs', inr r)
           ∧ wf fs' = true ∧ ∀ k, k ≠ p ++ [n] → fs' !! k = fs !! k.
Proof.
  intros Hwf Hn. unfold try, os.create_at.
  destruct (os.lstat fs (p ++ [n])) as [e|nd'] eqn:Hl.
  2:{ exists fs, (inl EEXIST). done. }
  pose proof (lstat_error_None _ _ _ Hwf Hl) as Hnone.
  destruct (p ++ [n]) as [|x l] eqn:Hpn; [by destruct p|].
  rewrite <- Hpn in *. rewrite parent_snoc.
  destruct (os.lstat fs p) as [e'|[m|m data|target]] eqn:Hlp.
  - exists fs, (inl e'). done.
  - exists (<[ p ++ [n] := nd ]> fs), (inr tt). split; [done|]. split.
    + apply wf_insert; try done.
      * apply lstat_inr in Hlp. unfold is_dir. by rewrite Hlp.
      * unfold is_dir. by rewrite Hnone.
    + intros k Hk. by apply lookup_insert_ne.
  - exists fs, (inl ENOTDIR). done.
  - exists fs, (inl ENOTDIR). done.
Qed.

(** *** [filepath.Join] makes valid paths *)

Lemma Split_pieces (s : string) (sep : ascii) :
  Forall (λ w, strings.Contains w sep = false) (strings.Split s sep).
Proof.
  induction s as [|c r IH]; simpl; [by repeat constructor|].
  destruct (decide (c = sep)) as [->|Hne]; [by constructor|].
  destruct (strings.Split r sep) as [|w ws].
  - constructor; [|done]. simpl. by rewrite decide_False.
  - apply Forall_cons in IH as [Hw Hws]. constructor; [|done].
    simpl. by rewrite decide_False.
Qed.

Lemma Forall_parent (P : string → Prop) (p : list string) :
  Forall P p → Forall P (parent p).
Proof. apply Forall_take. Qed.

Lemma step_valid (stack : list string) (c : string) :
  Forall (λ n, valid_name n = true) stack →
  strings.Contains c "/" = false →
  Forall (λ n, valid_name n = true) (filepath.step stack c).
Proof.
  intros Hs Hc. unfold filepath.step.
  case_decide as H1; [done|]. case_decide as H2; [by apply Forall_parent|].
  apply Forall_app. split; [done|]. constructor; [|done].
  unfold valid_name. rewrite Hc.
  rewrite !bool_decide_eq_false_2 by tauto. done.
Qed.

Lemma Join_valid (dir : list string) (elem : string) :
  Forall (λ n, valid_name n = true) dir →
  Forall (λ n, valid_name n = true) (filepath.Join dir elem).
Proof.
  unfold filepath.Join. pose proof (Split_pieces elem "/") as Hp.
  revert dir. induction Hp as [|c l Hc Hl IH]; intros dir Hdir; simpl; [done|].
  apply IH. by apply step_valid.
Qed.

(** *** The depth of a tree *)

Lemma height_bound (fs : gmap (list string) node) (p k : list string) :
  is_Some (fs !! k) → p `prefix_of` k → length k - length p ≤ height fs p.
Proof.
  intros [nd Hk] Hpre. unfold height. apply max_list_elem_of_le.
  apply list_elem_of_fmap. exists (k, nd). split; [done|].
  apply list_elem_of_filter. split; [done|]. by apply elem_of_map_to_list.
Qed.

(** ** The migration *)

Lemma try_Lstat (fs : gmap (list string) node) (p : list string) :
  try (os.Lstat p) fs = (fs, inr (os.lstat fs p)).
Proof. unfold try, os.Lstat, ask. by destruct (os.lstat fs p). Qed.

Lemma try_Stat (fs : gmap (list string) node) (p : list string) :
  try (os.Stat p) fs = (fs, inr (os.stat fs p)).
Proof. unfold try, os.Stat, ask. by destruct (os.stat fs p). Qed.

(** The replacement of the [.compatdata] shortcut in the home directory
    changes the file system at the shortcut only. *)
Lemma shortcut_replaced (fs : gmap (list string) node)
    (homeDir target : list string) :
  wf fs = true →
  let shortcut := homeDir ++ [".compatdata"] in
  ∃ fs1 fs2 x,
    (if negb (notExist (os.lstat fs shortcut))
     then try (os.Remove shortcut);; mret tt else mret tt) fs
    = (fs1, inr tt)
    ∧ try (os.Symlink target shortcut) fs1 = (fs2, inr x)
    ∧ wf fs2 = true
    ∧ ∀ k, k ≠ shortcut → fs2 !! k = fs !! k.
Proof.
  intros Hwf shortcut.
  assert (shortcut ≠ []) as Hne by (unfold shortcut; by destruct homeDir).
  assert (∃ fs1,
            (if negb (notExist (os.lstat fs shortcut))
             then try (os.Remove shortcut);; mret tt else mret tt) fs
            = (fs1, inr tt)
            ∧ wf fs1 = true ∧ ∀ k, k ≠ shortcut → fs1 !! k = fs !! k)
    as (fs1 & Hrun1 & Hwf1 & Hframe1).
  { destruct (negb (notExist (os.lstat fs shortcut))).
    - destruct (try_Remove_frame fs shortcut Hwf Hne)
        as (fs1 & r & Hrun & Hwf1 & Hframe).
      exists fs1. split; [|done]. by rewrite (run_bind _ _ fs fs1 r).
    - exists fs. done. }
  destruct (try_create_at_frame fs1 homeDir ".compatdata" (Link target) Hwf1
              eq_refl) as (fs2 & r & Hrun2 & Hwf2 & Hframe2).
  exists fs1, fs2, r. split; [done|]. split; [done|]. split; [done|].
  intros k Hk. rewrite Hframe2 by done. by apply Hframe1.
Qed.

(** C8: on a well-formed file system where the legacy path is a directory,
    nothing is at the new path, the new path does not lie inside the legacy
    directory and the [.compatdata] shortcut lies apart from both, the
    migration, given fuel beyond the depth of the legacy tree, returns
    without error; afterwards the legacy path is a link to the new
    directory and nothing lies below it, every regular file of the legacy
    tree is under the new directory at the same relative path with its bytes
    and its permission bits, every directory is there with its bits less the
    mask, no link is copied, and the session variable names the new path. *)
Theorem migration_copies_then_links (umask : N) (fuel : nat)
    (configuration : Configuration)
    (oldCompatData homeDir newCompatDataBase : list string)
    (fs : gmap (list string) node) (m : N) :
  let newCompatData :=
    filepath.Join newCompatDataBase (map_get (props configuration) "name") in
  let shortcut := filepath.Join homeDir ".compatdata" in
  wf fs = true →
  Forall (λ n, valid_name n = true) newCompatDataBase →
  os.lstat fs oldCompatData = inr (Dir m) →
  os.lstat fs newCompatData = inl ENOENT →
  ¬ oldCompatData `prefix_of` newCompatData →
  ¬ shortcut `prefix_of` oldCompatData →
  ¬ shortcut `prefix_of` newCompatData →
  ¬ oldCompatData `prefix_of` shortcut →
  height fs oldCompatData < fuel →
  ∃ fs',
    configureNewSteamCompatData umask fuel configuration oldCompatData
      homeDir newCompatDataBase fs
    = (fs',
       inr (set_Environment
              <[ "STEAM_COMPAT_DATA_PATH" := path_string newCompatData ]>
              configuration))
    ∧ wf fs' = true
    ∧ os.lstat fs' oldCompatData = inr (Link newCompatData)
    ∧ (∀ r, r ≠ [] → fs' !! (oldCompatData ++ r) = None)
    ∧ (∀ r, fs' !! (newCompatData ++ r)
            = copied umask (fs !! (oldCompatData ++ r)))
    ∧ (∀ r mode data,
         fs !! (oldCompatData ++ r) = Some (File mode data) →
         os.lstat fs' (newCompatData ++ r) = inr (File mode data)).
Proof.
  intros new shortcut Hwf Hbase Hold Hnew Hnot Hsc_old Hsc_new Hold_sc Hfuel.
  assert (Forall (λ n, valid_name n = true) new) as Hvalid
    by by apply Join_valid.
  assert (shortcut = homeDir ++ [".compatdata"]) as Hsc
    by by apply Join_name.
  unfold configureNewSteamCompatData. cbv zeta.
  fold new. fold shortcut. clearbody new shortcut. subst shortcut.
  (* the shortcut *)
  destruct (shortcut_replaced fs homeDir newCompatDataBase Hwf)
    as (fs0 & fsa & x & Hrun0 & Hruna & Hwfa & Hframe).
  rewrite (run_bind _ _ fs fs (os.lstat fs (homeDir ++ [".compatdata"])))
    by apply try_Lstat.
  rewrite (run_bind _ _ fs fs0 tt) by exact Hrun0.
  rewrite (run_bind _ _ fs0 fsa x) by exact Hruna.
  (* the legacy directory is a directory, the new path is free *)
  assert (∀ p, ¬ homeDir ++ [".compatdata"] `prefix_of` p →
            os.lstat fsa p = os.lstat fs p) as Hlstat.
  { intros p Hp. apply lstat_agree. intros q Hq. apply Hframe.
    intros ->. done. }
  assert (os.lstat fsa oldCompatData = inr (Dir m)) as Holda
    by by rewrite Hlstat.
  assert (os.lstat fsa new = inl ENOENT) as Hnewa by by rewrite Hlstat.
  rewrite (run_bind _ _ fsa fsa (os.lstat fsa oldCompatData))
    by apply try_Lstat.
  rewrite (run_bind _ _ fsa fsa (os.stat fsa new)) by apply try_Stat.
  rewrite Holda. unfold os.stat at 1 2.
  rewrite (follow_error _ _ _ _ Hnewa).
  cbn [notExist os.IsNotExist negb andb statsIsDir IsDir].
  rewrite (run_bind _ _ fsa fsa true) by reflexivity.
  cbv beta iota.
  (* the copy *)
  pose proof (lstat_inr _ _ _ Holda) as Holdk.
  destruct (lstat_ENOENT _ _ Hwfa Hnewa) as [Hnewk Hfree].
  assert (∀ k, oldCompatData `prefix_of` k → fsa !! k = fs !! k) as Hkept.
  { intros k Hk. apply Hframe. intros ->. done. }
  assert (¬ new `prefix_of` oldCompatData) as Hnot'.
  { intros H. destruct (decide (new = oldCompatData)) as [Heq|Hne];
      [congruence|].
    pose proof (wf_prefix _ _ _ _ Hwfa Holdk H Hne) as Hd.
    apply is_dir_Some in Hd as [? ?]. congruence. }
  destruct (CopyDir_spec umask fuel oldCompatData new fsa m)
    as (fsb & Hrunb & Hwfb & F1 & F2).
  { split; [done|]. split; [done|]. split; [done|]. split; [done|].
    split; [done|]. split; [done|].
    intros k Hk Hpre. rewrite Hkept in Hk by done.
    pose proof (height_bound fs oldCompatData k Hk Hpre).
    pose proof (prefix_length _ _ Hpre). lia. }
  unfold copyOldCompatDataToNew.
  rewrite (run_bind _ _ fsa fsb (inr tt)) by by apply run_try.
  cbv beta iota.
  (* the removal of the legacy directory *)
  assert (fsb !! oldCompatData = Some (Dir m)) as Holdb.
  { rewrite F1 by done. by rewrite Holdk. }
  destruct oldCompatData as [|n old _] using rev_ind.
  { destruct Hnot. apply prefix_nil. }
  assert (old ++ [n] ≠ []) as Hne by by destruct old.
  set (fsc := filter (λ kv : list string * node,
                        ¬ old ++ [n] `prefix_of` kv.1) fsb).
  rewrite (run_bind _ _ fsb fsc (inr tt))
    by (apply run_try; by apply (RemoveAll_node _ _ (Dir m))).
  cbv beta iota.
  (* the link *)
  pose proof (wf_filter_below fsb (old ++ [n]) Hwfb Hne) as Hwfc.
  fold fsc in Hwfc.
  destruct (wf_parent _ _ _ _ Hwfb Holdb) as [Hpar Hvn].
  assert (is_dir fsc old = true) as Hparc.
  { unfold is_dir, fsc. rewrite filter_below_keep; [done|].
    apply prefix_snoc_not. }
  assert (fsc !! (old ++ [n]) = None) as Hgone
    by by apply filter_below_drop.
  set (fsd := <[ old ++ [n] := Link new ]> fsc).
  rewrite (run_bind _ _ fsc fsd (inr tt))
    by (apply run_try; by apply create_at_new).
  assert (wf fsd = true) as Hwfd.
  { apply wf_insert; try done. unfold is_dir. by rewrite Hgone. }
  assert (∀ r, fsd !! (new ++ r) = copied umask (fs !! ((old ++ [n]) ++ r)))
    as Hcopy.
  { intros r.
    assert (¬ old ++ [n] `prefix_of` new ++ r) as Hout.
    { intros H.
      destruct (prefix_weak_total _ _ _ H (prefix_app_self new r)); done. }
    unfold fsd. rewrite lookup_insert_ne by (intros Heq; apply Hout; by rewrite Heq).
    unfold fsc. rewrite filter_below_keep by done.
    rewrite F2. f_equal. apply Hkept. apply prefix_app_self. }
  exists fsd. split; [reflexivity|]. split; [done|]. split; [|split; [|split]].
  - apply lstat_Some; [done|]. apply lookup_insert_eq.
  - intros r Hr. unfold fsd. rewrite lookup_insert_ne.
    2:{ intros Heq. destruct r as [|y r]; [done|].
        apply (f_equal length) in Heq. rewrite !length_app in Heq.
        simpl in Heq. lia. }
    apply filter_below_drop, prefix_app_self.
  - exact Hcopy.
  - intros r mode data Hfile. apply lstat_Some; [done|].
    by rewrite Hcopy, Hfile.
Qed.

Lemma migration_copies_then_links_witness :
  let oldCompatData := ["steam"; "1"] in
  let newCompatData :=
    filepath.Join ["data"; "plauncher"; "compatdata"]
      (map_get (props sessionExample) "name") in
  ∃ fs',
    configureNewSteamCompatData 18 5 sessionExample oldCompatData ["home"]
      ["data"; "plauncher"; "compatdata"] migrationExample
    = (fs',
       inr (set_Environment
              <[ "STEAM_COMPAT_DATA_PATH" := path_string newCompatData ]>
              sessionExample))
    ∧ wf fs' = true
    ∧ os.lstat fs' oldCompatData = inr (Link newCompatData)
    ∧ (∀ r, r ≠ [] → fs' !! (oldCompatData ++ r) = None)
    ∧ (∀ r, fs' !! (newCompatData ++ r)
            = copied 18 (migrationExample !! (oldCompatData ++ r)))
    ∧ (∀ r mode data,
         migrationExample !! (oldCompatData ++ r) = Some (File mode data) →
         os.lstat fs' (newCompatData ++ r) = inr (File mode data)).
Proof.
  apply (migration_copies_then_links 18 5 sessionExample ["steam"; "1"]
           ["home"] ["data"; "plauncher"; "compatdata"] migrationExample 448).
  - reflexivity.
  - repeat constructor.
  - reflexivity.
  - reflexivity.
  - apply (proj1 (bool_decide_eq_false _)). reflexivity.
  - apply (proj1 (bool_decide_eq_false _)). reflexivity.
  - apply (proj1 (bool_decide_eq_false _)). reflexivity.
  - apply (proj1 (bool_decide_eq_false _)). reflexivity.
  - vm_compute. lia.
Defined.

(** The example run: the file of the legacy directory is found under the new
    directory with its bytes and mode, the link is not. *)
Example migration_run :
  let fs' :=
    (configureNewSteamCompatData 18 5 sessionExample ["steam"; "1"] ["home"]
       ["data"; "plauncher"; "compatdata"] migrationExample).1 in
  fs' !! ["data"; "plauncher"; "compatdata"; "Game"; "pfx"; "user.reg"]
  = Some (File 384 "x=1")
  ∧ fs' !! ["data"; "plauncher"; "compatdata"; "Game"; "lnk"] = None
  ∧ fs' !! ["steam"; "1"]
    = Some (Link ["data"; "plauncher"; "compatdata"; "Game"])
  ∧ fs' !! ["steam"; "1"; "version"] = None.
Proof. vm_compute. done. Qed.
(** * More facts: the code around the claims *)

(** ** Short and long flags *)

(** [parseBooleanDashParam], field by field: a toggle takes [value] when its
    letter occurs in [arg], and nothing else changes. *)
Lemma parseBooleanDashParam_fields (arg : string) :
  ∀ (c : Configuration) (value : bool),
  parseBooleanDashParam c arg value
  = mkConfiguration (Environment c) (Wine c)
      (mkMangohud (if strings.Contains arg "m" then value
                   else Mangohud_Enabled (Mangohud c)))
      (mkGamemode (if strings.Contains arg "g" then value
                   else Gamemode_Enabled (Gamemode c)))
      (mkGamescope
         (if strings.Contains arg "G" then value
          else Gamescope_Enabled (Gamescope c))
         (if strings.Contains arg "h" then value
          else Gamescope_Hdr (Gamescope c))
         (Gamescope_Args (Gamescope c)))
      (mkEos (if strings.Contains arg "e" then value
              else Eos_Enabled (EosOverlay c)))
      (Umu c) (PreScripts c) (PostScripts c) (specialFlags c) (props c).
Proof.
  induction arg as [|a arg IH];
    intros [env w [m] [g] [gse gsh gsa] [e] u pre post sf pr] value.
  - reflexivity.
  - cbn [parseBooleanDashParam]. rewrite IH. unfold toggle. cbn [strings.Contains].
    repeat case_decide; subst; try done;
      repeat match goal with
             | |- context [strings.Contains arg ?x] =>
                 destruct (strings.Contains arg x)
             end; reflexivity.
Qed.

(** X1: a short-flag argument ([-Gh], [-!m], ...) gives [value] to exactly
    the toggles whose letters occur in it ([G] compositor, [g] gamemode, [h]
    HDR, [m] overlay, [e] EOS overlay), whatever the order and the number of
    the letters; the toggles not named keep their value, unknown letters are
    ignored, and no other field of the configuration changes. *)
Theorem short_flags_set_named_toggles (c : Configuration) (arg : string)
    (value : bool) :
  let c' := parseBooleanDashParam c arg value in
  let set (letter : ascii) (old : bool) :=
    if strings.Contains arg letter then value else old in
  Gamescope_Enabled (Gamescope c') = set "G"%char (Gamescope_Enabled (Gamescope c))
  ∧ Gamemode_Enabled (Gamemode c') = set "g"%char (Gamemode_Enabled (Gamemode c))
  ∧ Gamescope_Hdr (Gamescope c') = set "h"%char (Gamescope_Hdr (Gamescope c))
  ∧ Mangohud_Enabled (Mangohud c') = set "m"%char (Mangohud_Enabled (Mangohud c))
  ∧ Eos_Enabled (EosOverlay c') = set "e"%char (Eos_Enabled (EosOverlay c))
  ∧ Gamescope_Args (Gamescope c') = Gamescope_Args (Gamescope c)
  ∧ Environment c' = Environment c ∧ Wine c' = Wine c ∧ Umu c' = Umu c
  ∧ PreScripts c' = PreScripts c ∧ PostScripts c' = PostScripts c
  ∧ specialFlags c' = specialFlags c ∧ props c' = props c.
Proof.
  intros c' set. subst c' set. rewrite parseBooleanDashParam_fields.
  repeat split.
Qed.

(** The flags before the command are parsed one after the other, and the
    loop returns at the command. *)
Lemma argvLoop_flags (flags : list string) (cmd : string) (rest : list string) :
  Forall (λ a, flagPrefixed a = true) flags → flagPrefixed cmd = false →
  ∀ (i : nat) (c : Configuration), i ≠ 0 →
  argvLoop i (flags ++ cmd :: rest) c
  = (foldl (λ c a, default c (parseFlag c a)) c flags, Some (i + length flags)).
Proof.
  intros Hflags Hcmd. induction Hflags as [|a flags Ha _ IH]; intros i c Hi.
  - cbn [app argvLoop foldl length]. rewrite decide_False by done.
    rewrite (proj2 (parseFlag_None c cmd) Hcmd). by rewrite Nat.add_0_r.
  - cbn [app argvLoop foldl length]. rewrite decide_False by done.
    destruct (parseFlag c a) as [c'|] eqn:Hp.
    + rewrite IH by lia. cbn [default]. do 2 f_equal. lia.
    + apply parseFlag_None in Hp. congruence.
Qed.

Lemma enrichConfigurationWithArgvFlags_flags (c : Configuration)
    (prog cmd : string) (flags rest : list string) :
  Forall (λ a, flagPrefixed a = true) flags → flagPrefixed cmd = false →
  enrichConfigurationWithArgvFlags c (prog :: flags ++ cmd :: rest)
  = (foldl (λ c a, default c (parseFlag c a)) c flags,
     (Z.of_nat (S (length flags)), None)).
Proof.
  intros Hflags Hcmd. unfold enrichConfigurationWithArgvFlags.
  cbn [argvLoop]. rewrite decide_True by done.
  by rewrite (argvLoop_flags flags cmd rest Hflags Hcmd 1 c).
Qed.

(** X2: flag parsing reads the flags from left to right and nothing else:
    the program name and the arguments after the command (the first
    argument that is no flag) have no influence on the configuration or on
    the index returned, so a game's own [-flag] is never taken for a
    launcher flag; and parsing two runs of flags at once is parsing the
    second run on the configuration the first run left. *)
Theorem flag_parsing_reads_flags_in_order (c : Configuration)
    (prog prog' cmd : string) (flags1 flags2 rest rest' : list string) :
  Forall (λ a, flagPrefixed a = true) flags1 →
  Forall (λ a, flagPrefixed a = true) flags2 →
  flagPrefixed cmd = false →
  enrichConfigurationWithArgvFlags c (prog :: flags1 ++ cmd :: rest)
  = enrichConfigurationWithArgvFlags c (prog' :: flags1 ++ cmd :: rest')
  ∧ (enrichConfigurationWithArgvFlags c (prog :: flags1 ++ cmd :: rest)).2
    = (Z.of_nat (S (length flags1)), None)
  ∧ (enrichConfigurationWithArgvFlags c
       (prog :: (flags1 ++ flags2) ++ cmd :: rest)).1
    = (enrichConfigurationWithArgvFlags
         (enrichConfigurationWithArgvFlags c (prog :: flags1 ++ cmd :: rest)).1
         (prog :: flags2 ++ cmd :: rest)).1.
Proof.
  intros H1 H2 Hcmd.
  rewrite !enrichConfigurationWithArgvFlags_flags
    by (done || by apply Forall_app).
  by rewrite foldl_app.
Qed.

Lemma flag_parsing_reads_flags_in_order_witness :
  enrichConfigurationWithArgvFlags defaultConfiguration
    ("plauncher" :: ["-Gh"] ++ "game.exe" :: ["-fullscreen"])
  = enrichConfigurationWithArgvFlags defaultConfiguration
      ("/usr/bin/plauncher" :: ["-Gh"] ++ "game.exe" :: [])
  ∧ (enrichConfigurationWithArgvFlags defaultConfiguration
       ("plauncher" :: ["-Gh"] ++ "game.exe" :: ["-fullscreen"])).2
    = (Z.of_nat (S (length ["-Gh"])), None)
  ∧ (enrichConfigurationWithArgvFlags defaultConfiguration
       ("plauncher" :: (["-Gh"] ++ ["--name=Game"; "-!G"])
          ++ "game.exe" :: ["-fullscreen"])).1
    = (enrichConfigurationWithArgvFlags
         (enrichConfigurationWithArgvFlags defaultConfiguration
            ("plauncher" :: ["-Gh"] ++ "game.exe" :: ["-fullscreen"])).1
         ("plauncher" :: ["--name=Game"; "-!G"]
            ++ "game.exe" :: ["-fullscreen"])).1.
Proof.
  apply (flag_parsing_reads_flags_in_order defaultConfiguration "plauncher"
           "/usr/bin/plauncher" "game.exe" ["-Gh"] ["--name=Game"; "-!G"]
           ["-fullscreen"] []).
  - repeat constructor.
  - repeat constructor.
  - reflexivity.
Defined.

(** X3: an override merge erases what the short flags set and keeps what
    the long flags stored: merging onto a configuration that went through
    [parseBooleanDashParam] gives the same result as merging onto the
    configuration before it, and the merge leaves [props] and
    [specialFlags], where [parseDoubleDashParam] writes, as they are. *)
Theorem override_merge_erases_short_flags (c override : Configuration)
    (arg : string) (value : bool) :
  applyConfigOverrides (parseBooleanDashParam c arg value) override
  = applyConfigOverrides c override
  ∧ props (applyConfigOverrides (parseDoubleDashParam c arg) override)
    = props (parseDoubleDashParam c arg)
  ∧ specialFlags (applyConfigOverrides (parseDoubleDashParam c arg) override)
    = specialFlags (parseDoubleDashParam c arg).
Proof.
  rewrite !applyConfigOverrides_fields, parseBooleanDashParam_fields.
  done.
Qed.

(** ** [strings.Split] and [strings.Join] *)

Lemma Join_cons (e : string) (rest : list string) (sep : string) :
  rest ≠ [] →
  strings.Join (e :: rest) sep = e +:+ sep +:+ strings.Join rest sep.
Proof. by destruct rest. Qed.

Lemma string_app_nil_r (s : string) : s +:+ EmptyString = s.
Proof. induction s as [|c r IH]; [done|]. by rewrite string_app_cons, IH. Qed.

(** Joining the pieces of a split with the separator gives the text back. *)
Lemma Join_Split (s : string) (sep : ascii) :
  strings.Join (strings.Split s sep) (String sep EmptyString) = s.
Proof.
  induction s as [|c r IH]; [done|]. cbn [strings.Split].
  destruct (decide (c = sep)) as [->|Hne].
  - rewrite Join_cons by apply Split_not_nil. by rewrite IH.
  - destruct (strings.Split r sep) as [|w ws] eqn:Hs.
    { by destruct (Split_not_nil r sep). }
    destruct ws as [|w' ws].
    + cbn [strings.Join] in *. by rewrite IH.
    + rewrite Join_cons by done. rewrite Join_cons in IH by done.
      by rewrite string_app_cons, IH.
Qed.

Lemma Join_app (l1 l2 : list string) (sep : string) :
  l1 ≠ [] → l2 ≠ [] →
  strings.Join (l1 ++ l2) sep
  = strings.Join l1 sep +:+ sep +:+ strings.Join l2 sep.
Proof.
  intros H1 H2. induction l1 as [|e l1 IH]; [done|].
  destruct l1 as [|e' l1].
  - cbn [app]. by rewrite Join_cons.
  - rewrite <- app_comm_cons. rewrite Join_cons by done.
    rewrite IH by done. rewrite (Join_cons e) by done.
    by rewrite !app_assoc_string.
Qed.

Lemma pieces_cons (a : string) (args : list string) :
  mjoin ((λ arg, strings.Split arg " "%char) <$> a :: args)
  = strings.Split a " "%char
    ++ mjoin ((λ arg, strings.Split arg " "%char) <$> args).
Proof. reflexivity. Qed.

Lemma appendSplitArgs_concat (args newCmd : list string) :
  appendSplitArgs newCmd args
  = newCmd ++ mjoin ((λ arg, strings.Split arg " "%char) <$> args).
Proof.
  unfold appendSplitArgs. revert newCmd.
  induction args as [|a args IH]; intros newCmd.
  - by rewrite app_nil_r.
  - rewrite pieces_cons. cbn [foldl]. rewrite IH, foldl_snoc_all.
    by rewrite app_assoc.
Qed.

Lemma Join_pieces (args : list string) :
  strings.Join (mjoin ((λ arg, strings.Split arg " "%char) <$> args)) " "
  = strings.Join args " ".
Proof.
  induction args as [|a args IH]; [done|].
  rewrite pieces_cons.
  destruct args as [|a' args].
  - change (mjoin ((λ arg, strings.Split arg " "%char) <$> [])) with (@nil string).
    rewrite app_nil_r. apply Join_Split.
  - rewrite Join_app.
    + rewrite IH, Join_Split. by rewrite (Join_cons a).
    + apply Split_not_nil.
    + rewrite pieces_cons.
      pose proof (Split_not_nil a' " "). by destruct (strings.Split a' " ").
Qed.

(** ** [stripUnecessaryData] *)

Lemma stripUnecessaryData_lookup (c : Configuration) (key : string) :
  Environment (stripUnecessaryData c) !! key
  = if bool_decide (key ∈ ["STEAM_COMPAT_DATA_PATH"; "MANGOHUD";
                           "DISABLE_MANGOAPP"; "MANGOHUD_CONFIGFILE"])
    then None else Environment c !! key.
Proof.
  unfold stripUnecessaryData. cbv zeta.
  autorewrite with conf. rewrite !lookup_delete.
  repeat case_decide; subst; case_bool_decide as Hin; try done;
    try (destruct Hin; set_solver); set_solver.
Qed.

(** Two configurations that differ only in the four variables are stripped
    to the same one. *)
Lemma stripUnecessaryData_ext (c1 c2 : Configuration) :
  (∀ key, key ∉ ["STEAM_COMPAT_DATA_PATH"; "MANGOHUD";
                 "DISABLE_MANGOAPP"; "MANGOHUD_CONFIGFILE"] →
          Environment c1 !! key = Environment c2 !! key) →
  set_Environment (λ _, ∅) c1 = set_Environment (λ _, ∅) c2 →
  stripUnecessaryData c1 = stripUnecessaryData c2.
Proof.
  intros Hout Hrest.
  assert (Environment (stripUnecessaryData c1)
          = Environment (stripUnecessaryData c2)) as Henv.
  { apply map_eq. intros key. rewrite !stripUnecessaryData_lookup.
    case_bool_decide; [done|]. by apply Hout. }
  destruct c1 as [e1 w1 m1 g1 gs1 eo1 u1 pr1 po1 sf1 p1],
    c2 as [e2 w2 m2 g2 gs2 eo2 u2 pr2 po2 sf2 p2].
  unfold stripUnecessaryData, set_Environment in *.
  cbn [Environment Wine Mangohud Gamemode Gamescope EosOverlay Umu
       PreScripts PostScripts specialFlags props] in *.
  injection Hrest as -> -> -> -> -> -> -> -> -> ->. by rewrite Henv.
Qed.

Lemma stripUnecessaryData_twice (c : Configuration) :
  stripUnecessaryData (stripUnecessaryData c) = stripUnecessaryData c.
Proof.
  apply stripUnecessaryData_ext; [|by destruct c].
  intros key Hkey. rewrite stripUnecessaryData_lookup.
  by rewrite bool_decide_eq_false_2.
Qed.

(** ** The stages of the assembly *)

Section AssemblyFacts.
Context {W : Type}.
Variable which_output : string → option string.
Variable TrimSpace : string → string.
Variable filepath_Join : list string → string.
Variable LookupEnv : string → option string.
Variable os_Stat : W → string → stat_result.
Variable os_MkdirAll : string → N → W → W.

Local Abbreviation checkBin := (checkIfBinExists which_output TrimSpace).
Local Abbreviation mangohudStage :=
  (enrichCommandWithMangohud which_output TrimSpace filepath_Join).
Local Abbreviation gamemodeStage :=
  (enrichCommandWithGamemode which_output TrimSpace).
Local Abbreviation gamescopeStage :=
  (enrichCommandWithGamescope which_output TrimSpace).
Local Abbreviation umuStage :=
  (enrichCommandWithUmu which_output TrimSpace filepath_Join LookupEnv
     os_Stat os_MkdirAll).
Local Abbreviation assemble :=
  (assembleCommand which_output TrimSpace filepath_Join LookupEnv
     os_Stat os_MkdirAll).

(** The compositor stage, when it applies: the binary, the pieces of the
    arguments, to which the stage adds the HDR token when HDR is asked for
    and the token is not among them, and the separator. *)
Lemma enrichCommandWithGamescope_applies cur c dir stdout :
  Gamescope_Enabled (Gamescope c) = true →
  which_output GAMESCOPE_BIN_NAME = Some stdout →
  let args :=
    if Gamescope_Hdr (Gamescope c)
       && negb (slices_Contains (Gamescope_Args (Gamescope c))
                  GAMESCOPE_HDR_ARGV)
    then Gamescope_Args (Gamescope c) ++ [GAMESCOPE_HDR_ARGV]
    else Gamescope_Args (Gamescope c) in
  (gamescopeStage cur c dir).1
  = cur ++ [(checkBin GAMESCOPE_BIN_NAME).1]
      ++ mjoin ((λ arg, strings.Split arg " "%char) <$> args) ++ ["--"]
  ∧ Gamescope_Args (Gamescope (gamescopeStage cur c dir).2) = args
  ∧ Umu (gamescopeStage cur c dir).2 = Umu c
  ∧ props (gamescopeStage cur c dir).2 = props c.
Proof.
  intros He Hw. unfold enrichCommandWithGamescope.
  pose proof (checkIfBinExists_found which_output TrimSpace _ _ Hw) as Hex.
  destruct (checkBin GAMESCOPE_BIN_NAME) as [cmd ex]. simpl in Hex. subst ex.
  rewrite He. cbn [andb fst snd].
  rewrite appendSplitArgs_concat, <- !app_assoc.
  destruct (Gamescope_Hdr (Gamescope c)); [|done].
  by destruct (negb _).
Qed.

(** Every stage only appends to the command. *)
Lemma enrichCommandWithGamescope_appends cur c dir :
  ∃ mid, (gamescopeStage cur c dir).1 = cur ++ mid.
Proof.
  unfold enrichCommandWithGamescope.
  destruct (checkBin GAMESCOPE_BIN_NAME) as [cmd ex].
  destruct (_ && _); cbn [fst].
  - rewrite appendSplitArgs_concat, <- !app_assoc. eauto.
  - exists []. by rewrite app_nil_r.
Qed.

Lemma enrichCommandWithGamemode_appends cur c :
  ∃ mid, gamemodeStage cur c = cur ++ mid.
Proof.
  unfold enrichCommandWithGamemode.
  destruct (checkBin GAMEMODE_BIN_NAME) as [cmd ex].
  destruct (_ && _); [eauto|]. exists []. by rewrite app_nil_r.
Qed.

Lemma assembleCommand_suffix c dir base nonFlagArgs w command c' w' :
  assemble c dir base nonFlagArgs w = Done (command, c', w') →
  ∃ wrappers, command = wrappers ++ nonFlagArgs.
Proof.
  unfold assembleCommand.
  destruct (mangohudStage [] c dir) as [cmd0 c0].
  destruct (gamescopeStage (gamemodeStage cmd0 c0) c0 dir) as [cmd1 c1].
  destruct (umuStage cmd1 c1 base w) as [[[cmd2 c2] w2]| |]; [|done..].
  intros [= <- _ _]. eauto.
Qed.

(** X4: when the compositor stage applies, what it puts between the
    compositor binary and the [--] separator are the configured arguments
    (with the HDR token if the stage added it) cut at every blank: no token
    holds a blank, and the tokens joined by single blanks read as the
    arguments joined by single blanks, so an argument such as [-W 1920]
    reaches the compositor as two tokens and nothing is lost or added. *)
Theorem gamescope_stage_splits_at_blanks (cur : list string)
    (c : Configuration) (userConfigDir stdout : string) :
  Gamescope_Enabled (Gamescope c) = true →
  which_output GAMESCOPE_BIN_NAME = Some stdout →
  ∃ tokens,
    (gamescopeStage cur c userConfigDir).1
    = cur ++ [(checkBin GAMESCOPE_BIN_NAME).1] ++ tokens ++ ["--"]
    ∧ Forall (λ token, strings.Contains token " " = false) tokens
    ∧ strings.Join tokens " "
      = strings.Join
          (Gamescope_Args (Gamescope (gamescopeStage cur c userConfigDir).2))
          " ".
Proof.
  intros He Hw.
  destruct (enrichCommandWithGamescope_applies cur c userConfigDir stdout He Hw)
    as (Hcmd & Hargs & _ & _).
  eexists. split; [exact Hcmd|]. split; [|rewrite Hargs; apply Join_pieces].
  apply Forall_forall. intros token Hin.
  apply list_elem_of_join in Hin as (pieces & Hin & Hp).
  apply list_elem_of_fmap in Hp as (arg & -> & _).
  pose proof (Split_pieces arg " ") as Hall.
  rewrite Forall_forall in Hall. by apply Hall.
Qed.

(** X5: whenever flag parsing returns an index and the assembly, run on the
    arguments from that index on, returns a command, the command is not
    empty: it is some wrappers, then the game command (the first argument
    that is no flag), then the arguments after it, unchanged and in their
    order.  This holds whatever happened to the configuration between
    parsing and assembly. *)
Theorem assembled_command_holds_the_game (c c' c'' : Configuration)
    (args command : list string) (i : nat)
    (userConfigDir compatDataBase : string) (w w' : W) :
  (enrichConfigurationWithArgvFlags c args).2 = (Z.of_nat i, None) →
  assemble c' userConfigDir compatDataBase (drop i args) w
  = Done (command, c'', w') →
  ∃ wrappers game,
    command = wrappers ++ game :: drop (S i) args
    ∧ args !! i = Some game ∧ flagPrefixed game = false.
Proof.
  intros Hparse Hrun.
  destruct (assembleCommand_suffix _ _ _ _ _ _ _ _ Hrun) as [wrappers ->].
  unfold enrichConfigurationWithArgvFlags in Hparse.
  pose proof (argvLoop_from_zero args c) as Hloop.
  destruct (argvLoop 0 args c) as [c0 [j|]]; simpl in *; [|congruence].
  injection Hparse as Hj. apply Nat2Z.inj in Hj. subst j.
  destruct Hloop as (_ & (game & Hgame & Hno) & _).
  exists wrappers, game. split; [|done].
  by rewrite (drop_S _ _ _ Hgame).
Qed.

(** X6: on a host where none of the four wrapper binaries is found, the
    assembly never ends the process and changes nothing: the command is the
    game's arguments alone and the configuration is the one given, even
    with every feature enabled and no game name set. *)
Theorem no_wrapper_found_runs_the_game_alone (c : Configuration)
    (userConfigDir compatDataBase : string) (nonFlagArgs : list string)
    (w : W) :
  which_output MANGOHUD_BIN_NAME = None →
  which_output GAMEMODE_BIN_NAME = None →
  which_output GAMESCOPE_BIN_NAME = None →
  which_output UMU_RUN_BIN_NAME = None →
  assemble c userConfigDir compatDataBase nonFlagArgs w
  = Done (nonFlagArgs, c, w).
Proof.
  intros Hm Hg Hs Hu.
  unfold assembleCommand, enrichCommandWithMangohud, enrichCommandWithGamemode,
    enrichCommandWithGamescope, enrichCommandWithUmu, checkIfBinExists.
  rewrite Hm, Hg, Hs, Hu. by rewrite !andb_false_r.
Qed.

(** X7: with gamemode, the compositor and the runner all found and enabled
    outside a session, the wrappers nest in a fixed order: the gamemode
    binary, the compositor binary with the pieces of its arguments and
    [--], the runner binary with its configured arguments, and last the
    game's arguments. *)
Theorem wrappers_nest_in_fixed_order (c : Configuration)
    (userConfigDir compatDataBase : string) (nonFlagArgs : list string)
    (w : W) (outGamemode outGamescope outUmu name : string) :
  which_output GAMEMODE_BIN_NAME = Some outGamemode →
  which_output GAMESCOPE_BIN_NAME = Some outGamescope →
  which_output UMU_RUN_BIN_NAME = Some outUmu →
  Gamemode_Enabled (Gamemode c) = true →
  Gamescope_Enabled (Gamescope c) = true →
  Umu_Enabled (Umu c) = true →
  LookupEnv "STEAM_COMPAT_DATA_PATH" = None →
  props c !! "name" = Some name →
  os_Stat w (Umu_Proton (Umu c)) = StatInfo true →
  ∃ tokens c' w',
    assemble c userConfigDir compatDataBase nonFlagArgs w
    = Done ([(checkBin GAMEMODE_BIN_NAME).1; (checkBin GAMESCOPE_BIN_NAME).1]
            ++ tokens
            ++ ["--"; (checkBin UMU_RUN_BIN_NAME).1]
            ++ Umu_Args (Umu c) ++ nonFlagArgs, c', w')
    ∧ strings.Join tokens " "
      = strings.Join
          (if Gamescope_Hdr (Gamescope c)
              && negb (slices_Contains (Gamescope_Args (Gamescope c))
                         GAMESCOPE_HDR_ARGV)
           then Gamescope_Args (Gamescope c) ++ [GAMESCOPE_HDR_ARGV]
           else Gamescope_Args (Gamescope c)) " ".
Proof.
  intros Hgm Hgs Hum Egm Egs Eum Henv Hname Hstat. unfold assembleCommand.
  pose proof (enrichCommandWithMangohud_keeps which_output TrimSpace
                filepath_Join [] c userConfigDir) as Hm.
  assert (props (mangohudStage [] c userConfigDir).2 = props c) as Hpm.
  { unfold enrichCommandWithMangohud.
    destruct (checkBin MANGOHUD_BIN_NAME) as [? ?]. by destruct (_ && _). }
  destruct (mangohudStage [] c userConfigDir) as [cmd0 c0].
  simpl in Hm, Hpm. destruct Hm as (-> & Hgs0 & Hgm0 & Hu0).
  assert (gamemodeStage [] c0 = [(checkBin GAMEMODE_BIN_NAME).1]) as ->.
  { unfold enrichCommandWithGamemode.
    pose proof (checkIfBinExists_found which_output TrimSpace _ _ Hgm) as Hex.
    destruct (checkBin GAMEMODE_BIN_NAME) as [cmd ex]. simpl in Hex. subst ex.
    by rewrite Hgm0, Egm. }
  destruct (enrichCommandWithGamescope_applies
              [(checkBin GAMEMODE_BIN_NAME).1] c0 userConfigDir outGamescope)
    as (Hcmd & _ & Hu1 & Hp1); [by rewrite Hgs0|done|].
  rewrite Hgs0 in Hcmd.
  destruct (gamescopeStage _ c0 userConfigDir) as [cmd1 c1].
  cbn [fst snd] in Hcmd, Hu1, Hp1.
  destruct (enrichCommandWithUmu_applies which_output TrimSpace filepath_Join
              LookupEnv os_Stat os_MkdirAll cmd1 c1 compatDataBase w outUmu
              name)
    as (c2 & Hrun & Hid); try done.
  { by rewrite Hu1, Hu0. }
  { by rewrite Hp1, Hpm. }
  { by rewrite Hu1, Hu0. }
  rewrite Hrun, Hu1, Hu0, Hcmd.
  eexists _, c2, _. split; [|apply Join_pieces].
  do 3 f_equal. by rewrite <- !app_assoc.
Qed.

Lemma setGameId_other (c : Configuration) (k : string) :
  k ≠ "GAMEID" → Environment (setGameId c) !! k = Environment c !! k.
Proof.
  intros Hk. unfold setGameId. cbv zeta.
  destruct (props c !! "id") as [id|]; [destruct (decide (id ≠ EmptyString))|];
    autorewrite with conf;
    repeat match goal with
           | |- context [match ?m !! "GAMEID" with _ => _ end] =>
               destruct (m !! "GAMEID") as [g|]; [destruct (decide (g = EmptyString))|]
           end;
    autorewrite with conf; rewrite ?lookup_insert_ne by done; done.
Qed.

(** X8: the runner stage leaves command, configuration and host as they are
    when the runner binary is not found, when the launcher runs under a
    compatibility session, or when the runner is disabled.  When it applies
    and a name is set, it goes on only if the configured runner path is a
    directory: a path that is missing or is no directory ends the process
    with the message about the path, before any directory is made, and any
    other error of the look-up makes the stage panic. *)
Theorem umu_stage_outcomes (cur : list string) (c : Configuration)
    (compatDataBase : string) (w : W) :
  (which_output UMU_RUN_BIN_NAME = None
   ∨ is_Some (LookupEnv "STEAM_COMPAT_DATA_PATH")
   ∨ Umu_Enabled (Umu c) = false →
   umuStage cur c compatDataBase w = Done (cur, c, w))
  ∧ (is_Some (which_output UMU_RUN_BIN_NAME) →
     LookupEnv "STEAM_COMPAT_DATA_PATH" = None →
     Umu_Enabled (Umu c) = true → is_Some (props c !! "name") →
     match os_Stat w (Umu_Proton (Umu c)) with
     | StatInfo true =>
         ∃ command c' w',
           umuStage cur c compatDataBase w = Done (command, c', w')
     | StatOtherError => umuStage cur c compatDataBase w = Panic
     | _ =>
         umuStage cur c compatDataBase w
         = Fatal "Specified proton path is does not exist or is not a directory"
     end).
Proof.
  split.
  - intros H. unfold enrichCommandWithUmu, checkIfBinExists.
    destruct (which_output UMU_RUN_BIN_NAME) as [out|]; [|done].
    destruct H as [H|[H|H]]; [done| |].
    + by rewrite (bool_decide_eq_true_2 _ H).
    + by rewrite H, andb_false_r.
  - intros [out Hw] Henv Hen [name Hname].
    unfold enrichCommandWithUmu, checkIfBinExists. rewrite Hw, Henv, Hen, Hname.
    change (negb (bool_decide (is_Some (@None string))) && true) with true.
    cbv iota.
    destruct (os_Stat w (Umu_Proton (Umu c))) as [[|]| |]; eauto.
Qed.

(** X9: when the runner stage applies and goes through, it makes the prefix
    directory [compatDataBase/name] with mode 0755 and hands the child the
    prefix path as [WINEPREFIX], the configured runner path as [PROTONPATH]
    and the configured store as [STORE], overwriting entries of these names;
    apart from these three and [GAMEID] the environment is the configured
    one, and the command is the command so far, the runner binary and the
    configured runner arguments in their order. *)
Theorem umu_stage_environment (cur : list string) (c : Configuration)
    (compatDataBase stdout name : string) (w : W) :
  which_output UMU_RUN_BIN_NAME = Some stdout →
  LookupEnv "STEAM_COMPAT_DATA_PATH" = None →
  Umu_Enabled (Umu c) = true →
  props c !! "name" = Some name →
  os_Stat w (Umu_Proton (Umu c)) = StatInfo true →
  ∃ c',
    umuStage cur c compatDataBase w
    = Done (cur ++ (checkBin UMU_RUN_BIN_NAME).1 :: Umu_Args (Umu c), c',
            os_MkdirAll (filepath_Join [filepath_Join [compatDataBase; name]])
              DEFAULT_PERMISSION w)
    ∧ Environment c' !! "WINEPREFIX"
      = Some (filepath_Join [compatDataBase; name])
    ∧ Environment c' !! "PROTONPATH" = Some (Umu_Proton (Umu c))
    ∧ Environment c' !! "STORE" = Some (Umu_Store (Umu c))
    ∧ (∀ key, key ∉ ["GAMEID"; "WINEPREFIX"; "PROTONPATH"; "STORE"] →
         Environment c' !! key = Environment c !! key)
    ∧ props c' = props c ∧ Umu c' = Umu c.
Proof.
  intros Hw Henv Hen Hname Hstat. unfold enrichCommandWithUmu.
  pose proof (checkIfBinExists_found which_output TrimSpace _ _ Hw) as Hex.
  destruct (checkBin UMU_RUN_BIN_NAME) as [umuBin ex]. simpl in Hex. subst ex.
  rewrite Henv, Hen, Hname, Hstat.
  change (negb (bool_decide (is_Some (@None string))) && true) with true.
  cbv iota zeta.
  destruct (setGameId_lookup c) as (_ & Hu & Hp).
  pose proof (setGameId_other c) as Hother.
  unfold map_get. rewrite Hname. autorewrite with conf.
  rewrite Hu, foldl_snoc_all, <- app_assoc. cbn [default app].
  destruct (decide (Umu_GameId (Umu c) ≠ EmptyString));
    autorewrite with conf; rewrite ?Hu; eexists; (split; [reflexivity|]);
    autorewrite with conf; rewrite ?Hp, ?Hu;
    (split; [by rewrite ?lookup_insert_ne by done; rewrite lookup_insert_eq|]);
    (split; [by rewrite ?lookup_insert_ne by done; rewrite lookup_insert_eq|]);
    (split; [by rewrite lookup_insert_eq|]);
    (split; [|done]);
    intros key Hkey; rewrite !lookup_insert_ne by set_solver;
    apply Hother; set_solver.
Qed.

(** X10: [stripUnecessaryData] takes out of the environment exactly the four
    variables the launcher injects for its own use, so a configuration saved
    after the overlay stage or after the migration is the one that would
    have been saved before them; stripping twice is stripping once. *)
Theorem stripUnecessaryData_undoes_injections (cur : list string)
    (c : Configuration) (userConfigDir path : string) :
  stripUnecessaryData (mangohudStage cur c userConfigDir).2
  = stripUnecessaryData c
  ∧ stripUnecessaryData
      (set_Environment <[ "STEAM_COMPAT_DATA_PATH" := path ]> c)
    = stripUnecessaryData c
  ∧ stripUnecessaryData (stripUnecessaryData c) = stripUnecessaryData c
  ∧ ∀ key,
      Environment (stripUnecessaryData c) !! key
      = if bool_decide (key ∈ ["STEAM_COMPAT_DATA_PATH"; "MANGOHUD";
                               "DISABLE_MANGOAPP"; "MANGOHUD_CONFIGFILE"])
        then None else Environment c !! key.
Proof.
  split; [|split; [|split]].
  - unfold enrichCommandWithMangohud.
    destruct (checkBin MANGOHUD_BIN_NAME) as [? ex].
    destruct (_ && _); cbn [snd]; [|done].
    apply stripUnecessaryData_ext; [|by destruct c].
    intros key Hkey. autorewrite with conf.
    rewrite !lookup_insert_ne by set_solver. done.
  - apply stripUnecessaryData_ext; [|by destruct c].
    intros key Hkey. autorewrite with conf.
    rewrite lookup_insert_ne by set_solver. done.
  - apply stripUnecessaryData_twice.
  - apply stripUnecessaryData_lookup.
Qed.

End AssemblyFacts.

Lemma gamescope_stage_splits_at_blanks_witness :
  ∃ tokens,
    (enrichCommandWithGamescope wrappersWhich trimSpace ["gamemoderun"]
       wrappersExample "/home/u/.config").1
    = ["gamemoderun"] ++ ["/usr/bin/gamescope"] ++ tokens ++ ["--"]
    ∧ Forall (λ token, strings.Contains token " " = false) tokens
    ∧ strings.Join tokens " "
      = strings.Join
          (Gamescope_Args
             (Gamescope
                (enrichCommandWithGamescope wrappersWhich trimSpace
                   ["gamemoderun"] wrappersExample "/home/u/.config").2))
          " ".
Proof.
  exact (gamescope_stage_splits_at_blanks wrappersWhich trimSpace
           ["gamemoderun"] wrappersExample "/home/u/.config"
           ("/usr/bin/gamescope" +:+ newline) eq_refl eq_refl).
Defined.

Lemma assembled_command_holds_the_game_witness :
  ∃ wrappers game,
    ["/usr/bin/gamescope"; "--foo"; "--hdr-enabled"; "--"; "game.exe";
     "-fullscreen"]
    = wrappers ++ game :: drop 4 flagsExample
    ∧ flagsExample !! 3 = Some game ∧ flagPrefixed game = false.
Proof.
  exact (assembled_command_holds_the_game exampleWhich trimSpace joinPlain
           exampleLookupEnv exampleStat (λ _ _ w, w) defaultConfiguration
           gamescopeExample
           (enrichCommandWithGamescope exampleWhich trimSpace []
              gamescopeExample "/home/u/.config").2
           flagsExample
           ["/usr/bin/gamescope"; "--foo"; "--hdr-enabled"; "--"; "game.exe";
            "-fullscreen"]
           3 "/home/u/.config" "/home/u/.local/share/plauncher/compatdata"
           tt tt eq_refl eq_refl).
Defined.

Lemma no_wrapper_found_runs_the_game_alone_witness :
  assembleCommand (λ _, None) trimSpace joinPlain exampleLookupEnv exampleStat
    (λ _ _ w, w) wrappersExample "/home/u/.config"
    "/home/u/.local/share/plauncher/compatdata" ["game.exe"] tt
  = Done (["game.exe"], wrappersExample, tt).
Proof.
  exact (no_wrapper_found_runs_the_game_alone (λ _, None) trimSpace joinPlain
           exampleLookupEnv exampleStat (λ _ _ w, w) wrappersExample
           "/home/u/.config" "/home/u/.local/share/plauncher/compatdata"
           ["game.exe"] tt eq_refl eq_refl eq_refl eq_refl).
Defined.

Lemma wrappers_nest_in_fixed_order_witness :
  ∃ tokens c' w',
    assembleCommand wrappersWhich trimSpace joinPlain exampleLookupEnv
      exampleStat (λ _ _ w, w) wrappersExample "/home/u/.config"
      "/home/u/.local/share/plauncher/compatdata" ["game.exe"] tt
    = Done (["/usr/bin/gamemoderun"; "/usr/bin/gamescope"] ++ tokens
            ++ ["--"; "/usr/bin/umu-run"] ++ ["--verb"] ++ ["game.exe"],
            c', w')
    ∧ strings.Join tokens " " = "-W 1920 -f --hdr-enabled".
Proof.
  exact (wrappers_nest_in_fixed_order wrappersWhich trimSpace joinPlain
           exampleLookupEnv exampleStat (λ _ _ w, w) wrappersExample
           "/home/u/.config" "/home/u/.local/share/plauncher/compatdata"
           ["game.exe"] tt ("/usr/bin/gamemoderun" +:+ newline)
           ("/usr/bin/gamescope" +:+ newline) ("/usr/bin/umu-run" +:+ newline)
           "Game" eq_refl eq_refl eq_refl eq_refl eq_refl eq_refl eq_refl
           eq_refl eq_refl).
Defined.

Lemma umu_stage_environment_witness :
  ∃ c',
    enrichCommandWithUmu wrappersWhich trimSpace joinPlain exampleLookupEnv
      exampleStat (λ _ _ w, w) ["gamemoderun"] wrappersExample "/data" tt
    = Done (["gamemoderun"] ++ "/usr/bin/umu-run" :: ["--verb"], c', tt)
    ∧ Environment c' !! "WINEPREFIX" = Some "/data/Game"
    ∧ Environment c' !! "PROTONPATH" = Some "/opt/proton"
    ∧ Environment c' !! "STORE" = Some "egs"
    ∧ (∀ key, key ∉ ["GAMEID"; "WINEPREFIX"; "PROTONPATH"; "STORE"] →
         Environment c' !! key = Environment wrappersExample !! key)
    ∧ props c' = props wrappersExample ∧ Umu c' = Umu wrappersExample.
Proof.
  exact (umu_stage_environment wrappersWhich trimSpace joinPlain
           exampleLookupEnv exampleStat (λ _ _ w, w) ["gamemoderun"]
           wrappersExample "/data" ("/usr/bin/umu-run" +:+ newline) "Game" tt
           eq_refl eq_refl eq_refl eq_refl eq_refl).
Defined.

(** ** [CopyFile] and [CopyDir] on their own *)

(** A node of a well-formed file system other than the root lies in a
    directory under a valid name. *)
Lemma wf_node_place (fs : gmap (list string) node) (k : list string)
    (nd : node) :
  wf fs = true → fs !! k = Some nd → IsDir nd = false →
  ∃ p n, k = p ++ [n] ∧ is_dir fs p = true ∧ valid_name n = true.
Proof.
  intros Hwf Hk Hnd. destruct k as [|n k _] using rev_ind.
  - pose proof (wf_root _ Hwf) as Hr. apply is_dir_Some in Hr as [m Hm].
    rewrite Hm in Hk. injection Hk as <-. done.
  - destruct (wf_parent _ _ _ _ Hwf Hk) as [? ?]. eauto.
Qed.

Lemma wf_replace_file (fs : gmap (list string) node) (k : list string)
    (m m' : N) (data data' : string) :
  wf fs = true → fs !! k = Some (File m data) →
  wf (<[ k := File m' data' ]> fs) = true.
Proof.
  intros Hwf Hk.
  destruct (wf_node_place _ _ _ Hwf Hk eq_refl) as (p & n & -> & Hp & Hn).
  apply wf_insert; try done. unfold is_dir. by rewrite Hk.
Qed.

Lemma Create_follow_file (umask : N) (fs : gmap (list string) node)
    (k : list string) (m : N) (data : string) (fuel : nat) :
  wf fs = true → fs !! k = Some (File m data) →
  os.Create_follow umask fuel k fs = (<[ k := File m EmptyString ]> fs, inr k).
Proof.
  intros Hwf Hk. destruct fuel; simpl; by rewrite (lstat_Some _ _ _ Hwf Hk).
Qed.

Lemma Chmod_file (fs : gmap (list string) node) (k : list string)
    (m m' : N) (data : string) :
  wf fs = true → fs !! k = Some (File m data) →
  os.Chmod k m' fs = (<[ k := File m' data ]> fs, inr tt).
Proof.
  intros Hwf Hk. unfold os.Chmod.
  by rewrite (follow_node _ _ (File m data)) by (by try apply lstat_Some).
Qed.

Lemma Open_node (fs : gmap (list string) node) (k : list string) (nd : node) :
  wf fs = true → fs !! k = Some nd → IsSymlink nd = false →
  os.Open k fs = (fs, inr k).
Proof.
  intros Hwf Hk Hl. apply run_ask.
  by rewrite (follow_node _ _ nd) by (by try apply lstat_Some).
Qed.

(** X11: [CopyFile] of a regular file to a path other than its own, where
    either nothing is yet (in an existing directory) or a regular file is:
    afterwards the destination holds the bytes of the source and the
    permission bits of the source, whatever the mask and whatever the
    destination held; nothing else changes, and the source is as it was. *)
Theorem CopyFile_copies_bytes_and_mode (umask : N)
    (fs : gmap (list string) node) (src dst : list string) (m : N)
    (data : string) :
  wf fs = true → fs !! src = Some (File m data) → dst ≠ src →
  (fs !! dst = None
   ∧ ∃ p n, dst = p ++ [n] ∧ is_dir fs p = true ∧ valid_name n = true)
  ∨ (∃ m' data', fs !! dst = Some (File m' data')) →
  CopyFile umask src dst fs = (<[ dst := File m data ]> fs, inr tt)
  ∧ wf (<[ dst := File m data ]> fs) = true
  ∧ <[ dst := File m data ]> fs !! src = Some (File m data).
Proof.
  intros Hwf Hsrc Hne [[Hnone (p & n & -> & Hp & Hn)]|(m' & data' & Hdst)].
  - destruct (CopyFile_spec umask fs src p n m data) as [Hrun Hwf']; try done.
    split; [done|]. split; [done|]. by rewrite lookup_insert_ne.
  - split; [|split];
      [|by apply (wf_replace_file _ _ m' _ data')|by rewrite lookup_insert_ne].
    unfold CopyFile.
    rewrite (run_bind _ _ fs fs src) by by apply (Open_node _ _ (File m data)).
    rewrite (run_bind _ _ fs (<[ dst := File m' EmptyString ]> fs) dst)
      by by apply (Create_follow_file _ _ _ _ data').
    rewrite (run_bind _ _ _ (<[ dst := File m' data ]> fs) tt).
    2:{ unfold os.Copy. rewrite lookup_insert_ne by done.
        rewrite Hsrc, lookup_insert_eq. by rewrite insert_insert_eq. }
    assert (wf (<[ dst := File m' data ]> fs) = true) as Hwf2
      by by apply (wf_replace_file _ _ m' _ data').
    rewrite (run_bind _ _ _ (<[ dst := File m' data ]> fs) (File m data)).
    2:{ apply Stat_node; [done| |done]. by rewrite lookup_insert_ne. }
    cbn [Mode].
    rewrite (Chmod_file _ _ m' m data Hwf2) by apply lookup_insert_eq.
    by rewrite insert_insert_eq.
Qed.

(** X12: [CopyFile] of a regular file onto itself empties it: the file is
    truncated when it is opened for writing, before a byte is read, and the
    call returns no error; the permission bits stay. *)
Theorem CopyFile_onto_itself_empties (umask : N)
    (fs : gmap (list string) node) (path : list string) (m : N)
    (data : string) :
  wf fs = true → fs !! path = Some (File m data) →
  CopyFile umask path path fs = (<[ path := File m EmptyString ]> fs, inr tt).
Proof.
  intros Hwf Hp. unfold CopyFile.
  rewrite (run_bind _ _ fs fs path) by by apply (Open_node _ _ (File m data)).
  rewrite (run_bind _ _ fs (<[ path := File m EmptyString ]> fs) path)
    by by apply (Create_follow_file _ _ _ _ data).
  assert (wf (<[ path := File m EmptyString ]> fs) = true) as Hwf1
    by by apply (wf_replace_file _ _ m _ data).
  rewrite (run_bind _ _ _ (<[ path := File m EmptyString ]> fs) tt).
  2:{ unfold os.Copy. rewrite lookup_insert_eq. by rewrite insert_insert_eq. }
  rewrite (run_bind _ _ _ (<[ path := File m EmptyString ]> fs)
             (File m EmptyString)).
  2:{ apply Stat_node; [done| |done]. apply lookup_insert_eq. }
  cbn [Mode].
  rewrite (Chmod_file _ _ m m EmptyString Hwf1) by apply lookup_insert_eq.
  by rewrite insert_insert_eq.
Qed.

(** X13: [CopyDir] of a directory to a path where nothing is yet, with the
    destination not inside the source and fuel beyond the depth of the
    source: the call returns no error; below the destination stands the
    copy of the source, every directory with its bits less the mask, every
    regular file with its bytes and bits, no link; the source and every
    other node of the file system are as they were, and the only nodes
    added outside the destination are its missing parent directories. *)
Theorem CopyDir_copies_the_tree (umask : N) (fuel : nat)
    (fs : gmap (list string) node) (src dst : list string) (m : N) :
  wf fs = true → fs !! src = Some (Dir m) →
  os.lstat fs dst = inl ENOENT →
  Forall (λ n, valid_name n = true) dst →
  ¬ src `prefix_of` dst → height fs src < fuel →
  ∃ fs',
    CopyDir umask fuel src dst fs = (fs', inr tt)
    ∧ wf fs' = true
    ∧ (∀ r, fs' !! (dst ++ r) = copied umask (fs !! (src ++ r)))
    ∧ (∀ k nd, fs !! k = Some nd → fs' !! k = Some nd)
    ∧ (∀ k, ¬ dst `prefix_of` k → ¬ k `prefix_of` dst → fs' !! k = fs !! k).
Proof.
  intros Hwf Hsrc Hdst Hvalid Hnot Hfuel.
  destruct (lstat_ENOENT _ _ Hwf Hdst) as [Hnone Hfree].
  destruct (CopyDir_spec umask fuel src dst fs m) as (fs' & Hrun & Hwf' & F1 & F2).
  { repeat (split; [done|]).
    intros k Hk Hpre. pose proof (height_bound fs src k Hk Hpre).
    pose proof (prefix_length _ _ Hpre). lia. }
  exists fs'. repeat (split; [done|]). split.
  - intros k nd Hk. rewrite F1; [by rewrite Hk|].
    intros Hpre. destruct (decide (dst = k)) as [->|Hne]; [congruence|].
    rewrite (wf_below fs dst k) in Hk; try done.
    unfold is_dir. by rewrite Hnone.
  - intros k Hk1 Hk2. rewrite F1 by done.
    destruct (fs !! k); [done|]. by rewrite bool_decide_eq_false_2.
Qed.


Lemma CopyFile_copies_bytes_and_mode_witness :
  CopyFile 18 ["steam"; "1"; "version"] ["home"; "version"] migrationExample
  = (<[ ["home"; "version"] := File 420 "9.0" ]> migrationExample, inr tt)
  ∧ wf (<[ ["home"; "version"] := File 420 "9.0" ]> migrationExample) = true
  ∧ <[ ["home"; "version"] := File 420 "9.0" ]> migrationExample
      !! ["steam"; "1"; "version"]
    = Some (File 420 "9.0").
Proof.
  apply (CopyFile_copies_bytes_and_mode 18 migrationExample
           ["steam"; "1"; "version"] ["home"; "version"] 420 "9.0").
  - reflexivity.
  - reflexivity.
  - discriminate.
  - left. split; [reflexivity|]. exists ["home"], "version".
    repeat split; reflexivity.
Defined.

Lemma CopyFile_onto_itself_empties_witness :
  CopyFile 18 ["steam"; "1"; "version"] ["steam"; "1"; "version"]
    migrationExample
  = (<[ ["steam"; "1"; "version"] := File 420 EmptyString ]> migrationExample,
     inr tt).
Proof.
  exact (CopyFile_onto_itself_empties 18 migrationExample
           ["steam"; "1"; "version"] 420 "9.0" eq_refl eq_refl).
Defined.

Lemma CopyDir_copies_the_tree_witness :
  ∃ fs',
    CopyDir 18 5 ["steam"; "1"] ["data"; "backup"; "1"] migrationExample
    = (fs', inr tt)
    ∧ wf fs' = true
    ∧ (∀ r, fs' !! (["data"; "backup"; "1"] ++ r)
            = copied 18 (migrationExample !! (["steam"; "1"] ++ r)))
    ∧ (∀ k nd, migrationExample !! k = Some nd → fs' !! k = Some nd)
    ∧ (∀ k, ¬ ["data"; "backup"; "1"] `prefix_of` k →
            ¬ k `prefix_of` ["data"; "backup"; "1"] →
            fs' !! k = migrationExample !! k).
Proof.
  apply (CopyDir_copies_the_tree 18 5 migrationExample ["steam"; "1"]
           ["data"; "backup"; "1"] 448).
  - reflexivity.
  - reflexivity.
  - reflexivity.
  - repeat constructor.
  - apply (proj1 (bool_decide_eq_false _)). reflexivity.
  - vm_compute. lia.
Defined.


(** ** [ReadLastLine] on files of several lines *)

Lemma ReadLastLine_file (fs : gmap (list string) node) (path : list string)
    (m : N) (content : string) :
  wf fs = true → fs !! path = Some (File m content) →
  ReadLastLine path fs
  = (fs, inr (lastLineLoop content (String.length content) true EmptyString)).
Proof.
  intros Hwf Hp. unfold ReadLastLine.
  rewrite (run_bind _ _ fs fs (File m content)) by by apply Stat_node.
  rewrite (run_bind _ _ fs fs path)
    by by apply (Open_node _ _ (File m content)).
  rewrite (run_bind _ _ fs fs (Some content)); [done|].
  unfold contents. by rewrite Hp.
Qed.

(** While the first byte read was no newline, the loop collects the bytes
    of the last line and then steps over the newline before it as if it
    were the one that ends the file. *)
Lemma lastLineLoop_unterminated (front line : string) :
  strings.Contains line "010" = false →
  ∀ (j : nat) (lastLine : string), (j ≤ String.length line)%nat →
  lastLineLoop (front +:+ newline +:+ line)
    (String.length front + 1 + j) true lastLine
  = lastLineLoop (front +:+ newline +:+ line) (String.length front) false
      (String.substring 0 j line +:+ lastLine).
Proof.
  intros Hline. induction j as [|j IH]; intros lastLine Hj.
  - rewrite Nat.add_0_r, Nat.add_1_r. cbn [lastLineLoop].
    change (newline +:+ line) with (String "010" line).
    rewrite get_at_length.
    rewrite bool_decide_eq_true_2 by done. cbn [andb].
    by destruct line.
  - rewrite Nat.add_succ_r. cbn [lastLineLoop].
    replace (String.length front + 1 + j)%nat
      with (String.length (front +:+ newline) + j)%nat
      by (rewrite string_length_app; simpl; lia).
    rewrite <- (app_assoc_string front newline), get_app_r.
    destruct (get_Some_lt line j ltac:(lia)) as [b Hb].
    rewrite Hb.
    rewrite bool_decide_eq_false_2
      by (pose proof (get_no_newline _ _ _ Hline Hb); congruence).
    cbn [andb]. rewrite app_assoc_string.
    replace (String.length (front +:+ newline) + j)%nat
      with (String.length front + 1 + j)%nat
      by (rewrite string_length_app; simpl; lia).
    rewrite IH by lia. rewrite (substring_snoc _ _ _ Hb).
    by rewrite app_assoc_string.
Qed.

(** X15: for a file of at least two lines that ends with a newline,
    [ReadLastLine] returns the last line, the text between the last two
    newlines, with no error, and leaves the file system as it is. *)
Theorem ReadLastLine_returns_last_of_several_lines
    (fs : gmap (list string) node) (path : list string) (m : N)
    (pre line : string) :
  wf fs = true → strings.Contains line "010" = false →
  fs !! path = Some (File m (pre +:+ newline +:+ line +:+ newline)) →
  ReadLastLine path fs = (fs, inr line).
Proof.
  intros Hwf Hline Hp. rewrite (ReadLastLine_file _ _ _ _ Hwf Hp).
  by rewrite (lastLineLoop_after_newline pre line Hline).
Qed.

(** X16: for a file that does not end with a newline, [ReadLastLine] takes
    the newline before the last line for the one that ends the file and
    steps over it: when a newline stands before the last two lines, it
    returns these two lines glued together, not the last line. *)
Theorem ReadLastLine_glues_lines_without_final_newline
    (fs : gmap (list string) node) (path : list string) (m : N)
    (pre line1 line2 : string) :
  wf fs = true →
  strings.Contains line1 "010" = false →
  strings.Contains line2 "010" = false → line2 ≠ EmptyString →
  fs !! path
  = Some (File m (pre +:+ newline +:+ line1 +:+ newline +:+ line2)) →
  ReadLastLine path fs = (fs, inr (line1 +:+ line2)).
Proof.
  intros Hwf H1 H2 Hne Hp. rewrite (ReadLastLine_file _ _ _ _ Hwf Hp).
  do 2 f_equal.
  assert (pre +:+ newline +:+ line1 +:+ newline +:+ line2
          = (pre +:+ newline +:+ line1) +:+ newline +:+ line2) as Hshape
    by by rewrite !app_assoc_string.
  assert (String.length (pre +:+ newline +:+ line1 +:+ newline +:+ line2)
          = String.length (pre +:+ newline +:+ line1) + 1
            + String.length line2) as ->.
  { rewrite !string_length_app. simpl. lia. }
  rewrite Hshape at 1.
  rewrite (lastLineLoop_unterminated _ line2 H2) by done.
  rewrite substring_all, string_app_nil_r.
  rewrite <- Hshape.
  replace (String.length (pre +:+ newline +:+ line1))
    with (String.length pre + 1 + String.length line1)
    by (rewrite !string_length_app; simpl; lia).
  rewrite (lastLineLoop_collects pre line1 (newline +:+ line2) H1) by done.
  by rewrite substring_all.
Qed.

Lemma ReadLastLine_returns_last_of_several_lines_witness :
  ReadLastLine ["pfx"; "winetricks.log"]
    (<[ ["pfx"; "winetricks.log"]
        := File 420 ("w_do_call corefonts" +:+ newline +:+ "sound=alsa"
                     +:+ newline) ]> logExample)
  = (<[ ["pfx"; "winetricks.log"]
        := File 420 ("w_do_call corefonts" +:+ newline +:+ "sound=alsa"
                     +:+ newline) ]> logExample,
     inr "sound=alsa").
Proof.
  exact (ReadLastLine_returns_last_of_several_lines
           (<[ ["pfx"; "winetricks.log"]
               := File 420 ("w_do_call corefonts" +:+ newline +:+ "sound=alsa"
                            +:+ newline) ]> logExample)
           ["pfx"; "winetricks.log"] 420 "w_do_call corefonts" "sound=alsa"
           eq_refl eq_refl eq_refl).
Defined.

Lemma ReadLastLine_glues_lines_without_final_newline_witness :
  ReadLastLine ["pfx"; "winetricks.log"]
    (<[ ["pfx"; "winetricks.log"]
        := File 420 ("corefonts" +:+ newline +:+ "sound=" +:+ newline
                     +:+ "alsa") ]> logExample)
  = (<[ ["pfx"; "winetricks.log"]
        := File 420 ("corefonts" +:+ newline +:+ "sound=" +:+ newline
                     +:+ "alsa") ]> logExample,
     inr ("sound=" +:+ "alsa")).
Proof.
  apply (ReadLastLine_glues_lines_without_final_newline
           (<[ ["pfx"; "winetricks.log"]
               := File 420 ("corefonts" +:+ newline +:+ "sound=" +:+ newline
                            +:+ "alsa") ]> logExample)
           ["pfx"; "winetricks.log"] 420 "corefonts" "sound=" "alsa").
  - reflexivity.
  - reflexivity.
  - reflexivity.
  - discriminate.
  - reflexivity.
Defined.

(** ** [makeSureFoldersExist] *)

Lemma dirs_added_refl (fs : gmap (list string) node) : dirs_added fs fs.
Proof. intros k. by left. Qed.

Lemma dirs_added_trans (fs1 fs2 fs3 : gmap (list string) node) :
  dirs_added fs1 fs2 → dirs_added fs2 fs3 → dirs_added fs1 fs3.
Proof.
  intros H12 H23 k.
  destruct (H23 k) as [H3|[H2 Hd]], (H12 k) as [H1|[H1 Hd2]].
  - left. congruence.
  - right. split; [done|]. unfold is_dir in *. by rewrite H3.
  - right. split; [congruence|done].
  - unfold is_dir in Hd2. by rewrite H2 in Hd2.
Qed.

Lemma dirs_added_is_dir (fs fs' : gmap (list string) node) (k : list string) :
  dirs_added fs fs' → is_dir fs k = true → is_dir fs' k = true.
Proof.
  intros H Hd. destruct (H k) as [Heq|[Hnone _]].
  - unfold is_dir in *. by rewrite Heq.
  - unfold is_dir in Hd. by rewrite Hnone in Hd.
Qed.

Lemma dirs_added_way_clear (fs fs' : gmap (list string) node)
    (p : list string) :
  dirs_added fs fs' → way_clear fs p → way_clear fs' p.
Proof.
  intros H Hc q Hq. destruct (H q) as [Heq|[_ Hd]]; [|by right].
  destruct (Hc q Hq) as [Hn|Hd]; [left; congruence|right].
  unfold is_dir in *. by rewrite Heq.
Qed.

Lemma dirs_made_added (fs fs' : gmap (list string) node) (p : list string)
    (m : N) :
  dirs_made fs fs' p (Dir m) → dirs_added fs fs'.
Proof.
  intros H k. rewrite (H k). destruct (fs !! k) eqn:Hk; [by left|].
  case_bool_decide; [|by left]. right. split; [done|].
  unfold is_dir. rewrite (H k), Hk. by rewrite bool_decide_eq_true_2.
Qed.

(** The creation of a directory, whatever comes of it. *)
Lemma try_Mkdir_added (umask perm : N) (fs : gmap (list string) node)
    (path : list string) :
  wf fs = true → Forall (λ n, valid_name n = true) path →
  ∃ fs' r, try (os.Mkdir umask path perm) fs = (fs', inr r)
           ∧ wf fs' = true ∧ dirs_added fs fs'.
Proof.
  intros Hwf Hvalid. unfold os.Mkdir.
  destruct path as [|n p _] using rev_ind.
  { unfold try, os.create_at.
    destruct (os.lstat fs []); eexists fs, _; (split; [done|]);
      (split; [done|apply dirs_added_refl]). }
  apply Forall_app in Hvalid as [_ Hn]. apply Forall_cons in Hn as [Hn _].
  unfold try, os.create_at.
  destruct (os.lstat fs (p ++ [n])) as [e|nd'] eqn:Hl.
  2:{ exists fs, (inl EEXIST). split; [done|].
      split; [done|apply dirs_added_refl]. }
  pose proof (lstat_error_None _ _ _ Hwf Hl) as Hnone.
  destruct (p ++ [n]) as [|x l] eqn:Hpn; [by destruct p|].
  rewrite <- Hpn in *. rewrite parent_snoc.
  destruct (os.lstat fs p) as [e'|[m|m data|target]] eqn:Hlp;
    try (eexists fs, (inl _); split; [reflexivity|];
         split; [done|apply dirs_added_refl]).
  exists (<[ p ++ [n] := Dir (N.ldiff perm umask) ]> fs), (inr tt).
  split; [done|]. split.
  - apply wf_insert; try done.
    apply lstat_inr in Hlp. unfold is_dir. by rewrite Hlp.
  - intros k. destruct (decide (k = p ++ [n])) as [->|Hne].
    + right. split; [done|]. unfold is_dir. by rewrite lookup_insert_eq.
    + left. by rewrite lookup_insert_ne.
Qed.

(** [os.MkdirAll] returns, with or without an error, and whatever it did
    was adding directories. *)
Lemma MkdirAll_upto_added (umask perm : N) (p : list string) :
  Forall (λ n, valid_name n = true) p →
  ∀ (n : nat) (fs : gmap (list string) node), wf fs = true →
  ∃ fs' r, try (os.MkdirAll_upto umask n p perm) fs = (fs', inr r)
           ∧ wf fs' = true ∧ dirs_added fs fs'.
Proof.
  intros Hvalid. induction n as [|n IH]; intros fs Hwf.
  - unfold try. cbn [os.MkdirAll_upto].
    rewrite (run_bind _ _ fs fs (os.stat fs (take 0 p))) by apply try_Stat.
    destruct (os.stat fs (take 0 p)) as [e|nd].
    + rewrite (run_bind _ _ fs fs tt) by done.
      destruct (try_Mkdir_added umask perm fs (take 0 p) Hwf)
        as (fs1 & r & Hrun & Hwf1 & Hadd); [by apply Forall_take|].
      rewrite (run_bind _ _ fs fs1 r) by done.
      destruct r as [err|[]].
      * rewrite (run_bind _ _ fs1 fs1 (os.lstat fs1 (take 0 p)))
          by apply try_Lstat.
        destruct (os.lstat fs1 (take 0 p)) as [?|nd]; [|destruct (IsDir nd)];
          eexists fs1, _; (split; [done|]); done.
      * by eexists fs1, _.
    + destruct (IsDir nd); eexists fs, _; (split; [done|]);
        (split; [done|apply dirs_added_refl]).
  - unfold try. cbn [os.MkdirAll_upto].
    rewrite (run_bind _ _ fs fs (os.stat fs (take (S n) p))) by apply try_Stat.
    destruct (os.stat fs (take (S n) p)) as [e|nd].
    2:{ destruct (IsDir nd); eexists fs, _; (split; [done|]);
          (split; [done|apply dirs_added_refl]). }
    assert (∃ fs0 r0,
              try (match n with
                   | 0 => mret tt
                   | S _ => os.MkdirAll_upto umask n p perm
                   end) fs = (fs0, inr r0)
              ∧ wf fs0 = true ∧ dirs_added fs fs0)
      as (fs0 & r0 & Hrun0 & Hwf0 & Hadd0).
    { destruct n as [|n']; [|by apply IH].
      exists fs, (inr tt). split; [done|]. split; [done|apply dirs_added_refl]. }
    unfold try in Hrun0.
    destruct ((match n with
               | 0 => mret tt
               | S _ => os.MkdirAll_upto umask n p perm
               end) fs) as [fsx [f|[]]] eqn:Hinner.
    { rewrite (run_bind_fail _ _ fs fsx f) by done.
      destruct f as [e0| | |]; try done.
      injection Hrun0 as -> <-. by eexists fs0, _. }
    injection Hrun0 as -> <-.
    rewrite (run_bind _ _ fs fs0 tt) by done.
    destruct (try_Mkdir_added umask perm fs0 (take (S n) p) Hwf0)
      as (fs1 & r & Hrun & Hwf1 & Hadd); [by apply Forall_take|].
    rewrite (run_bind _ _ fs0 fs1 r) by done.
    pose proof (dirs_added_trans _ _ _ Hadd0 Hadd) as Hadd1.
    destruct r as [err|[]].
    + rewrite (run_bind _ _ fs1 fs1 (os.lstat fs1 (take (S n) p)))
        by apply try_Lstat.
      destruct (os.lstat fs1 (take (S n) p)) as [?|nd]; [|destruct (IsDir nd)];
        eexists fs1, _; (split; [done|]); done.
    + by eexists fs1, _.
Qed.

Lemma try_MkdirAll_added (umask perm : N) (fs : gmap (list string) node)
    (p : list string) :
  wf fs = true → Forall (λ n, valid_name n = true) p →
  ∃ fs' r, try (os.MkdirAll umask p perm) fs = (fs', inr r)
           ∧ wf fs' = true ∧ dirs_added fs fs'.
Proof. intros Hwf Hvalid. by apply MkdirAll_upto_added. Qed.

(** One round of the loop of [makeSureFoldersExist]. *)
Lemma makeSureFoldersExist_round (umask : N) (fs : gmap (list string) node)
    (folder : list string) :
  wf fs = true → Forall (λ n, valid_name n = true) folder →
  ∃ fs',
    (r ← try (os.Stat folder);
     if notExist r
     then try (os.MkdirAll umask folder DEFAULT_PERMISSION);; mret tt
     else mret tt) fs = (fs', inr tt)
    ∧ wf fs' = true ∧ dirs_added fs fs'
    ∧ (way_clear fs folder → is_dir fs' folder = true).
Proof.
  intros Hwf Hvalid.
  rewrite (run_bind _ _ fs fs (os.stat fs folder)) by apply try_Stat.
  destruct (fs !! folder) as [nd|] eqn:Hf.
  - assert (way_clear fs folder → is_dir fs folder = true) as Hdir.
    { intros Hc. destruct (Hc folder) as [?|?]; [done|congruence|done]. }
    destruct (notExist (os.stat fs folder)).
    + destruct (try_MkdirAll_added umask DEFAULT_PERMISSION fs folder Hwf Hvalid)
        as (fs1 & r & Hrun & Hwf1 & Hadd).
      exists fs1. rewrite (run_bind _ _ fs fs1 r) by done.
      split; [done|]. split; [done|]. split; [done|].
      intros Hc. apply (dirs_added_is_dir fs); auto.
    + exists fs. split; [done|]. split; [done|].
      split; [apply dirs_added_refl|done].
  - assert (way_clear fs folder → os.stat fs folder = inl ENOENT) as Hstat.
    { intros Hc. unfold os.stat.
      by rewrite (follow_error _ _ ENOENT) by by apply lstat_missing. }
    destruct (notExist (os.stat fs folder)) eqn:Hne.
    + destruct (try_MkdirAll_added umask DEFAULT_PERMISSION fs folder Hwf
                  Hvalid) as (fs1 & r & Hrun & Hwf1 & Hadd).
      exists fs1. rewrite (run_bind _ _ fs fs1 r) by done.
      split; [done|]. split; [done|]. split; [done|].
      intros Hc.
      destruct (MkdirAll_spec umask DEFAULT_PERMISSION fs folder Hwf Hvalid Hc)
        as (fs1' & Hrun' & _ & Hmade).
      rewrite (run_try _ _ _ _ Hrun') in Hrun. injection Hrun as -> _.
      unfold is_dir. rewrite (Hmade folder), Hf.
      by rewrite bool_decide_eq_true_2.
    + exists fs. split; [done|]. split; [done|].
      split; [apply dirs_added_refl|].
      intros Hc. by rewrite (Hstat Hc) in Hne.
Qed.

Lemma makeSureFoldersExist_added (umask : N) (folders : list (list string)) :
  Forall (Forall (λ n, valid_name n = true)) folders →
  ∀ fs : gmap (list string) node, wf fs = true →
  ∃ fs',
    makeSureFoldersExist umask folders fs = (fs', inr tt)
    ∧ wf fs' = true ∧ dirs_added fs fs'
    ∧ ∀ folder, folder ∈ folders → way_clear fs folder →
                is_dir fs' folder = true.
Proof.
  intros Hvalid. induction Hvalid as [|folder folders Hv _ IH]; intros fs Hwf.
  - exists fs. split; [done|]. split; [done|].
    split; [apply dirs_added_refl|]. intros folder Hin. by apply elem_of_nil in Hin.
  - destruct (makeSureFoldersExist_round umask fs folder Hwf Hv)
      as (fs1 & Hrun1 & Hwf1 & Hadd1 & Hdir1).
    destruct (IH fs1 Hwf1) as (fs' & Hrun & Hwf' & Hadd & Hdirs).
    exists fs'. split; [|split; [done|split]].
    + unfold makeSureFoldersExist. cbn [forEach].
      by rewrite (run_bind _ _ fs fs1 tt) by exact Hrun1.
    + by apply (dirs_added_trans _ fs1).
    + intros f Hin Hc. apply elem_of_cons in Hin as [->|Hin].
      * apply (dirs_added_is_dir fs1); auto.
      * apply Hdirs; [done|]. by apply (dirs_added_way_clear fs).
Qed.

(** X17: [makeSureFoldersExist] always returns; it never removes or alters
    a node that is there, and what it adds are directories only.  Every
    folder on whose way nothing but directories stands is a directory
    afterwards, its missing parents made with it; a folder whose way is
    blocked by a file or a link is passed over without an error. *)
Theorem makeSureFoldersExist_only_adds_directories (umask : N)
    (folders : list (list string)) (fs : gmap (list string) node) :
  wf fs = true →
  Forall (Forall (λ n, valid_name n = true)) folders →
  ∃ fs',
    makeSureFoldersExist umask folders fs = (fs', inr tt)
    ∧ wf fs' = true
    ∧ (∀ k nd, fs !! k = Some nd → fs' !! k = Some nd)
    ∧ (∀ k, fs !! k = None → fs' !! k = None ∨ is_dir fs' k = true)
    ∧ (∀ folder, folder ∈ folders → way_clear fs folder →
                 is_dir fs' folder = true).
Proof.
  intros Hwf Hvalid.
  destruct (makeSureFoldersExist_added umask folders Hvalid fs Hwf)
    as (fs' & Hrun & Hwf' & Hadd & Hdirs).
  exists fs'. split; [done|]. split; [done|]. split; [|split; [|done]].
  - intros k nd Hk. destruct (Hadd k) as [->|[Hn _]]; congruence.
  - intros k Hk. destruct (Hadd k) as [->|[_ Hd]]; auto.
Qed.

Lemma makeSureFoldersExist_only_adds_directories_witness :
  let folders :=
    [ ["home"; ".cache"; "plauncher"; "appnames"];
      ["home"; ".config"; "plauncher"; "scripts"];
      ["steam"; "1"; "version"; "overrides"] ] in
  ∃ fs',
    makeSureFoldersExist 18 folders migrationExample = (fs', inr tt)
    ∧ wf fs' = true
    ∧ (∀ k nd, migrationExample !! k = Some nd → fs' !! k = Some nd)
    ∧ (∀ k, migrationExample !! k = None →
            fs' !! k = None ∨ is_dir fs' k = true)
    ∧ (∀ folder, folder ∈ folders → way_clear migrationExample folder →
                 is_dir fs' folder = true).
Proof.
  apply (makeSureFoldersExist_only_adds_directories 18
           [ ["home"; ".cache"; "plauncher"; "appnames"];
             ["home"; ".config"; "plauncher"; "scripts"];
             ["steam"; "1"; "version"; "overrides"] ] migrationExample).
  - reflexivity.
  - repeat constructor.
Defined.

Example makeSureFoldersExist_run :
  let fs' :=
    (makeSureFoldersExist 18
       [ ["home"; ".cache"; "plauncher"; "appnames"];
         ["steam"; "1"; "version"; "overrides"] ] migrationExample).1 in
  fs' !! ["home"; ".cache"; "plauncher"; "appnames"] = Some (Dir 493)
  ∧ fs' !! ["home"; ".cache"] = Some (Dir 493)
  ∧ fs' !! ["steam"; "1"; "version"] = Some (File 420 "9.0")
  ∧ fs' !! ["steam"; "1"; "version"; "overrides"] = None.
Proof. vm_compute. done. Qed.

(** ** The migration, beyond the copy *)

(** A link removed and made again with the same target: the file system is
    the one before. *)
Lemma relink_same (fs : gmap (list string) node) (p target : list string) :
  wf fs = true → fs !! p = Some (Link target) →
  try (os.Remove p) fs = (delete p fs, inr (inr tt))
  ∧ try (os.Symlink target p) (delete p fs) = (fs, inr (inr tt)).
Proof.
  intros Hwf Hp.
  destruct (wf_node_place _ _ _ Hwf Hp eq_refl) as (q & n & -> & Hq & Hn).
  split.
  - unfold try, os.Remove. by rewrite (lstat_Some _ _ _ Hwf Hp).
  - assert (q ++ [n] ≠ []) as Hne by by destruct q.
    assert (wf (delete (q ++ [n]) fs) = true) as Hwf'.
    { apply wf_delete; [done|done|]. intros n'.
      destruct (fs !! ((q ++ [n]) ++ [n'])) as [nd|] eqn:Hc; [|done].
      destruct (wf_parent _ _ _ _ Hwf Hc) as [Hd _].
      unfold is_dir in Hd. by rewrite Hp in Hd. }
    apply run_try. unfold os.Symlink. rewrite create_at_new; try done.
    + by rewrite insert_delete_eq, insert_id.
    + unfold is_dir. rewrite lookup_delete_ne; [done|].
      intros H. apply (f_equal length) in H. rewrite length_app in H.
      simpl in H. lia.
    + apply lookup_delete_eq.
Qed.

(** X18: run again after a migration, the compatibility-data set-up changes
    nothing: when the shortcut in the home directory is the link to the
    base directory and the legacy path is the link to the new directory,
    both links are removed and made again as they were, nothing is copied
    or deleted, and the session variable names the new directory. *)
Theorem migration_again_changes_nothing (umask : N) (fuel : nat)
    (configuration : Configuration)
    (oldCompatData homeDir newCompatDataBase : list string)
    (fs : gmap (list string) node) :
  let newCompatData :=
    filepath.Join newCompatDataBase (map_get (props configuration) "name") in
  let shortcut := filepath.Join homeDir ".compatdata" in
  wf fs = true →
  fs !! shortcut = Some (Link newCompatDataBase) →
  fs !! oldCompatData = Some (Link newCompatData) →
  configureNewSteamCompatData umask fuel configuration oldCompatData
    homeDir newCompatDataBase fs
  = (fs,
     inr (set_Environment
            <[ "STEAM_COMPAT_DATA_PATH" := path_string newCompatData ]>
            configuration)).
Proof.
  intros new shortcut Hwf Hsc Hold.
  unfold configureNewSteamCompatData. cbv zeta.
  fold new. fold shortcut. clearbody new shortcut.
  destruct (relink_same fs shortcut newCompatDataBase Hwf Hsc) as [Hrm Hln].
  destruct (relink_same fs oldCompatData new Hwf Hold) as [Hrm' Hln'].
  rewrite (run_bind _ _ fs fs (os.lstat fs shortcut)) by apply try_Lstat.
  rewrite (lstat_Some _ _ _ Hwf Hsc). cbn [notExist negb].
  rewrite (run_bind _ _ fs (delete shortcut fs) tt)
    by by rewrite (run_bind _ _ fs (delete shortcut fs) (inr tt)).
  rewrite (run_bind _ _ (delete shortcut fs) fs (inr tt)) by done.
  rewrite (run_bind _ _ fs fs (os.lstat fs oldCompatData)) by apply try_Lstat.
  rewrite (run_bind _ _ fs fs (os.stat fs new)) by apply try_Stat.
  rewrite (lstat_Some _ _ _ Hwf Hold). cbn [notExist negb andb].
  rewrite andb_true_r.
  assert (∀ b : bool,
            (if b then statsIsDir (inr (Link new)) else mret false) fs
            = (fs, inr false)) as Hc by by intros [|].
  rewrite (run_bind _ _ fs fs false) by apply Hc.
  cbv iota.
  rewrite (run_bind _ _ fs fs false) by apply Hc.
  cbv iota.
  rewrite (run_bind _ _ fs (delete oldCompatData fs) (inr tt)) by done.
  by rewrite (run_bind _ _ (delete oldCompatData fs) fs (inr tt)).
Qed.

(** X19: when the legacy path is a directory and the new directory is
    already there, the legacy directory is deleted with everything below
    it (nothing of it is copied) and replaced by a link to the new
    directory; outside the legacy directory and the shortcut in the home
    directory, nothing changes. *)
Theorem migration_with_new_directory_present (umask : N) (fuel : nat)
    (configuration : Configuration)
    (oldCompatData homeDir newCompatDataBase : list string)
    (fs : gmap (list string) node) (m : N) (nd : node) :
  let newCompatData :=
    filepath.Join newCompatDataBase (map_get (props configuration) "name") in
  let shortcut := filepath.Join homeDir ".compatdata" in
  wf fs = true →
  fs !! oldCompatData = Some (Dir m) → oldCompatData ≠ [] →
  fs !! newCompatData = Some nd → IsSymlink nd = false →
  ¬ shortcut `prefix_of` oldCompatData →
  ¬ shortcut `prefix_of` newCompatData →
  ¬ oldCompatData `prefix_of` shortcut →
  ∃ fs',
    configureNewSteamCompatData umask fuel configuration oldCompatData
      homeDir newCompatDataBase fs
    = (fs',
       inr (set_Environment
              <[ "STEAM_COMPAT_DATA_PATH" := path_string newCompatData ]>
              configuration))
    ∧ wf fs' = true
    ∧ fs' !! oldCompatData = Some (Link newCompatData)
    ∧ (∀ r, r ≠ [] → fs' !! (oldCompatData ++ r) = None)
    ∧ (∀ k, ¬ oldCompatData `prefix_of` k → k ≠ shortcut →
            fs' !! k = fs !! k).
Proof.
  intros new shortcut Hwf Hold Hne Hnew Hl Hsc_old Hsc_new Hold_sc.
  assert (shortcut = homeDir ++ [".compatdata"]) as Hsc by by apply Join_name.
  unfold configureNewSteamCompatData. cbv zeta.
  fold new. fold shortcut. clearbody new shortcut. subst shortcut.
  destruct (shortcut_replaced fs homeDir newCompatDataBase Hwf)
    as (fs0 & fsa & x & Hrun0 & Hruna & Hwfa & Hframe).
  rewrite (run_bind _ _ fs fs (os.lstat fs (homeDir ++ [".compatdata"])))
    by apply try_Lstat.
  rewrite (run_bind _ _ fs fs0 tt) by exact Hrun0.
  rewrite (run_bind _ _ fs0 fsa x) by exact Hruna.
  assert (fsa !! oldCompatData = Some (Dir m)) as Holda.
  { rewrite Hframe; [done|]. intros ->. by destruct Hsc_old. }
  assert (fsa !! new = Some nd) as Hnewa.
  { rewrite Hframe; [done|]. intros ->. by destruct Hsc_new. }
  rewrite (run_bind _ _ fsa fsa (os.lstat fsa oldCompatData))
    by apply try_Lstat.
  rewrite (run_bind _ _ fsa fsa (os.stat fsa new)) by apply try_Stat.
  rewrite (lstat_Some _ _ _ Hwfa Holda).
  assert (os.stat fsa new = inr nd) as ->.
  { unfold os.stat.
    by rewrite (follow_node _ _ nd) by (by try apply lstat_Some). }
  cbn [notExist os.IsNotExist negb andb statsIsDir IsDir].
  rewrite (run_bind _ _ fsa fsa false) by reflexivity.
  cbv iota.
  rewrite (run_bind _ _ fsa fsa true) by reflexivity.
  cbv iota.
  set (fsc := filter (λ kv : list string * node,
                        ¬ oldCompatData `prefix_of` kv.1) fsa).
  rewrite (run_bind _ _ fsa fsc (inr tt))
    by (apply run_try; by apply (RemoveAll_node _ _ (Dir m))).
  pose proof (wf_filter_below fsa oldCompatData Hwfa Hne) as Hwfc.
  fold fsc in Hwfc.
  destruct oldCompatData as [|n old _] using rev_ind; [done|].
  destruct (wf_parent _ _ _ _ Hwfa Holda) as [Hpar Hvn].
  assert (is_dir fsc old = true) as Hparc.
  { unfold is_dir, fsc. rewrite filter_below_keep; [done|].
    apply prefix_snoc_not. }
  assert (fsc !! (old ++ [n]) = None) as Hgone
    by by apply filter_below_drop.
  set (fsd := <[ old ++ [n] := Link new ]> fsc).
  rewrite (run_bind _ _ fsc fsd (inr tt))
    by (apply run_try; by apply create_at_new).
  exists fsd. split; [reflexivity|]. split; [|split; [|split]].
  - apply wf_insert; try done. unfold is_dir. by rewrite Hgone.
  - apply lookup_insert_eq.
  - intros r Hr. unfold fsd. rewrite lookup_insert_ne.
    2:{ intros Heq. destruct r as [|y r]; [done|].
        apply (f_equal length) in Heq. rewrite !length_app in Heq.
        simpl in Heq. lia. }
    apply filter_below_drop, prefix_app_self.
  - intros k Hk Hks. unfold fsd.
    rewrite lookup_insert_ne by (intros <-; by destruct Hk).
    unfold fsc. rewrite filter_below_keep by done. by apply Hframe.
Qed.


Lemma migration_again_changes_nothing_witness :
  configureNewSteamCompatData 18 0 sessionExample ["steam"; "1"] ["home"]
    ["data"; "plauncher"; "compatdata"] migratedExample
  = (migratedExample,
     inr (set_Environment
            <[ "STEAM_COMPAT_DATA_PATH"
               := path_string
                    (filepath.Join ["data"; "plauncher"; "compatdata"]
                       (map_get (props sessionExample) "name")) ]>
            sessionExample)).
Proof.
  exact (migration_again_changes_nothing 18 0 sessionExample ["steam"; "1"]
           ["home"] ["data"; "plauncher"; "compatdata"] migratedExample
           eq_refl eq_refl eq_refl).
Defined.

Lemma migration_with_new_directory_present_witness :
  let oldCompatData := ["steam"; "1"] in
  let newCompatData :=
    filepath.Join ["data"; "plauncher"; "compatdata"]
      (map_get (props sessionExample) "name") in
  ∃ fs',
    configureNewSteamCompatData 18 0 sessionExample oldCompatData ["home"]
      ["data"; "plauncher"; "compatdata"] bothExample
    = (fs',
       inr (set_Environment
              <[ "STEAM_COMPAT_DATA_PATH" := path_string newCompatData ]>
              sessionExample))
    ∧ wf fs' = true
    ∧ fs' !! oldCompatData = Some (Link newCompatData)
    ∧ (∀ r, r ≠ [] → fs' !! (oldCompatData ++ r) = None)
    ∧ (∀ k, ¬ oldCompatData `prefix_of` k →
            k ≠ filepath.Join ["home"] ".compatdata" →
            fs' !! k = bothExample !! k).
Proof.
  apply (migration_with_new_directory_present 18 0 sessionExample
           ["steam"; "1"] ["home"] ["data"; "plauncher"; "compatdata"]
           bothExample 448 (Dir 448)).
  - reflexivity.
  - reflexivity.
  - discriminate.
  - reflexivity.
  - reflexivity.
  - apply (proj1 (bool_decide_eq_false _)). reflexivity.
  - apply (proj1 (bool_decide_eq_false _)). reflexivity.
  - apply (proj1 (bool_decide_eq_false _)). reflexivity.
Defined.


(** ** The two regular expressions *)

Lemma HasPrefix_app_self (text rest : string) :
  strings.HasPrefix (text +:+ rest) text = true.
Proof.
  induction text as [|c text IH]; [done|].
  rewrite string_app_cons. cbn [strings.HasPrefix]. by rewrite decide_True.
Qed.

Lemma string_drop_app (text rest : string) :
  string_drop (String.length text) (text +:+ rest) = rest.
Proof. induction text as [|c text IH]; [done|]. by rewrite string_app_cons. Qed.

Lemma HasPrefix_app (s a b : string) :
  strings.HasPrefix s (a +:+ b)
  = strings.HasPrefix s a
    && strings.HasPrefix (string_drop (String.length a) s) b.
Proof.
  revert s. induction a as [|c a IH]; intros s; [done|].
  rewrite string_app_cons. cbn [strings.HasPrefix String.length string_drop].
  destruct s as [|c' s]; [done|]. by destruct (decide (c = c')).
Qed.

Lemma string_drop_add (i j : nat) (s : string) :
  string_drop (i + j) s = string_drop j (string_drop i s).
Proof.
  revert s. induction i as [|i IH]; intros s; [done|].
  destruct s as [|c s]; cbn [Nat.add string_drop]; [by destruct j|apply IH].
Qed.

Lemma string_drop_left (pre s : string) (i : nat) :
  i ≤ String.length pre →
  string_drop i (pre +:+ s) = string_drop i pre +:+ s.
Proof.
  revert i. induction pre as [|c pre IH]; intros i Hi.
  - simpl in Hi. by replace i with 0 by lia.
  - rewrite string_app_cons. destruct i as [|i]; [done|].
    cbn [string_drop]. apply IH. simpl in Hi. lia.
Qed.

Lemma consumed_app (w rest : string) : regexp.consumed (w +:+ rest) rest = w.
Proof.
  unfold regexp.consumed. rewrite string_length_app.
  replace (String.length w + String.length rest - String.length rest)
    with (String.length w) by lia.
  induction w as [|c w IH]; [by destruct rest|].
  rewrite string_app_cons. cbn [String.length String.substring]. by rewrite IH.
Qed.

Lemma matchHere_Lit {R} (text rest : string) (groups : gmap nat string)
    (k : string → gmap nat string → option R) :
  regexp.matchHere (regexp.Lit text) (text +:+ rest) groups k = k rest groups.
Proof.
  cbn [regexp.matchHere]. by rewrite HasPrefix_app_self, string_drop_app.
Qed.

(** The greedy repetition gives up characters from the right until the
    continuation accepts: it stops at the last place of the run where it
    does. *)
Lemma star_no_later {R} (class : ascii → bool) (k : string → option R)
    (rest : string) :
  (∀ j, 0 < j → all_class class (String.substring 0 j rest) = true →
        j ≤ String.length rest → k (string_drop j rest) = None) →
  regexp.star class rest k = k rest.
Proof.
  induction rest as [|c rest IH]; intros Hlater; [done|].
  cbn [regexp.star]. destruct (class c) eqn:Hc; [|done].
  rewrite IH.
  - assert (k rest = None) as ->; [|done].
    apply (Hlater 1); [lia| |simpl; lia].
    cbn [String.substring all_class]. rewrite Hc. by destruct rest.
  - intros j Hj Hall Hlen. apply (Hlater (S j)); [lia| |simpl; lia].
    cbn [String.substring all_class]. by rewrite Hc.
Qed.

Lemma star_last {R} (class : ascii → bool) (k : string → option R)
    (w rest : string) (x : R) :
  all_class class w = true → k rest = Some x →
  (∀ j, 0 < j → all_class class (String.substring 0 j rest) = true →
        j ≤ String.length rest → k (string_drop j rest) = None) →
  regexp.star class (w +:+ rest) k = Some x.
Proof.
  intros Hw Hk Hlater. induction w as [|c w IH].
  - change (EmptyString +:+ rest) with rest. by rewrite star_no_later.
  - rewrite string_app_cons. cbn [regexp.star all_class] in *.
    apply andb_true_iff in Hw as [-> Hw]. by rewrite IH.
Qed.

(** What the repetition hands on is what is left after a run of the class. *)
Lemma star_sound {R} (class : ascii → bool) (k : string → option R)
    (s : string) (x : R) :
  regexp.star class s k = Some x →
  ∃ w rest, s = w +:+ rest ∧ all_class class w = true ∧ k rest = Some x.
Proof.
  induction s as [|c s IH]; cbn [regexp.star].
  - intros H. by exists EmptyString, EmptyString.
  - destruct (class c) eqn:Hc.
    + destruct (regexp.star class s k) as [y|] eqn:Hs.
      * intros [= ->]. destruct (IH eq_refl) as (w & rest & -> & Hw & Hk).
        exists (String c w), rest. cbn [all_class]. by rewrite Hc, Hw.
      * intros H. by exists EmptyString, (String c s).
    + intros H. by exists EmptyString, (String c s).
Qed.

(** The search passes over the places where no match starts. *)
Lemma FindStringSubmatch_skip (r : regexp.Regexp) (n : nat) (pre s : string) :
  (∀ i, i < String.length pre →
     ∀ R (k : string → gmap nat string → option R),
       regexp.matchHere r (string_drop i (pre +:+ s)) ∅ k = None) →
  regexp.FindStringSubmatch r n (pre +:+ s) = regexp.FindStringSubmatch r n s.
Proof.
  induction pre as [|c pre IH]; intros Hno; [done|].
  rewrite string_app_cons. cbn [regexp.FindStringSubmatch].
  rewrite <- string_app_cons.
  rewrite (Hno 0 ltac:(simpl; lia)). apply IH.
  intros i Hi. apply (Hno (S i)). simpl. lia.
Qed.

Lemma steamAppidRegex_no_match {R} (s : string)
    (k : string → gmap nat string → option R) :
  appIdAt s = false → regexp.matchHere steamAppidRegex s ∅ k = None.
Proof.
  unfold appIdAt, steamAppidRegex. cbn [regexp.matchHere].
  destruct (strings.HasPrefix s "AppId="); [|done]. cbn [andb].
  change (String.length "AppId=") with 6.
  destruct (string_drop 6 s) as [|c t]; [done|]. cbn [starts_with].
  by intros ->.
Qed.

Lemma steamAppidRegex_match_here (digits rest : string) :
  all_class regexp.digit digits = true → digits ≠ EmptyString →
  starts_with regexp.digit rest = false →
  regexp.FindStringSubmatch steamAppidRegex 1 ("AppId=" +:+ digits +:+ rest)
  = Some ["AppId=" +:+ digits; digits].
Proof.
  intros Hd Hne Hrest.
  assert (regexp.matchHere steamAppidRegex ("AppId=" +:+ digits +:+ rest) ∅
            (λ s' groups,
               Some (regexp.consumed ("AppId=" +:+ digits +:+ rest) s'
                     :: ((λ i, default EmptyString (groups !! i)) <$> seq 1 1)))
          = Some ["AppId=" +:+ digits; digits]) as Hm.
  { unfold steamAppidRegex. cbn [regexp.matchHere].
    rewrite HasPrefix_app_self, string_drop_app.
    destruct digits as [|c digits]; [done|]. cbn [all_class] in Hd.
    apply andb_true_iff in Hd as [Hc Hd]. rewrite string_app_cons, Hc.
    rewrite (star_last regexp.digit _ digits rest
               ["AppId=" +:+ String c digits; String c digits]); try done.
    - rewrite <- (string_app_cons c digits rest).
      rewrite <- (app_assoc_string "AppId=" (String c digits) rest).
      rewrite !consumed_app.
      cbn [seq fmap list_fmap]. by rewrite lookup_insert_eq.
    - intros j Hj Hall Hlen.
      destruct rest as [|c' rest]; [simpl in Hlen; lia|].
      destruct j as [|j]; [lia|]. cbn [String.substring all_class] in Hall.
      cbn [starts_with] in Hrest. by rewrite Hrest in Hall. }
  destruct ("AppId=" +:+ digits +:+ rest); cbn [regexp.FindStringSubmatch];
    by rewrite Hm.
Qed.

(** X21: when no Steam application id is known yet, the launch arguments
    are searched for the first place where [AppId=] is followed by a
    digit, and the whole run of digits there, up to the first character
    that is no digit, becomes both the [steam-appid] and the [id]
    property. *)
Theorem enrichSteamAppIdByArgs_reads_first_AppId (c : Configuration)
    (pre digits rest : string) :
  props c !! "steam-appid" = None →
  (∀ i, i < String.length pre →
        appIdAt (string_drop i (pre +:+ "AppId=" +:+ digits +:+ rest)) = false) →
  all_class regexp.digit digits = true → digits ≠ EmptyString →
  starts_with regexp.digit rest = false →
  enrichSteamAppIdByArgs c (pre +:+ "AppId=" +:+ digits +:+ rest)
  = setSteamAppId c digits
  ∧ props (setSteamAppId c digits) !! "steam-appid" = Some digits
  ∧ props (setSteamAppId c digits) !! "id" = Some digits.
Proof.
  intros Hnone Hfirst Hd Hne Hrest. split.
  - unfold enrichSteamAppIdByArgs. rewrite Hnone.
    rewrite FindStringSubmatch_skip.
    + by rewrite steamAppidRegex_match_here.
    + intros i Hi R k. apply steamAppidRegex_no_match. by apply Hfirst.
  - unfold setSteamAppId, set_props. cbn [props]. split.
    + rewrite lookup_insert_ne by done. apply lookup_insert_eq.
    + apply lookup_insert_eq.
Qed.

Lemma HasPrefix_true (s text : string) :
  strings.HasPrefix s text = true →
  s = text +:+ string_drop (String.length text) s.
Proof.
  revert s. induction text as [|c text IH]; intros s; [done|].
  cbn [strings.HasPrefix]. destruct s as [|c' s]; [done|].
  destruct (decide (c = c')) as [->|]; [|done].
  intros H. rewrite string_app_cons. cbn [String.length string_drop].
  by rewrite <- (IH s H).
Qed.

Lemma steamAppidRegex_sound (s : string) (m : list string) :
  regexp.FindStringSubmatch steamAppidRegex 1 s = Some m →
  ∃ pre digits rest,
    s = pre +:+ "AppId=" +:+ digits +:+ rest
    ∧ digits ≠ EmptyString ∧ all_class regexp.digit digits = true
    ∧ m = ["AppId=" +:+ digits; digits].
Proof.
  assert (∀ s m,
            regexp.matchHere steamAppidRegex s ∅
              (λ s' groups,
                 Some (regexp.consumed s s'
                       :: ((λ i, default EmptyString (groups !! i))
                           <$> seq 1 1))) = Some m →
            ∃ digits rest,
              s = "AppId=" +:+ digits +:+ rest
              ∧ digits ≠ EmptyString ∧ all_class regexp.digit digits = true
              ∧ m = ["AppId=" +:+ digits; digits]) as Hhere.
  { clear. intros s m. unfold steamAppidRegex. cbn [regexp.matchHere].
    destruct (strings.HasPrefix s "AppId=") eqn:Hp; [|done].
    apply HasPrefix_true in Hp. revert Hp.
    generalize (string_drop (String.length "AppId=") s). intros t ->.
    destruct t as [|c t]; [done|]. destruct (regexp.digit c) eqn:Hc; [|done].
    intros Hs. apply star_sound in Hs as (w & rest & -> & Hw & Hk).
    exists (String c w), rest. rewrite <- string_app_cons.
    split; [done|]. split; [done|]. split; [cbn; by rewrite Hc, Hw|].
    rewrite <- (string_app_cons c w rest) in Hk.
    rewrite <- (app_assoc_string "AppId=" (String c w) rest) in Hk.
    rewrite !consumed_app in Hk. cbn [seq fmap list_fmap] in Hk.
    rewrite lookup_insert_eq in Hk. by injection Hk as <-. }
  revert m. induction s as [|c s IH]; intros m; cbn [regexp.FindStringSubmatch].
  - destruct (regexp.matchHere _ _ _ _) as [m'|] eqn:Hm; [|done].
    intros [= <-]. destruct (Hhere _ _ Hm) as (digits & rest & Hs & ?).
    exists EmptyString, digits, rest. done.
  - destruct (regexp.matchHere _ _ _ _) as [m'|] eqn:Hm.
    + intros [= <-]. destruct (Hhere _ _ Hm) as (digits & rest & Hs & ?).
      exists EmptyString, digits, rest. done.
    + intros H. destruct (IH _ H) as (pre & digits & rest & -> & ?).
      exists (String c pre), digits, rest. by rewrite string_app_cons.
Qed.

(** X22: whatever the launch arguments are, [enrichSteamAppIdByArgs] either
    leaves the configuration as it is, or stores, as [steam-appid] and as
    [id], a run of digits that is not empty and stands right after the
    text [AppId=] in the arguments, and does so only when no [steam-appid]
    was known: text that is no number is never taken for an id, and an id
    given on the command line is never replaced. *)
Theorem enrichSteamAppIdByArgs_stores_digits_only (c : Configuration)
    (nonFlagsArgsString : string) :
  enrichSteamAppIdByArgs c nonFlagsArgsString = c
  ∨ ∃ pre digits rest,
      nonFlagsArgsString = pre +:+ "AppId=" +:+ digits +:+ rest
      ∧ digits ≠ EmptyString ∧ all_class regexp.digit digits = true
      ∧ props c !! "steam-appid" = None
      ∧ enrichSteamAppIdByArgs c nonFlagsArgsString = setSteamAppId c digits.
Proof.
  unfold enrichSteamAppIdByArgs.
  destruct (props c !! "steam-appid"); [by left|].
  destruct (regexp.FindStringSubmatch steamAppidRegex 1 nonFlagsArgsString)
    as [m|] eqn:Hm; [|by left].
  right. destruct (steamAppidRegex_sound _ _ Hm)
    as (pre & digits & rest & -> & Hne & Hd & ->).
  exists pre, digits, rest. done.
Qed.

Lemma enrichSteamAppIdByArgs_reads_first_AppId_witness :
  enrichSteamAppIdByArgs defaultConfiguration
    ("steam-launch-wrapper -- " +:+ "AppId=" +:+ "480" +:+ " -- game.exe")
  = setSteamAppId defaultConfiguration "480"
  ∧ props (setSteamAppId defaultConfiguration "480") !! "steam-appid"
    = Some "480"
  ∧ props (setSteamAppId defaultConfiguration "480") !! "id" = Some "480".
Proof.
  apply (enrichSteamAppIdByArgs_reads_first_AppId defaultConfiguration
           "steam-launch-wrapper -- " "480" " -- game.exe").
  - reflexivity.
  - intros i Hi.
    do 24 (destruct i as [|i]; [reflexivity|]).
    simpl in Hi. lia.
  - reflexivity.
  - discriminate.
  - reflexivity.
Defined.

Lemma gameExeRegex_no_match {R} (s : string)
    (k : string → gmap nat string → option R) :
  strings.HasPrefix s "waitforexitandrun /" = false →
  regexp.matchHere gameExeRegex s ∅ k = None.
Proof.
  change "waitforexitandrun /" with ("waitforexitandrun " +:+ "/").
  rewrite HasPrefix_app. unfold gameExeRegex. cbn [regexp.matchHere].
  destruct (strings.HasPrefix s "waitforexitandrun "); [|done].
  cbn [andb]. by intros ->.
Qed.

Lemma extAt_exe (tail : string) : strings.HasPrefix (".exe" +:+ tail) ".exe" = true.
Proof. apply HasPrefix_app_self. Qed.

Lemma extAt_bat (tail : string) :
  strings.HasPrefix (".bat" +:+ tail) ".exe" = false
  ∧ strings.HasPrefix (".bat" +:+ tail) ".bat" = true.
Proof. split; [done|apply HasPrefix_app_self]. Qed.

Lemma consumed_shape (a b : string) (c : ascii) (w e t : string) :
  regexp.consumed (a +:+ b +:+ String c (w +:+ e +:+ t)) t
  = a +:+ b +:+ String c w +:+ e.
Proof.
  rewrite <- (consumed_app (a +:+ b +:+ String c w +:+ e) t). f_equal.
  by rewrite !app_assoc_string, string_app_cons.
Qed.

Lemma gameExeRegex_match_here (body ext tail : string) :
  body ≠ EmptyString → all_class regexp.anyChar body = true →
  ext = ".exe" ∨ ext = ".bat" →
  (∀ j, 0 < j →
        all_class regexp.anyChar (String.substring 0 j (ext +:+ tail)) = true →
        extAt (string_drop j (ext +:+ tail)) = false) →
  regexp.FindStringSubmatch gameExeRegex 2
    ("waitforexitandrun " +:+ "/" +:+ body +:+ ext +:+ tail)
  = Some ["waitforexitandrun " +:+ "/" +:+ body +:+ ext;
          "/" +:+ body +:+ ext; ext].
Proof.
  intros Hne Hbody Hext Hlast.
  set (s := "waitforexitandrun " +:+ "/" +:+ body +:+ ext +:+ tail).
  assert (regexp.matchHere gameExeRegex s ∅
            (λ s' groups,
               Some (regexp.consumed s s'
                     :: ((λ i, default EmptyString (groups !! i)) <$> seq 1 2)))
          = Some ["waitforexitandrun " +:+ "/" +:+ body +:+ ext;
                  "/" +:+ body +:+ ext; ext]) as Hm.
  { unfold gameExeRegex, s. cbn [regexp.matchHere].
    rewrite HasPrefix_app_self, string_drop_app.
    rewrite HasPrefix_app_self, string_drop_app.
    destruct body as [|c body]; [done|]. cbn [all_class] in Hbody.
    apply andb_true_iff in Hbody as [Hc Hbody]. rewrite string_app_cons, Hc.
    pose proof (consumed_shape "waitforexitandrun " "/" c body ext tail)
      as Hwhole.
    pose proof (consumed_shape EmptyString "/" c body ext tail) as Hg1.
    change (EmptyString +:+ ?x) with x in Hg1.
    apply (star_last regexp.anyChar _ body (ext +:+ tail)); [done| |].
    - destruct Hext as [->| ->].
      + rewrite extAt_exe, string_drop_app. rewrite Hwhole, Hg1.
        rewrite consumed_app. cbn [seq fmap list_fmap].
        rewrite lookup_insert_eq, lookup_insert_ne by done.
        by rewrite lookup_insert_eq.
      + destruct (extAt_bat tail) as [-> ->]. rewrite string_drop_app.
        rewrite Hwhole, Hg1. rewrite consumed_app. cbn [seq fmap list_fmap].
        rewrite lookup_insert_eq, lookup_insert_ne by done.
        by rewrite lookup_insert_eq.
    - intros j Hj Hall _. specialize (Hlast j Hj Hall).
      unfold extAt in Hlast. apply orb_false_iff in Hlast as [-> ->]. done. }
  destruct s; cbn [regexp.FindStringSubmatch]; by rewrite Hm.
Qed.

Lemma scanLines_one_line (id : string) :
  strings.Contains id "010" = false →
  (N.of_nat (String.length id) < bufio.MaxScanTokenSize)%N →
  bufio.scanLines (strings.Split (id +:+ newline) "010") = [bufio.dropCR id].
Proof.
  intros Hid Hlen. unfold newline. rewrite (Split_at_sep _ _ _ Hid).
  cbn [strings.Split bufio.scanLines].
  apply N.ltb_lt in Hlen. rewrite Hlen. by rewrite decide_True.
Qed.

(** X23: when no Steam application id is known yet and the launch
    arguments hold, for the first time, [waitforexitandrun ] before an
    absolute path that ends, last on its line, with [.exe] or [.bat], the
    launcher takes the path for the game's executable and looks for
    [steam_appid.txt] in its folder.  A file of one line there gives both
    the [steam-appid] and the [id] property (a carriage return before the
    newline is dropped), and an [AppId=] in the arguments is then passed
    over; when there is no such file the configuration stays as it is.  The
    file system is only read. *)
Theorem enrichSteamAppIdByExe_reads_appid_file (c : Configuration)
    (pre body ext tail : string) :
  let gameExec := "/" +:+ body +:+ ext in
  let args := pre +:+ "waitforexitandrun " +:+ gameExec +:+ tail in
  let appIdFile := filepath.Join (filepath_Dir gameExec) STEAMAPPID_FILENAME in
  props c !! "steam-appid" = None →
  (∀ i, i < String.length pre →
        strings.HasPrefix (string_drop i args) "waitforexitandrun /" = false) →
  body ≠ EmptyString → all_class regexp.anyChar body = true →
  ext = ".exe" ∨ ext = ".bat" →
  (∀ j, 0 < j →
        all_class regexp.anyChar (String.substring 0 j (ext +:+ tail)) = true →
        extAt (string_drop j (ext +:+ tail)) = false) →
  (∀ (fs : gmap (list string) node) (m : N) (id : string),
     wf fs = true → fs !! appIdFile = Some (File m (id +:+ newline)) →
     strings.Contains id "010" = false →
     (N.of_nat (String.length id) < bufio.MaxScanTokenSize)%N →
     enrichSteamAppIdByExe c args fs
     = (fs, inr (setSteamAppId c (bufio.dropCR id)))
     ∧ enrichSteamAppIdByArgs (setSteamAppId c (bufio.dropCR id)) args
       = setSteamAppId c (bufio.dropCR id))
  ∧ (∀ fs : gmap (list string) node,
       os.lstat fs appIdFile = inl ENOENT →
       enrichSteamAppIdByExe c args fs = (fs, inr c)).
Proof.
  intros gameExec args appIdFile Hnone Hfirst Hne Hbody Hext Hlast.
  assert (regexp.FindStringSubmatch gameExeRegex 2 args
          = Some ["waitforexitandrun " +:+ gameExec; gameExec; ext]) as Hre.
  { unfold args, gameExec. rewrite FindStringSubmatch_skip.
    - rewrite !app_assoc_string. by apply gameExeRegex_match_here.
    - intros i Hi R k. apply gameExeRegex_no_match. by apply Hfirst. }
  split.
  - intros fs m id Hwf Hfile Hid Hlen. split.
    + unfold enrichSteamAppIdByExe. rewrite Hnone, Hre.
      cbn [lookup list_lookup default]. fold appIdFile.
      rewrite (run_bind _ _ fs fs (inr (File m (id +:+ newline))))
        by by apply run_try, Stat_node.
      cbn [notExist negb].
      rewrite (run_bind _ _ fs fs (inr appIdFile))
        by by apply run_try, (Open_node _ _ (File m (id +:+ newline))).
      rewrite (run_bind _ _ fs fs (Some (id +:+ newline)))
        by (unfold contents; by rewrite Hfile).
      by rewrite scanLines_one_line.
    + unfold enrichSteamAppIdByArgs, setSteamAppId, set_props. cbn [props].
      rewrite lookup_insert_ne by done. by rewrite lookup_insert_eq.
  - intros fs Hmiss. unfold enrichSteamAppIdByExe. rewrite Hnone, Hre.
    cbn [lookup list_lookup default]. fold appIdFile.
    by rewrite (run_bind _ _ fs fs (inl ENOENT))
      by by apply run_try_error, Stat_error.
Qed.

Lemma enrichSteamAppIdByExe_reads_appid_file_witness :
  (∀ (fs : gmap (list string) node) (m : N) (id : string),
     wf fs = true →
     fs !! ["games"; "G"; "steam_appid.txt"] = Some (File m (id +:+ newline)) →
     strings.Contains id "010" = false →
     (N.of_nat (String.length id) < bufio.MaxScanTokenSize)%N →
     enrichSteamAppIdByExe defaultConfiguration launchExample fs
     = (fs, inr (setSteamAppId defaultConfiguration (bufio.dropCR id)))
     ∧ enrichSteamAppIdByArgs (setSteamAppId defaultConfiguration (bufio.dropCR id))
         launchExample
       = setSteamAppId defaultConfiguration (bufio.dropCR id))
  ∧ (∀ fs : gmap (list string) node,
       os.lstat fs ["games"; "G"; "steam_appid.txt"] = inl ENOENT →
       enrichSteamAppIdByExe defaultConfiguration launchExample fs
       = (fs, inr defaultConfiguration)).
Proof.
  apply (enrichSteamAppIdByExe_reads_appid_file defaultConfiguration
           "proton " "games/G/Game" ".exe" " -windowed").
  - reflexivity.
  - intros i Hi. do 7 (destruct i as [|i]; [reflexivity|]).
    simpl in Hi. lia.
  - discriminate.
  - reflexivity.
  - by left.
  - intros j Hj _. do 15 (destruct j as [|j]; [try lia; reflexivity|]).
    reflexivity.
Defined.

(** The example run: the id is read from the file, without the carriage
    return. *)
Example enrichSteamAppIdByExe_run :
  (enrichSteamAppIdByExe defaultConfiguration launchExample gameExample).2
  = inr (setSteamAppId defaultConfiguration "480").
Proof. reflexivity. Qed.

(** ** The cached game name and the saved overrides *)

Lemma ReadFile_file (fs : gmap (list string) node) (path : list string)
    (m : N) (data : string) :
  wf fs = true → fs !! path = Some (File m data) →
  os_ReadFile path fs = (fs, inr data).
Proof.
  intros Hwf Hp. apply run_ask.
  by rewrite (follow_node _ _ (File m data)) by (by try apply lstat_Some).
Qed.

Lemma WriteFile_new (umask : N) (fs : gmap (list string) node)
    (p : list string) (n data : string) (perm : N) :
  wf fs = true → is_dir fs p = true → fs !! (p ++ [n]) = None →
  os_WriteFile umask (p ++ [n]) data perm fs
  = (<[ p ++ [n] := File (N.ldiff perm umask) data ]> fs, inr tt).
Proof.
  intros Hwf Hdir Hnone. unfold os_WriteFile, os.MAXSYMLINKS.
  cbn [WriteFile_follow]. rewrite (lstat_new _ _ _ Hwf Hdir Hnone).
  by apply create_at_new.
Qed.

Section GameNameFacts.
Variable umask : N.
Variables http_Get http_Get' : string → errno + (errno + string).
Variables json_Name json_Name' : string → errno + string.

(** X24: the game name is fetched once.  With the cache folder there and no
    cache file for the id yet, [findSteamGameName] asks the service, returns
    the name of the answer and writes it, as it is, to the file named by
    the id in the cache folder, with mode 0755 less the mask; from then on
    it returns the bytes of that file and leaves the file system as it is,
    whatever the service would answer.  [enrichGameName] stores the name as
    the [name] property. *)
Theorem findSteamGameName_fetches_once (c : Configuration)
    (appid body name : string) (cacheFolder : list string)
    (fs : gmap (list string) node) :
  wf fs = true → is_dir fs cacheFolder = true → valid_name appid = true →
  fs !! (cacheFolder ++ [appid]) = None →
  http_Get ("https://steamspy.com/api.php?request=appdetails&appid=" +:+ appid)
  = inr (inr body) →
  json_Name body = inr name →
  props c !! "steam-appid" = Some appid →
  let fs' :=
    <[ cacheFolder ++ [appid]
       := File (N.ldiff DEFAULT_PERMISSION umask) name ]> fs in
  findSteamGameName umask http_Get json_Name appid cacheFolder fs
  = (fs', inr name)
  ∧ findSteamGameName umask http_Get' json_Name' appid cacheFolder fs'
    = (fs', inr name)
  ∧ enrichGameName umask http_Get json_Name c cacheFolder fs
    = (fs', inr (set_props <[ "name" := name ]> c)).
Proof.
  intros Hwf Hdir Hvalid Hnone Hget Hjson Hprop fs'.
  assert (findSteamGameName umask http_Get json_Name appid cacheFolder fs
          = (fs', inr name)) as Hfirst.
  { unfold findSteamGameName. rewrite (Join_name _ _ Hvalid).
    rewrite (run_bind _ _ fs fs (inl ENOENT)).
    2:{ apply run_try_error, run_ask_error.
        by rewrite (follow_error _ _ ENOENT) by by apply lstat_new. }
    cbn [notExist os.IsNotExist negb]. rewrite Hget, Hjson.
    by rewrite (run_bind _ _ fs fs' (inr tt))
      by by apply run_try, WriteFile_new. }
  split; [done|]. split.
  - unfold findSteamGameName. rewrite (Join_name _ _ Hvalid).
    rewrite (run_bind _ _ fs' fs' (inr name)); [done|].
    apply run_try, (ReadFile_file _ _ (N.ldiff DEFAULT_PERMISSION umask)).
    + apply wf_insert; try done. unfold is_dir. by rewrite Hnone.
    + apply lookup_insert_eq.
  - unfold enrichGameName, map_get. rewrite Hprop. cbn [default].
    by rewrite (run_bind _ _ fs fs' name).
Qed.

(** X25: when a directory stands where the cache file should be, as it does
    for an empty id, whose cache file is the cache folder itself,
    [findSteamGameName] returns the empty name: the read fails with an
    error other than "does not exist", which the source takes for a hit.
    The service is not asked and nothing is written. *)
Theorem findSteamGameName_empty_on_directory (appid : string)
    (cacheFolder : list string) (fs : gmap (list string) node) (m : N) :
  wf fs = true →
  fs !! filepath.Join cacheFolder appid = Some (Dir m) →
  findSteamGameName umask http_Get json_Name appid cacheFolder fs
  = (fs, inr EmptyString).
Proof.
  intros Hwf Hdir. unfold findSteamGameName.
  rewrite (run_bind _ _ fs fs (inl EISDIR)); [done|].
  apply run_try_error, run_ask_error.
  by rewrite (follow_node _ _ (Dir m)) by (by try apply lstat_Some).
Qed.

End GameNameFacts.

Section OverrideFacts.
Variable umask : N.
Variables yaml_Marshal yaml_Marshal' : Configuration → errno + string.

Lemma createOverrideFile_new (key : string) (c : Configuration)
    (name yamlData : string) (gameOverridesFolder : list string)
    (fs : gmap (list string) node) :
  wf fs = true → is_dir fs gameOverridesFolder = true →
  props c !! key = Some name → valid_name (name +:+ ".yaml") = true →
  fs !! (gameOverridesFolder ++ [name +:+ ".yaml"]) = None →
  yaml_Marshal (stripUnecessaryData c) = inr yamlData →
  createOverrideFile umask yaml_Marshal key c gameOverridesFolder fs
  = (<[ gameOverridesFolder ++ [name +:+ ".yaml"]
        := File (N.ldiff DEFAULT_PERMISSION umask) yamlData ]> fs,
     inr (stripUnecessaryData c))
  ∧ wf (<[ gameOverridesFolder ++ [name +:+ ".yaml"]
           := File (N.ldiff DEFAULT_PERMISSION umask) yamlData ]> fs) = true.
Proof.
  intros Hwf Hdir Hc Hvalid Hnone Hyaml. split.
  - unfold createOverrideFile. rewrite Hc. rewrite (Join_name _ _ Hvalid).
    rewrite (run_bind _ _ fs fs (inl ENOENT))
      by by apply run_try_error, Stat_error, lstat_new.
    cbn [notExist os.IsNotExist]. rewrite Hyaml.
    by rewrite (run_bind _ _ fs _ (inr tt))
      by by apply run_try, WriteFile_new.
  - apply wf_insert; try done. unfold is_dir. by rewrite Hnone.
Qed.

(** X26: an override file is written once.  Asked to save under a name for
    which the overrides folder has no file yet, [createNameOverrideFile]
    (and [createIdOverrideFile], for the id) writes the text of the
    configuration without the launcher's own variables to [name.yaml],
    with mode 0755 less the mask, and takes these variables out of the
    caller's environment too; asked again, for any configuration of that
    name, it leaves the file and the configuration as they are. *)
Theorem createOverrideFile_writes_once (key : string)
    (c c' : Configuration) (name yamlData : string)
    (gameOverridesFolder : list string) (fs : gmap (list string) node) :
  wf fs = true → is_dir fs gameOverridesFolder = true →
  props c !! key = Some name → props c' !! key = Some name →
  valid_name (name +:+ ".yaml") = true →
  fs !! (gameOverridesFolder ++ [name +:+ ".yaml"]) = None →
  yaml_Marshal (stripUnecessaryData c) = inr yamlData →
  let fs' :=
    <[ gameOverridesFolder ++ [name +:+ ".yaml"]
       := File (N.ldiff DEFAULT_PERMISSION umask) yamlData ]> fs in
  createOverrideFile umask yaml_Marshal key c gameOverridesFolder fs
  = (fs', inr (stripUnecessaryData c))
  ∧ createOverrideFile umask yaml_Marshal' key c' gameOverridesFolder fs'
    = (fs', inr c').
Proof.
  intros Hwf Hdir Hc Hc' Hvalid Hnone Hyaml fs'.
  destruct (createOverrideFile_new key c name yamlData gameOverridesFolder fs)
    as [Hrun Hwf']; try done.
  split; [done|].
  unfold createOverrideFile. rewrite Hc'. rewrite (Join_name _ _ Hvalid).
  rewrite (run_bind _ _ fs' fs'
             (inr (File (N.ldiff DEFAULT_PERMISSION umask) yamlData)));
    [done|].
  apply run_try, Stat_node; [done|apply lookup_insert_eq|done].
Qed.

(** X27: with both [--save-name] and [--save-id] given, a name and an id
    that differ, and neither file there yet, [processSpecialFlags] writes
    the two files with the same text: the launcher's own variables are
    taken out of the shared environment before the first file is written,
    and taking them out again before the second changes nothing. *)
Theorem processSpecialFlags_saves_the_same_text
    (flags : gmap string bool) (c : Configuration)
    (name id yamlData : string) (gameOverridesFolder : list string)
    (fs : gmap (list string) node) :
  wf fs = true → is_dir fs gameOverridesFolder = true →
  is_Some (flags !! "save-name") → is_Some (flags !! "save-id") →
  props c !! "name" = Some name → props c !! "id" = Some id →
  name +:+ ".yaml" ≠ id +:+ ".yaml" →
  valid_name (name +:+ ".yaml") = true → valid_name (id +:+ ".yaml") = true →
  fs !! (gameOverridesFolder ++ [name +:+ ".yaml"]) = None →
  fs !! (gameOverridesFolder ++ [id +:+ ".yaml"]) = None →
  yaml_Marshal (stripUnecessaryData c) = inr yamlData →
  processSpecialFlags umask yaml_Marshal flags c gameOverridesFolder fs
  = (<[ gameOverridesFolder ++ [id +:+ ".yaml"]
        := File (N.ldiff DEFAULT_PERMISSION umask) yamlData ]>
       (<[ gameOverridesFolder ++ [name +:+ ".yaml"]
           := File (N.ldiff DEFAULT_PERMISSION umask) yamlData ]> fs),
     inr (stripUnecessaryData c)).
Proof.
  intros Hwf Hdir Hsn Hsi Hname Hid Hne Hvn Hvi Hnn Hni Hyaml.
  unfold processSpecialFlags, createNameOverrideFile, createIdOverrideFile.
  rewrite !bool_decide_eq_true_2 by done.
  destruct (createOverrideFile_new "name" c name yamlData gameOverridesFolder
              fs) as [Hrun1 Hwf1]; try done.
  rewrite (run_bind _ _ fs _ (stripUnecessaryData c)) by exact Hrun1.
  destruct (createOverrideFile_new "id" (stripUnecessaryData c) id yamlData
              gameOverridesFolder
              (<[ gameOverridesFolder ++ [name +:+ ".yaml"]
                  := File (N.ldiff DEFAULT_PERMISSION umask) yamlData ]> fs))
    as [Hrun2 _]; try done.
  - unfold is_dir. rewrite lookup_insert_ne; [done|].
    intros H. apply (f_equal length) in H. rewrite length_app in H.
    simpl in H. lia.
  - rewrite lookup_insert_ne; [done|]. intros H. by simplify_list_eq.
  - by rewrite stripUnecessaryData_twice.
  - by rewrite Hrun2, stripUnecessaryData_twice.
Qed.

End OverrideFacts.

Lemma findSteamGameName_fetches_once_witness :
  let fs' := <[ ["cache"; "480"] := File (N.ldiff 493 18) "Portal" ]> gameExample in
  findSteamGameName 18 (λ _, inr (inr "{name: Portal}")) (λ _, inr "Portal")
    "480" ["cache"] gameExample
  = (fs', inr "Portal")
  ∧ findSteamGameName 18 (λ _, inl ENOENT) (λ _, inl ENOENT) "480" ["cache"] fs'
    = (fs', inr "Portal")
  ∧ enrichGameName 18 (λ _, inr (inr "{name: Portal}")) (λ _, inr "Portal")
      (setSteamAppId defaultConfiguration "480") ["cache"] gameExample
    = (fs',
       inr (set_props <[ "name" := "Portal" ]>
              (setSteamAppId defaultConfiguration "480"))).
Proof.
  exact (findSteamGameName_fetches_once 18 (λ _, inr (inr "{name: Portal}"))
           (λ _, inl ENOENT) (λ _, inr "Portal") (λ _, inl ENOENT)
           (setSteamAppId defaultConfiguration "480") "480" "{name: Portal}"
           "Portal" ["cache"] gameExample eq_refl eq_refl eq_refl eq_refl
           eq_refl eq_refl eq_refl).
Defined.

Lemma findSteamGameName_empty_on_directory_witness :
  findSteamGameName 18 (λ _, inr (inr "{name: Portal}")) (λ _, inr "Portal")
    EmptyString ["cache"] gameExample
  = (gameExample, inr EmptyString).
Proof.
  exact (findSteamGameName_empty_on_directory 18
           (λ _, inr (inr "{name: Portal}")) (λ _, inr "Portal") EmptyString
           ["cache"] gameExample 493 eq_refl eq_refl).
Defined.

Lemma createOverrideFile_writes_once_witness :
  let fs' :=
    <[ ["overrides"; "Game.yaml"] := File (N.ldiff 493 18) "gamemode: true" ]>
      gameExample in
  createOverrideFile 18 (λ _, inr "gamemode: true") "name" sessionExample
    ["overrides"] gameExample
  = (fs', inr (stripUnecessaryData sessionExample))
  ∧ createOverrideFile 18 (λ _, inr "gamemode: false") "name" sessionExample
      ["overrides"] fs'
    = (fs', inr sessionExample).
Proof.
  exact (createOverrideFile_writes_once 18 (λ _, inr "gamemode: true")
           (λ _, inr "gamemode: false") "name" sessionExample sessionExample
           "Game" "gamemode: true" ["overrides"] gameExample eq_refl eq_refl
           eq_refl eq_refl eq_refl eq_refl eq_refl).
Defined.

Lemma processSpecialFlags_saves_the_same_text_witness :
  processSpecialFlags 18 (λ _, inr "gamemode: true")
    {[ "save-name" := true; "save-id" := true ]} sessionExample ["overrides"]
    gameExample
  = (<[ ["overrides"; "1.yaml"] := File (N.ldiff 493 18) "gamemode: true" ]>
       (<[ ["overrides"; "Game.yaml"]
           := File (N.ldiff 493 18) "gamemode: true" ]> gameExample),
     inr (stripUnecessaryData sessionExample)).
Proof.
  apply (processSpecialFlags_saves_the_same_text 18 (λ _, inr "gamemode: true")
           {[ "save-name" := true; "save-id" := true ]} sessionExample
           "Game" "1" "gamemode: true" ["overrides"] gameExample).
  - reflexivity.
  - reflexivity.
  - by eexists.
  - by eexists.
  - reflexivity.
  - reflexivity.
  - discriminate.
  - reflexivity.
  - reflexivity.
  - reflexivity.
  - reflexivity.
  - reflexivity.
Defined.

(** ** More edges *)

Lemma argvLoop_shift (args : list string) :
  ∀ (i : nat) (c : Configuration), i ≠ 0 →
  argvLoop (S i) args c
  = ((argvLoop i args c).1, S <$> (argvLoop i args c).2).
Proof.
  induction args as [|a args IH]; intros i c Hi; [done|].
  cbn [argvLoop]. rewrite !decide_False by done.
  destruct (parseFlag c a) as [c'|]; [|done]. by apply IH.
Qed.

(** X28: a bare [--] does not end the flags: it is taken for a long flag
    with the empty name, which sets the special flag of that name, and the
    arguments after it are parsed as if it had not been there, one place
    further: the configuration is the same, and an index is returned
    exactly when one is returned without the [--], one less. *)
Theorem bare_double_dash_is_a_flag (c : Configuration) (prog : string)
    (rest : list string) :
  let r := enrichConfigurationWithArgvFlags c (prog :: "--" :: rest) in
  let r' :=
    enrichConfigurationWithArgvFlags
      (set_specialFlags <[ EmptyString := true ]> c) (prog :: rest) in
  r.1 = r'.1
  ∧ (∀ i : nat, r.2 = (Z.of_nat (S i), None) ↔ r'.2 = (Z.of_nat i, None))
  ∧ (r.2.2 = None ↔ r'.2.2 = None)
  ∧ r.2.1 ≠ 1%Z.
Proof.
  intros r r'. subst r r'.
  set (c1 := set_specialFlags <[ EmptyString := true ]> c).
  assert (argvLoop 0 (prog :: rest) c1 = argvLoop 1 rest c1) as Hr'.
  { cbn [argvLoop]. by rewrite decide_True. }
  assert (argvLoop 0 (prog :: "--" :: rest) c
          = ((argvLoop 1 rest c1).1, S <$> (argvLoop 1 rest c1).2)) as Hr.
  { cbn [argvLoop]. rewrite decide_True by done. rewrite decide_False by done.
    change (parseFlag c "--") with (Some c1). by apply argvLoop_shift. }
  unfold enrichConfigurationWithArgvFlags. rewrite Hr, Hr'.
  pose proof (argvLoop_spec rest 1 c1 ltac:(done)) as Hspec.
  destruct (argvLoop 1 rest c1) as [c' [j|]];
    cbn [fst snd fmap option_fmap option_map] in *.
  - destruct Hspec as [Hj _].
    split; [done|]. split; [|split; [done|]].
    + intros i. split; intros H; apply (f_equal fst) in H; cbn [fst] in H;
        apply Nat2Z.inj in H; by simplify_eq.
    + lia.
  - split; [done|]. split; [|split; [done|]].
    + intros i. split; intros H; apply (f_equal fst) in H; cbn [fst] in H; lia.
    + lia.
Qed.

(** An example: after [--], the game's [-game] is read as short flags, and
    no command is found. *)
Example bare_double_dash_run :
  (enrichConfigurationWithArgvFlags defaultConfiguration
     ["plauncher"; "--"; "-game"]).2.1 = (-1)%Z.
Proof. reflexivity. Qed.



Section StageFacts.
Variable which_output : string → option string.
Variable TrimSpace : string → string.

Local Abbreviation gamescopeStage :=
  (enrichCommandWithGamescope which_output TrimSpace).

(** X30: the compositor stage adds the HDR token at most once.  Run on the
    configuration it returned, with any command, it returns that
    configuration again; and whenever it applies with HDR asked for, the
    token is among the arguments of the configuration it returns. *)
Theorem gamescope_stage_adds_hdr_once (cur cur' : list string)
    (c : Configuration) (userConfigDir : string) :
  (gamescopeStage cur' (gamescopeStage cur c userConfigDir).2 userConfigDir).2
  = (gamescopeStage cur c userConfigDir).2
  ∧ (Gamescope_Enabled (Gamescope c) = true →
     is_Some (which_output GAMESCOPE_BIN_NAME) →
     Gamescope_Hdr (Gamescope c) = true →
     GAMESCOPE_HDR_ARGV
     ∈ Gamescope_Args (Gamescope (gamescopeStage cur c userConfigDir).2)).
Proof.
  assert (is_Some (which_output GAMESCOPE_BIN_NAME) →
          (checkIfBinExists which_output TrimSpace GAMESCOPE_BIN_NAME).2 = true)
    as Hfound.
  { intros [out Hout]. by apply (checkIfBinExists_found _ _ _ out). }
  unfold enrichCommandWithGamescope.
  destruct (checkIfBinExists which_output TrimSpace GAMESCOPE_BIN_NAME)
    as [cmd ex]. cbn [snd] in Hfound.
  destruct ex.
  2:{ rewrite !andb_false_r. cbn [snd]. rewrite ?andb_false_r.
      split; [done|]. intros _ H. by specialize (Hfound H). }
  rewrite !andb_true_r.
  destruct (Gamescope_Enabled (Gamescope c)) eqn:He; cbn [snd].
  2:{ rewrite He. by split. }
  destruct (Gamescope_Hdr (Gamescope c)) eqn:Hh.
  2:{ rewrite He, Hh. by split. }
  unfold slices_Contains.
  destruct (decide (GAMESCOPE_HDR_ARGV ∈ Gamescope_Args (Gamescope c)))
    as [Hin|Hin].
  - rewrite (bool_decide_eq_true_2 _ Hin). cbn [negb].
    rewrite He, Hh. rewrite (bool_decide_eq_true_2 _ Hin). by split.
  - rewrite (bool_decide_eq_false_2 _ Hin). cbn [negb].
    autorewrite with conf.
    cbn [Gamescope set_Gamescope_Args set_Gamescope Gamescope_Enabled
         Gamescope_Hdr Gamescope_Args].
    rewrite He, Hh.
    assert (GAMESCOPE_HDR_ARGV
            ∈ Gamescope_Args (Gamescope c) ++ [GAMESCOPE_HDR_ARGV]) as Hin'
      by set_solver.
    rewrite (bool_decide_eq_true_2 _ Hin'). by split.
Qed.

End StageFacts.
